(** * Allium / my283 vendor headers: the [cam_os_util*] macro library

    A shallow embedding of the bit-scan, hashing, ioctl-encoding, bitmap and
    intrusive-list primitives of

      - [cam_os_util.h]         ([CAM_OS_FLS], [CAM_OS_FLS64])
      - [cam_os_util_hash.h]    ([CAM_OS_ILOG2], [CAM_OS_HASH_BITS])
      - [cam_os_util_bitmap.h]  ([CAM_OS_FFS], [CAM_OS_TEST_AND_SET_BIT], ...)
      - [cam_os_util_ioctl.h]   ([CAM_OS_IOC] and its decoders)
      - [cam_os_util_list.h]    (list, hlist and hash mixing)

    Machine integers are values of [Z] with the wrap-around of each C
    conversion written out.  Memory is a finite map from addresses to
    structs; dereferencing an address that holds no struct is a fault
    ([None]). *)

From Stdlib Require Import ZArith Lia Bool.
From stdpp Require Import base option numbers list gmap.

Local Open Scope Z_scope.

(** ** Configuration and integer types ([cam_os_wrapper.h]) *)

(** [CAM_OS_BITS_PER_LONG] is 64 under [__aarch64__] and 32 otherwise. *)
Inductive long_width := Long32 | Long64.

Definition CAM_OS_BITS_PER_LONG (cfg : long_width) : Z :=
  match cfg with Long32 => 32 | Long64 => 64 end.

(** Conversion to an unsigned type of [w] bits, and to the signed type of
    the same width (two's complement, as GNU C defines it). *)
Definition to_unsigned (w x : Z) : Z := x mod 2 ^ w.
Definition to_signed (w x : Z) : Z := (x + 2 ^ (w - 1)) mod 2 ^ w - 2 ^ (w - 1).

Definition to_u32 : Z -> Z := to_unsigned 32.
Definition to_s32 : Z -> Z := to_signed 32.
Definition to_u64 : Z -> Z := to_unsigned 64.
Definition to_ulong (cfg : long_width) : Z -> Z :=
  to_unsigned (CAM_OS_BITS_PER_LONG cfg).

Definition is_s32 (x : Z) : Prop := - 2 ^ 31 <= x < 2 ^ 31.
Definition is_u32 (x : Z) : Prop := 0 <= x < 2 ^ 32.
Definition is_u64 (x : Z) : Prop := 0 <= x < 2 ^ 64.
Definition is_ulong (cfg : long_width) (x : Z) : Prop :=
  0 <= x < 2 ^ CAM_OS_BITS_PER_LONG cfg.

(** A shift whose count is negative or not below the width of the promoted
    left operand has no defined result, in ISO C and in GNU C alike (whereas
    GNU C does define a signed left shift that overflows: it wraps). *)
Definition shift_count_ok (w n : Z) : bool := (0 <=? n) && (n <? w).

(** ** [cam_os_util.h] *)

(** [static FORCE_INLINE s32 CAM_OS_FLS(s32 x)].  The parameter is signed:
    every mask test converts it to [unsigned int], every [x <<= k] is a
    signed shift that wraps. *)
Definition CAM_OS_FLS (x : Z) : Z :=
  let r := 32 in
  if x =? 0 then 0 else
  let '(x, r) :=
    if Z.land (to_u32 x) 0xffff0000 =? 0
    then (to_s32 (Z.shiftl x 16), r - 16) else (x, r) in
  let '(x, r) :=
    if Z.land (to_u32 x) 0xff000000 =? 0
    then (to_s32 (Z.shiftl x 8), r - 8) else (x, r) in
  let '(x, r) :=
    if Z.land (to_u32 x) 0xf0000000 =? 0
    then (to_s32 (Z.shiftl x 4), r - 4) else (x, r) in
  let '(x, r) :=
    if Z.land (to_u32 x) 0xc0000000 =? 0
    then (to_s32 (Z.shiftl x 2), r - 2) else (x, r) in
  let '(_, r) :=
    if Z.land (to_u32 x) 0x80000000 =? 0
    then (to_s32 (Z.shiftl x 1), r - 1) else (x, r) in
  r.

(** [static FORCE_INLINE s32 _CAM_OS_FLS(u64 word)], compiled only when
    [CAM_OS_BITS_PER_LONG == 64]; [~0ul << k] is a 64-bit mask there. *)
Definition ulong64_mask (k : Z) : Z := to_u64 (Z.shiftl (2 ^ 64 - 1) k).

Definition _CAM_OS_FLS (word : Z) : Z :=
  let num := 64 - 1 in
  let '(num, word) :=
    if Z.land word (ulong64_mask 32) =? 0
    then (num - 32, to_u64 (Z.shiftl word 32)) else (num, word) in
  let '(num, word) :=
    if Z.land word (ulong64_mask (64 - 16)) =? 0
    then (num - 16, to_u64 (Z.shiftl word 16)) else (num, word) in
  let '(num, word) :=
    if Z.land word (ulong64_mask (64 - 8)) =? 0
    then (num - 8, to_u64 (Z.shiftl word 8)) else (num, word) in
  let '(num, word) :=
    if Z.land word (ulong64_mask (64 - 4)) =? 0
    then (num - 4, to_u64 (Z.shiftl word 4)) else (num, word) in
  let '(num, word) :=
    if Z.land word (ulong64_mask (64 - 2)) =? 0
    then (num - 2, to_u64 (Z.shiftl word 2)) else (num, word) in
  let num :=
    if Z.land word (ulong64_mask (64 - 1)) =? 0 then num - 1 else num in
  num.

(** [CAM_OS_FLS64(u64 x)]: one body per configuration. *)
Definition CAM_OS_FLS64 (cfg : long_width) (x : Z) : Z :=
  match cfg with
  | Long32 =>
      let h := to_u32 (Z.shiftr x 32) in
      if negb (h =? 0) then CAM_OS_FLS (to_s32 h) + 32
      else CAM_OS_FLS (to_s32 x)
  | Long64 =>
      if x =? 0 then 0 else _CAM_OS_FLS x + 1
  end.

(** ** [cam_os_util_hash.h]: integer logarithm *)

(** [s32 _CAM_OS_ILOG2_U32(u32 n)]: the [u32] argument is converted to the
    [s32] parameter of [CAM_OS_FLS]. *)
Definition _CAM_OS_ILOG2_U32 (n : Z) : Z := CAM_OS_FLS (to_s32 n) - 1.

Definition _CAM_OS_ILOG2_U64 (cfg : long_width) (n : Z) : Z :=
  CAM_OS_FLS64 cfg n - 1.

(** [(n) & (1ULL << k)] used as a condition. *)
Definition bit_set (n k : Z) : bool := negb (Z.land n (Z.shiftl 1 k) =? 0).

(** The conditional chain of the constant-expression branch, on the operand
    converted to [unsigned long long]. *)
Definition ilog2_chain (n : Z) : Z :=
    if bit_set n 63 then 63 else if bit_set n 62 then 62 else if bit_set n 61 then 61 else if bit_set n 60 then 60 else
    if bit_set n 59 then 59 else if bit_set n 58 then 58 else if bit_set n 57 then 57 else if bit_set n 56 then 56 else
    if bit_set n 55 then 55 else if bit_set n 54 then 54 else if bit_set n 53 then 53 else if bit_set n 52 then 52 else
    if bit_set n 51 then 51 else if bit_set n 50 then 50 else if bit_set n 49 then 49 else if bit_set n 48 then 48 else
    if bit_set n 47 then 47 else if bit_set n 46 then 46 else if bit_set n 45 then 45 else if bit_set n 44 then 44 else
    if bit_set n 43 then 43 else if bit_set n 42 then 42 else if bit_set n 41 then 41 else if bit_set n 40 then 40 else
    if bit_set n 39 then 39 else if bit_set n 38 then 38 else if bit_set n 37 then 37 else if bit_set n 36 then 36 else
    if bit_set n 35 then 35 else if bit_set n 34 then 34 else if bit_set n 33 then 33 else if bit_set n 32 then 32 else
    if bit_set n 31 then 31 else if bit_set n 30 then 30 else if bit_set n 29 then 29 else if bit_set n 28 then 28 else
    if bit_set n 27 then 27 else if bit_set n 26 then 26 else if bit_set n 25 then 25 else if bit_set n 24 then 24 else
    if bit_set n 23 then 23 else if bit_set n 22 then 22 else if bit_set n 21 then 21 else if bit_set n 20 then 20 else
    if bit_set n 19 then 19 else if bit_set n 18 then 18 else if bit_set n 17 then 17 else if bit_set n 16 then 16 else
    if bit_set n 15 then 15 else if bit_set n 14 then 14 else if bit_set n 13 then 13 else if bit_set n 12 then 12 else
    if bit_set n 11 then 11 else if bit_set n 10 then 10 else if bit_set n  9 then  9 else if bit_set n  8 then  8 else
    if bit_set n  7 then  7 else if bit_set n  6 then  6 else if bit_set n  5 then  5 else if bit_set n  4 then  4 else
    if bit_set n  3 then  3 else if bit_set n  2 then  2 else if bit_set n  1 then  1 else if bit_set n  0 then  0 else
    0.

(** [CAM_OS_ILOG2(n)].  [constant_p] is [__builtin_constant_p(n)], [size]
    is [sizeof(n)] and [n] the value of the operand in its own type. *)
Definition CAM_OS_ILOG2 (cfg : long_width) (constant_p : bool) (size n : Z) : Z :=
  if constant_p then
    if n <? 1 then 0 else ilog2_chain (to_u64 n)
  else if size <=? 4 then _CAM_OS_ILOG2_U32 (to_u32 n)
  else _CAM_OS_ILOG2_U64 cfg (to_u64 n).

(** [CAM_OS_HASH_BITS(name)] is [CAM_OS_ILOG2(CAM_OS_ARRAY_SIZE(name))]; the
    array size [len] has type [size_t], as wide as a [long]. *)
Definition sizeof_size_t (cfg : long_width) : Z := CAM_OS_BITS_PER_LONG cfg / 8.

Definition CAM_OS_HASH_BITS (cfg : long_width) (constant_p : bool) (len : Z) : Z :=
  CAM_OS_ILOG2 cfg constant_p (sizeof_size_t cfg) len.

(** ** [cam_os_util_list.h]: golden-ratio hashing *)

Definition CAM_OS_GOLDEN_RATIO_PRIME_32 : Z := 0x9e370001.
Definition CAM_OS_GOLDEN_RATIO_PRIME_64 : Z := 0x9e37fffffffc0001.

(** [u32 CAM_OS_HASH_32(u32 val, u32 bits)] (declared under
    [CAM_OS_BITS_PER_LONG == 32]).  [32 - bits] is computed in
    [unsigned int]; the shift is defined for counts below 32 only. *)
Definition CAM_OS_HASH_32 (val bits : Z) : option Z :=
  let hash := to_u32 (val * CAM_OS_GOLDEN_RATIO_PRIME_32) in
  let count := to_u32 (32 - bits) in
  if shift_count_ok 32 count then Some (Z.shiftr hash count) else None.

(** [uint64_t CAM_OS_HASH_64(u64 val, u32 bits)] (declared under
    [CAM_OS_BITS_PER_LONG == 64]). *)
Definition CAM_OS_HASH_64 (val bits : Z) : option Z :=
  let hash := val in
  let hash := to_u64 (hash * CAM_OS_GOLDEN_RATIO_PRIME_64) in
  let count := to_u32 (64 - bits) in
  if shift_count_ok 64 count then Some (Z.shiftr hash count) else None.

Definition CAM_OS_HASH_LONG (cfg : long_width) (val bits : Z) : option Z :=
  match cfg with
  | Long32 => CAM_OS_HASH_32 (to_u32 val) bits
  | Long64 => CAM_OS_HASH_64 (to_u64 val) bits
  end.

(** [CAM_OS_HASH_MIN(val, bits)]; [size] is [sizeof(val)]. *)
Definition CAM_OS_HASH_MIN (cfg : long_width) (size val bits : Z) : option Z :=
  if size <=? 4 then CAM_OS_HASH_32 (to_u32 val) bits
  else CAM_OS_HASH_LONG cfg val bits.

(** ** [cam_os_util_bitmap.h] *)

(** [1UL << ((nr) % CAM_OS_BITS_PER_LONG)]: [%] truncates towards zero, so
    a negative [nr] gives a negative count. *)
Definition CAM_OS_BIT_MASK (cfg : long_width) (nr : Z) : option Z :=
  let count := Z.rem nr (CAM_OS_BITS_PER_LONG cfg) in
  if shift_count_ok (CAM_OS_BITS_PER_LONG cfg) count
  then Some (to_ulong cfg (Z.shiftl 1 count)) else None.

Definition CAM_OS_BIT_WORD (cfg : long_width) (nr : Z) : Z :=
  Z.quot nr (CAM_OS_BITS_PER_LONG cfg).

Definition CAM_OS_DIV_ROUND_UP (n d : Z) : Z := Z.quot (n + d - 1) d.

Definition CAM_OS_BITS_TO_LONGS (cfg : long_width) (nr : Z) : Z :=
  CAM_OS_DIV_ROUND_UP nr (CAM_OS_BITS_PER_LONG cfg).

(** [int CAM_OS_FFS(unsigned long x)]: [x & -x] is an [unsigned long] that
    is converted to the [s32] parameter of [CAM_OS_FLS]. *)
Definition CAM_OS_FFS (cfg : long_width) (x : Z) : Z :=
  CAM_OS_FLS (to_s32 (Z.land x (to_ulong cfg (- x)))).

Definition _CAM_OS_FFS (cfg : long_width) (x : Z) : Z :=
  to_ulong cfg (CAM_OS_FFS cfg x - 1).

Definition CAM_OS_FFZ (cfg : long_width) (x : Z) : Z :=
  _CAM_OS_FFS cfg (to_ulong cfg (Z.lnot x)).

(** A bitmap is the array of [unsigned long] words that
    [CAM_OS_DECLARE_BITMAP] declares; an access outside it is a fault. *)
Abbreviation bitmap := (list Z).

Definition load_word (addr : bitmap) (i : Z) : option Z :=
  if 0 <=? i then addr !! Z.to_nat i else None.

Definition store_word (addr : bitmap) (i v : Z) : option bitmap :=
  _ ← load_word addr i; Some (<[Z.to_nat i := v]> addr).

Definition CAM_OS_SET_BIT (cfg : long_width) (nr : Z) (addr : bitmap) : option bitmap :=
  mask ← CAM_OS_BIT_MASK cfg nr;
  let p := CAM_OS_BIT_WORD cfg nr in
  old ← load_word addr p;
  store_word addr p (Z.lor old mask).

Definition CAM_OS_CLEAR_BIT (cfg : long_width) (nr : Z) (addr : bitmap) : option bitmap :=
  mask ← CAM_OS_BIT_MASK cfg nr;
  let p := CAM_OS_BIT_WORD cfg nr in
  old ← load_word addr p;
  store_word addr p (Z.land old (to_ulong cfg (Z.lnot mask))).

Definition CAM_OS_TEST_AND_SET_BIT (cfg : long_width) (nr : Z) (addr : bitmap)
  : option (Z * bitmap) :=
  mask ← CAM_OS_BIT_MASK cfg nr;
  let p := CAM_OS_BIT_WORD cfg nr in
  old ← load_word addr p;
  addr' ← store_word addr p (Z.lor old mask);
  Some (if negb (Z.land old mask =? 0) then 1 else 0, addr').

Definition CAM_OS_TEST_AND_CLEAR_BIT (cfg : long_width) (nr : Z) (addr : bitmap)
  : option (Z * bitmap) :=
  mask ← CAM_OS_BIT_MASK cfg nr;
  let p := CAM_OS_BIT_WORD cfg nr in
  old ← load_word addr p;
  addr' ← store_word addr p (Z.land old (to_ulong cfg (Z.lnot mask)));
  Some (if negb (Z.land old mask =? 0) then 1 else 0, addr').

Definition CAM_OS_TEST_BIT (cfg : long_width) (nr : Z) (addr : bitmap) : option Z :=
  w ← load_word addr (CAM_OS_BIT_WORD cfg nr);
  Some (Z.land 1 (Z.shiftr w (Z.land nr (CAM_OS_BITS_PER_LONG cfg - 1)))).

(** Bit [n] of the bitmap, read off the words directly. *)
Definition bitmap_bit (cfg : long_width) (addr : bitmap) (n : Z) : option bool :=
  w ← load_word addr (n / CAM_OS_BITS_PER_LONG cfg);
  Some (Z.testbit w (n mod CAM_OS_BITS_PER_LONG cfg)).

(** The words of a bitmap hold [unsigned long] values. *)
Definition bitmap_wf (cfg : long_width) (addr : bitmap) : Prop :=
  Forall (is_ulong cfg) addr.

(** ** [cam_os_util_ioctl.h] *)

Definition CAM_OS_IOC_NRBITS : Z := 8.
Definition CAM_OS_IOC_TYPEBITS : Z := 8.
Definition CAM_OS_IOC_SIZEBITS : Z := 14.
Definition CAM_OS_IOC_DIRBITS : Z := 2.

Definition CAM_OS_IOC_NRMASK : Z := Z.shiftl 1 CAM_OS_IOC_NRBITS - 1.
Definition CAM_OS_IOC_TYPEMASK : Z := Z.shiftl 1 CAM_OS_IOC_TYPEBITS - 1.
Definition CAM_OS_IOC_SIZEMASK : Z := Z.shiftl 1 CAM_OS_IOC_SIZEBITS - 1.
Definition CAM_OS_IOC_DIRMASK : Z := Z.shiftl 1 CAM_OS_IOC_DIRBITS - 1.

Definition CAM_OS_IOC_NRSHIFT : Z := 0.
Definition CAM_OS_IOC_TYPESHIFT : Z := CAM_OS_IOC_NRSHIFT + CAM_OS_IOC_NRBITS.
Definition CAM_OS_IOC_SIZESHIFT : Z := CAM_OS_IOC_TYPESHIFT + CAM_OS_IOC_TYPEBITS.
Definition CAM_OS_IOC_DIRSHIFT : Z := CAM_OS_IOC_SIZESHIFT + CAM_OS_IOC_SIZEBITS.

Definition CAM_OS_IOC_NONE : Z := 0.
Definition CAM_OS_IOC_WRITE : Z := 1.
Definition CAM_OS_IOC_READ : Z := 2.

(** The operands are [unsigned int] (the direction constants carry the
    [U] suffix): a left shift keeps the low 32 bits. *)
Definition shl_u32 (x k : Z) : Z := to_u32 (Z.shiftl x k).

Definition CAM_OS_IOC (dir type nr size : Z) : Z :=
  Z.lor (Z.lor (Z.lor (shl_u32 dir CAM_OS_IOC_DIRSHIFT)
                      (shl_u32 type CAM_OS_IOC_TYPESHIFT))
               (shl_u32 nr CAM_OS_IOC_NRSHIFT))
        (shl_u32 size CAM_OS_IOC_SIZESHIFT).

Definition CAM_OS_IOC_DIR (nr : Z) : Z :=
  Z.land (Z.shiftr nr CAM_OS_IOC_DIRSHIFT) CAM_OS_IOC_DIRMASK.
Definition CAM_OS_IOC_TYPE (nr : Z) : Z :=
  Z.land (Z.shiftr nr CAM_OS_IOC_TYPESHIFT) CAM_OS_IOC_TYPEMASK.
Definition CAM_OS_IOC_NR (nr : Z) : Z :=
  Z.land (Z.shiftr nr CAM_OS_IOC_NRSHIFT) CAM_OS_IOC_NRMASK.
Definition CAM_OS_IOC_SIZE (nr : Z) : Z :=
  Z.land (Z.shiftr nr CAM_OS_IOC_SIZESHIFT) CAM_OS_IOC_SIZEMASK.

(** ** [cam_os_util_list.h]: circular doubly-linked lists *)

(** [struct CamOsListHead_t { struct CamOsListHead_t *pNext, *pPrev; }].
    Pointers are addresses; the heap maps the address of each live struct
    to its contents. *)
Record CamOsListHead_t := ListHead { pNext : Z; pPrev : Z }.

Abbreviation heap := (gmap Z CamOsListHead_t).

Definition CAM_OS_POISON_POINTER_DELTA : Z := 0.
Definition CAM_OS_LIST_POISON1 : Z := 0x00100100 + CAM_OS_POISON_POINTER_DELTA.
Definition CAM_OS_LIST_POISON2 : Z := 0x00200200 + CAM_OS_POISON_POINTER_DELTA.

(** Field reads [p->pNext], [p->pPrev] and field writes [p->pNext = v],
    [p->pPrev = v]. *)
Definition load_pNext (p : Z) (h : heap) : option Z := pNext <$> h !! p.
Definition load_pPrev (p : Z) (h : heap) : option Z := pPrev <$> h !! p.

Definition store_pNext (p v : Z) (h : heap) : option heap :=
  s ← h !! p; Some (<[p := ListHead v (pPrev s)]> h).
Definition store_pPrev (p v : Z) (h : heap) : option heap :=
  s ← h !! p; Some (<[p := ListHead (pNext s) v]> h).

Definition CAM_OS_INIT_LIST_HEAD (pList : Z) (h : heap) : option heap :=
  h ← store_pNext pList pList h;
  store_pPrev pList pList h.

Definition _CAM_OS_LIST_ADD (pNew prev next : Z) (h : heap) : option heap :=
  h ← store_pPrev next pNew h;
  h ← store_pNext pNew next h;
  h ← store_pPrev pNew prev h;
  store_pNext prev pNew h.

Definition CAM_OS_LIST_ADD (pNew head : Z) (h : heap) : option heap :=
  next ← load_pNext head h;
  _CAM_OS_LIST_ADD pNew head next h.

Definition CAM_OS_LIST_ADD_TAIL (pNew head : Z) (h : heap) : option heap :=
  prev ← load_pPrev head h;
  _CAM_OS_LIST_ADD pNew prev head h.

Definition _CAM_OS_LIST_DEL (prev next : Z) (h : heap) : option heap :=
  h ← store_pPrev next prev h;
  store_pNext prev next h.

Definition _CAM_OS_LIST_DEL_ENTRY (entry : Z) (h : heap) : option heap :=
  prev ← load_pPrev entry h;
  next ← load_pNext entry h;
  _CAM_OS_LIST_DEL prev next h.

Definition CAM_OS_LIST_DEL (pEntry : Z) (h : heap) : option heap :=
  prev ← load_pPrev pEntry h;
  next ← load_pNext pEntry h;
  h ← _CAM_OS_LIST_DEL prev next h;
  h ← store_pNext pEntry CAM_OS_LIST_POISON1 h;
  store_pPrev pEntry CAM_OS_LIST_POISON2 h.

Definition CAM_OS_LIST_DEL_INIT (entry : Z) (h : heap) : option heap :=
  h ← _CAM_OS_LIST_DEL_ENTRY entry h;
  CAM_OS_INIT_LIST_HEAD entry h.

Definition CAM_OS_LIST_IS_LAST (list head : Z) (h : heap) : option bool :=
  n ← load_pNext list h; Some (bool_decide (n = head)).

Definition CAM_OS_LIST_EMPTY (head : Z) (h : heap) : option bool :=
  n ← load_pNext head h; Some (bool_decide (n = head)).

(** *** Well-formed rings *)

(** [p->pNext->pPrev == p] and [p->pPrev->pNext == p]. *)
Definition linked_at (h : heap) (p : Z) : Prop :=
  exists n q, load_pNext p h = Some n /\ load_pPrev p h = Some q /\
              load_pPrev n h = Some p /\ load_pNext q h = Some p.

(** The nodes of [L] form circular doubly-linked lists: the set is closed
    under [pNext] and [pPrev] and every node of it is linked both ways. *)
Definition rings (h : heap) (L : gset Z) : Prop :=
  forall p, p ∈ L ->
    exists n q, load_pNext p h = Some n /\ load_pPrev p h = Some q /\
                n ∈ L /\ q ∈ L /\
                load_pPrev n h = Some p /\ load_pNext q h = Some p.

(** [reach h p q]: following [pNext] from [p] arrives at [q]. *)
Inductive reach (h : heap) (p : Z) : Z -> Prop :=
  | reach_here : reach h p p
  | reach_next q n : reach h p q -> load_pNext q h = Some n -> reach h p n.

(** *** Sequences of list operations *)

Inductive list_op :=
  | OpInit (pList : Z)
  | OpAdd (pNew head : Z)
  | OpAddTail (pNew head : Z)
  | OpDelInit (entry : Z).

Definition run_op (o : list_op) : heap -> option heap :=
  match o with
  | OpInit p => CAM_OS_INIT_LIST_HEAD p
  | OpAdd n hd => CAM_OS_LIST_ADD n hd
  | OpAddTail n hd => CAM_OS_LIST_ADD_TAIL n hd
  | OpDelInit e => CAM_OS_LIST_DEL_INIT e
  end.

Fixpoint run_ops (ops : list list_op) (h : heap) : option heap :=
  match ops with
  | [] => Some h
  | o :: ops => h ← run_op o h; run_ops ops h
  end.

(** The nodes that are on a list after an operation, given those that were
    before it. *)
Definition on_list_after (o : list_op) (L : gset Z) : gset Z :=
  match o with
  | OpInit p => L ∪ {[p]}
  | OpAdd n _ | OpAddTail n _ => L ∪ {[n]}
  | OpDelInit e => L ∖ {[e]}
  end.

(** An operation initialises or inserts a struct that exists ([A] is the
    set of allocated addresses) and is not on a list, next to a node that
    is; it deletes a node that is on a list. *)
Definition op_allowed (A L : gset Z) (o : list_op) : Prop :=
  match o with
  | OpInit p => p ∈ A ∧ p ∉ L
  | OpAdd n hd | OpAddTail n hd => n ∈ A ∧ (n ∉ L) ∧ (hd ∈ L)
  | OpDelInit e => e ∈ L
  end.

Fixpoint ops_allowed (A L : gset Z) (ops : list list_op) : Prop :=
  match ops with
  | [] => True
  | o :: ops => op_allowed A L o /\ ops_allowed A (on_list_after o L) ops
  end.

Definition on_list_after_all (ops : list list_op) (L : gset Z) : gset Z :=
  foldl (fun L o => on_list_after o L) L ops.

(** ** [cam_os_util_list.h]: hash lists *)

Module HList.

(** A [struct CamOsHListNode_t **] points at the [pFirst] field of a head
    or at the [pNext] field of a node. *)
Inductive link := FirstOf (head : Z) | NextOf (node : Z).

(** [struct CamOsHListHead_t { struct CamOsHListNode_t *pFirst; }] *)
Record CamOsHListHead_t := Head { pFirst : Z }.

(** [struct CamOsHListNode_t { struct CamOsHListNode_t *pNext, **ppPrev; }];
    [None] is the [NULL] back pointer. *)
Record CamOsHListNode_t := Node { pNext : Z; ppPrev : option link }.

Record mem := Mem { heads : gmap Z CamOsHListHead_t;
                    nodes : gmap Z CamOsHListNode_t }.

Definition NULL : Z := 0.

Definition store_pNext (n v : Z) (m : mem) : option mem :=
  s ← nodes m !! n;
  Some (Mem (heads m) (<[n := Node v (ppPrev s)]> (nodes m))).

Definition store_ppPrev (n : Z) (v : option link) (m : mem) : option mem :=
  s ← nodes m !! n;
  Some (Mem (heads m) (<[n := Node (pNext s) v]> (nodes m))).

Definition store_pFirst (hd v : Z) (m : mem) : option mem :=
  _ ← heads m !! hd;
  Some (Mem (<[hd := Head v]> (heads m)) (nodes m)).

(** [CAM_OS_WRITE_ONCE( *pp, v)]: a store through a [**] pointer; a store
    through [NULL] is a fault. *)
Definition write_once (pp : option link) (v : Z) (m : mem) : option mem :=
  match pp with
  | None => None
  | Some (FirstOf hd) => store_pFirst hd v m
  | Some (NextOf n) => store_pNext n v m
  end.

Definition CAM_OS_INIT_HLIST_HEAD (ptr : Z) (m : mem) : option mem :=
  store_pFirst ptr NULL m.

Definition CAM_OS_INIT_HLIST_NODE (h : Z) (m : mem) : option mem :=
  m ← store_pNext h NULL m;
  store_ppPrev h None m.

Definition CAM_OS_HLIST_UNHASHED (h : Z) (m : mem) : option bool :=
  s ← nodes m !! h;
  Some (match ppPrev s with None => true | Some _ => false end).

Definition CAM_OS_HLIST_EMPTY (h : Z) (m : mem) : option bool :=
  s ← heads m !! h; Some (pFirst s =? NULL).

Definition _CAM_OS_HLIST_DEL (n : Z) (m : mem) : option mem :=
  s ← nodes m !! n;
  let next := pNext s in
  let pprev := ppPrev s in
  m ← write_once pprev next m;
  if negb (next =? NULL) then store_ppPrev next pprev m else Some m.

Definition CAM_OS_HLIST_DEL_INIT (n : Z) (m : mem) : option mem :=
  unhashed ← CAM_OS_HLIST_UNHASHED n m;
  if negb unhashed then
    m ← _CAM_OS_HLIST_DEL n m;
    CAM_OS_INIT_HLIST_NODE n m
  else Some m.

Definition CAM_OS_HLIST_ADD_HEAD (n h : Z) (m : mem) : option mem :=
  hd ← heads m !! h;
  let first := pFirst hd in
  m ← store_pNext n first m;
  m ← (if negb (first =? NULL) then store_ppPrev first (Some (NextOf n)) m
       else Some m);
  m ← store_pFirst h n m;
  store_ppPrev n (Some (FirstOf h)) m.

(** [CAM_OS_HASH_DEL] of [cam_os_util_hash.h]. *)
Definition CAM_OS_HASH_DEL (node : Z) (m : mem) : option mem :=
  CAM_OS_HLIST_DEL_INIT node m.

End HList.

(** ** [cam_os_util_ioctl.h]: the command constructors *)

(** [CAM_OS_IOC_TYPECHECK(t)] is [sizeof(t)]: no check is made. *)
Definition CAM_OS_IOC_TYPECHECK (sizeof_t : Z) : Z := sizeof_t.

Definition CAM_OS_IO (type nr : Z) : Z := CAM_OS_IOC CAM_OS_IOC_NONE type nr 0.
Definition CAM_OS_IOR (type nr size : Z) : Z :=
  CAM_OS_IOC CAM_OS_IOC_READ type nr (CAM_OS_IOC_TYPECHECK size).
Definition CAM_OS_IOW (type nr size : Z) : Z :=
  CAM_OS_IOC CAM_OS_IOC_WRITE type nr (CAM_OS_IOC_TYPECHECK size).
Definition CAM_OS_IOWR (type nr size : Z) : Z :=
  CAM_OS_IOC (Z.lor CAM_OS_IOC_READ CAM_OS_IOC_WRITE) type nr (CAM_OS_IOC_TYPECHECK size).

Definition CAM_OS_IOC_IN : Z := shl_u32 CAM_OS_IOC_WRITE CAM_OS_IOC_DIRSHIFT.
Definition CAM_OS_IOC_OUT : Z := shl_u32 CAM_OS_IOC_READ CAM_OS_IOC_DIRSHIFT.
Definition CAM_OS_IOC_INOUT : Z :=
  shl_u32 (Z.lor CAM_OS_IOC_WRITE CAM_OS_IOC_READ) CAM_OS_IOC_DIRSHIFT.
Definition CAM_OS_IOCSIZE_MASK : Z := Z.shiftl CAM_OS_IOC_SIZEMASK CAM_OS_IOC_SIZESHIFT.
Definition CAM_OS_IOCSIZE_SHIFT : Z := CAM_OS_IOC_SIZESHIFT.

(** ** [cam_os_util_bitmap.h]: toggling a bit *)

Definition CAM_OS_CHANGE_BIT (cfg : long_width) (nr : Z) (addr : bitmap) : option bitmap :=
  mask ← CAM_OS_BIT_MASK cfg nr;
  let p := CAM_OS_BIT_WORD cfg nr in
  old ← load_word addr p;
  store_word addr p (Z.lxor old mask).

Definition CAM_OS_TEST_AND_CHANGE_BIT (cfg : long_width) (nr : Z) (addr : bitmap)
  : option (Z * bitmap) :=
  mask ← CAM_OS_BIT_MASK cfg nr;
  let p := CAM_OS_BIT_WORD cfg nr in
  old ← load_word addr p;
  addr' ← store_word addr p (Z.lxor old mask);
  Some (if negb (Z.land old mask =? 0) then 1 else 0, addr').

(** ** [cam_os_util_list.h]: emptiness test and traversal of circular lists *)

Definition CAM_OS_LIST_EMPTY_CAREFUL (head : Z) (h : heap) : option bool :=
  next ← load_pNext head h;
  if bool_decide (next = head) then
    prev ← load_pPrev head h; Some (bool_decide (next = prev))
  else Some false.

(** [CAM_OS_LIST_FOR_EACH(pos, head)] with a body that leaves the list
    alone: the values [pos] takes, in order.  [fuel] bounds the number of
    evaluations of the loop condition. *)
Fixpoint list_for_each_from (fuel : nat) (head pos : Z) (h : heap)
  : option (list Z) :=
  match fuel with
  | O => None
  | S fuel =>
      if bool_decide (pos = head) then Some []
      else next ← load_pNext pos h;
           rest ← list_for_each_from fuel head next h;
           Some (pos :: rest)
  end.

Definition CAM_OS_LIST_FOR_EACH (fuel : nat) (head : Z) (h : heap)
  : option (list Z) :=
  first ← load_pNext head h; list_for_each_from fuel head first h.

(** [CAM_OS_CONTAINER_OF(ptr, type, member)], with [offset] for
    [offsetof(type, member)]. *)
Definition CAM_OS_CONTAINER_OF (ptr offset : Z) : Z := ptr - offset.

Definition CAM_OS_LIST_ENTRY (ptr offset : Z) : Z := CAM_OS_CONTAINER_OF ptr offset.

Definition CAM_OS_LIST_FIRST_ENTRY (ptr offset : Z) (h : heap) : option Z :=
  n ← load_pNext ptr h; Some (CAM_OS_LIST_ENTRY n offset).

Definition CAM_OS_LIST_LAST_ENTRY (ptr offset : Z) (h : heap) : option Z :=
  p ← load_pPrev ptr h; Some (CAM_OS_LIST_ENTRY p offset).

(** [(pos)->member] is at [pos + offset]. *)
Definition CAM_OS_LIST_NEXT_ENTRY (pos offset : Z) (h : heap) : option Z :=
  n ← load_pNext (pos + offset) h; Some (CAM_OS_LIST_ENTRY n offset).

Fixpoint list_for_each_entry_from (fuel : nat) (offset head pos : Z)
    (h : heap) : option (list Z) :=
  match fuel with
  | O => None
  | S fuel =>
      if bool_decide (pos + offset = head) then Some []
      else next ← CAM_OS_LIST_NEXT_ENTRY pos offset h;
           rest ← list_for_each_entry_from fuel offset head next h;
           Some (pos :: rest)
  end.

Definition CAM_OS_LIST_FOR_EACH_ENTRY (fuel : nat) (offset head : Z)
    (h : heap) : option (list Z) :=
  first ← CAM_OS_LIST_FIRST_ENTRY head offset h;
  list_for_each_entry_from fuel offset head first h.

(** [CAM_OS_LIST_FOR_EACH_SAFE(pos, n, head)] with the loop body [body],
    which is given [pos] and may change the list. *)
Fixpoint list_for_each_safe_from (body : Z -> heap -> option heap)
    (fuel : nat) (head pos n : Z) (h : heap)
  : option heap :=
  match fuel with
  | O => None
  | S fuel =>
      if bool_decide (pos = head) then Some h
      else h ← body pos h;
           n' ← load_pNext n h;
           list_for_each_safe_from body fuel head n n' h
  end.

Definition CAM_OS_LIST_FOR_EACH_SAFE (body : Z -> heap -> option heap)
    (fuel : nat) (head : Z) (h : heap) : option heap :=
  pos ← load_pNext head h;
  n ← load_pNext pos h;
  list_for_each_safe_from body fuel head pos n h.

(** ** [cam_os_util_list.h]: traversal of hash lists *)

Definition CAM_OS_HLIST_ENTRY (ptr offset : Z) : Z := CAM_OS_CONTAINER_OF ptr offset.

(** [ptr ? CAM_OS_HLIST_ENTRY(ptr, type, member) : NULL] *)
Definition CAM_OS_HLIST_ENTRY_SAFE (ptr offset : Z) : Z :=
  if ptr =? HList.NULL then HList.NULL else CAM_OS_HLIST_ENTRY ptr offset.

(** [CAM_OS_HLIST_FOR_EACH_ENTRY(pos, head, member)] with a body that
    leaves the list alone: the values [pos] takes, in order. *)
Fixpoint hlist_for_each_entry_from (fuel : nat) (offset pos : Z) (m : HList.mem)
  : option (list Z) :=
  match fuel with
  | O => None
  | S fuel =>
      if pos =? HList.NULL then Some []
      else s ← HList.nodes m !! (pos + offset);
           rest ← hlist_for_each_entry_from fuel offset
                    (CAM_OS_HLIST_ENTRY_SAFE (HList.pNext s) offset) m;
           Some (pos :: rest)
  end.

Definition CAM_OS_HLIST_FOR_EACH_ENTRY (fuel : nat) (offset head : Z) (m : HList.mem)
  : option (list Z) :=
  hd ← HList.heads m !! head;
  hlist_for_each_entry_from fuel offset (CAM_OS_HLIST_ENTRY_SAFE (HList.pFirst hd) offset) m.

(** ** [cam_os_util_hash.h]: hash tables *)

(** [sizeof(struct CamOsHListHead_t)]: one pointer. *)
Definition sizeof_CamOsHListHead_t (cfg : long_width) : Z := sizeof_size_t cfg.

(** [&ht[i]] *)
Definition bucket (cfg : long_width) (ht i : Z) : Z := ht + i * sizeof_CamOsHListHead_t cfg.

(** The loop of [_CAM_OS_HASH_INIT] with [n] iterations left. *)
Fixpoint hash_init_loop (n : nat) (cfg : long_width) (ht i : Z) (m : HList.mem)
  : option HList.mem :=
  match n with
  | O => Some m
  | S n => m ← HList.CAM_OS_INIT_HLIST_HEAD (bucket cfg ht i) m;
           hash_init_loop n cfg ht (i + 1) m
  end.

(** [_CAM_OS_HASH_INIT(ht, sz)]; [sz] is an [unsigned int] and [i] counts
    from 0 up to it. *)
Definition _CAM_OS_HASH_INIT (cfg : long_width) (ht sz : Z) (m : HList.mem)
  : option HList.mem :=
  hash_init_loop (Z.to_nat (to_u32 sz)) cfg ht 0 m.

Definition CAM_OS_HASH_SIZE (len : Z) : Z := len.

(** [CAM_OS_HASH_INIT(hashtable)] for an array of [len] heads at [ht]. *)
Definition CAM_OS_HASH_INIT (cfg : long_width) (ht len : Z) (m : HList.mem)
  : option HList.mem :=
  _CAM_OS_HASH_INIT cfg ht (CAM_OS_HASH_SIZE len) m.

(** [CAM_OS_HASH_ADD(hashtable, node, key)]; [size] is [sizeof(key)]. *)
Definition CAM_OS_HASH_ADD (cfg : long_width) (constant_p : bool) (ht len node size key : Z)
    (m : HList.mem) : option HList.mem :=
  idx ← CAM_OS_HASH_MIN cfg size key (CAM_OS_HASH_BITS cfg constant_p len);
  HList.CAM_OS_HLIST_ADD_HEAD node (bucket cfg ht idx) m.

(** [CAM_OS_HASH_FOR_EACH_POSSIBLE(name, obj, member, key)] *)
Definition CAM_OS_HASH_FOR_EACH_POSSIBLE (fuel : nat) (cfg : long_width) (constant_p : bool)
    (ht len offset size key : Z) (m : HList.mem) : option (list Z) :=
  idx ← CAM_OS_HASH_MIN cfg size key (CAM_OS_HASH_BITS cfg constant_p len);
  CAM_OS_HLIST_FOR_EACH_ENTRY fuel offset (bucket cfg ht idx) m.

(** ** [cam_os_util_bug.h]: error values in pointers *)

Definition CAM_OS_MAX_ERRNO : Z := 4096.

(** [(x) >= (unsigned long)-CAM_OS_MAX_ERRNO], for [x] of a type no wider
    than [long]: the comparison is made in [unsigned long]. *)
Definition CAM_OS_IS_ERR_VALUE (cfg : long_width) (x : Z) : bool :=
  to_ulong cfg (- CAM_OS_MAX_ERRNO) <=? to_ulong cfg x.

(** [(void * )(x)]: a pointer is as wide as a [long]. *)
Definition CAM_OS_ERR_PTR (cfg : long_width) (x : Z) : Z := to_ulong cfg x.

(** [(long)(x)] *)
Definition CAM_OS_PTR_ERR (cfg : long_width) (x : Z) : Z :=
  to_signed (CAM_OS_BITS_PER_LONG cfg) x.

Definition CAM_OS_IS_ERR (cfg : long_width) (x : Z) : bool :=
  CAM_OS_IS_ERR_VALUE cfg (to_ulong cfg x).

(** * Specification vocabulary

    Predicates and reference functions the statements below are written
    with.  None of them is part of the headers. *)

(** The state of the scan after the tests of widths above [j]: the value is
    the original one shifted left by [w - r] without loss, and one of its
    top [j] bits is set. *)
Definition scan_inv (w u0 j u r : Z) : Prop :=
  j <= r <= w /\ u = u0 * 2 ^ (w - r) /\ 2 ^ (w - j) <= u < 2 ^ w.

(** The chain as a recursion on the index of the tested bit. *)
Fixpoint chain_from (k : nat) (n : Z) : Z :=
  if bit_set n (Z.of_nat k) then Z.of_nat k
  else match k with O => 0 | S k' => chain_from k' n end.

(** Number of trailing zero bits of a non-zero integer. *)
Fixpoint trailing_zeros_pos (p : positive) : Z :=
  match p with
  | xO p' => 1 + trailing_zeros_pos p'
  | _ => 0
  end.

Definition trailing_zeros (x : Z) : Z :=
  match x with
  | 0 => 0
  | Zpos p | Zneg p => trailing_zeros_pos p
  end.

(** What a test-and-modify operation on bit [nr] must deliver: [old] is
    the bit before the call and [b] the value the bit is left with. *)
Definition test_and_modify_post (cfg : long_width) (addr : bitmap) (nr : Z)
    (old b : bool) (res : option (Z * bitmap)) : Prop :=
  exists ret addr',
    res = Some (ret, addr') /\
    (ret <> 0 <-> old = true) /\
    bitmap_bit cfg addr' nr = Some b /\
    (forall m, 0 <= m -> m <> nr -> bitmap_bit cfg addr' m = bitmap_bit cfg addr m) /\
    (forall m, 0 <= m ->
       CAM_OS_TEST_BIT cfg m addr' =
         if m =? nr then Some (Z.b2z b) else CAM_OS_TEST_BIT cfg m addr) /\
    bitmap_wf cfg addr' /\ length addr' = length addr.

(** The bucket that [CAM_OS_HASH_ADD] selects in a table of [len] heads is
    an element of the table. *)
Definition bucket_in_table (cfg : long_width) (constant_p : bool)
    (size key len : Z) : Prop :=
  exists idx,
    CAM_OS_HASH_MIN cfg size key (CAM_OS_HASH_BITS cfg constant_p len) = Some idx /\
    0 <= idx < len.

(** The effect of a sequence of field writes on [h0], as the two field
    maps of the heap [h] it leads to. *)
Definition writes (h0 h : heap) (next' prev' : Z -> option Z) : Prop :=
  (forall q, load_pNext q h = next' q) /\
  (forall q, load_pPrev q h = prev' q) /\
  (forall q, is_Some (h !! q) <-> is_Some (h0 !! q)).

(** Heads as [CAM_OS_INIT_LIST_HEAD] and [CAM_OS_LIST_HEAD_INIT] leave them. *)
Definition heads_initialized (h : heap) (L : gset Z) : Prop :=
  forall p, p ∈ L -> load_pNext p h = Some p /\ load_pPrev p h = Some p.

(** What inserting [pNew] between [prev] and [next] leaves behind. *)
Definition inserted_between (h h' : heap) (pNew prev next : Z) : Prop :=
  load_pNext prev h' = Some pNew /\ load_pPrev pNew h' = Some prev /\
  load_pNext pNew h' = Some next /\ load_pPrev next h' = Some pNew /\
  forall p, p <> prev -> p <> pNew -> p <> next -> h' !! p = h !! p.

(** [CAM_OS_LIST_DEL] returns and leaves an entry on which
    [CAM_OS_LIST_EMPTY] is false. *)
Definition list_del_leaves_nonempty (h : heap) (pEntry : Z) : Prop :=
  exists h', CAM_OS_LIST_DEL pEntry h = Some h' /\
             CAM_OS_LIST_EMPTY pEntry h' = Some false.

(** Concrete states used to exercise the statements. *)
Definition ring_of_two : gmap Z CamOsListHead_t :=
  {[ 0x1000 := ListHead 0x2000 0x2000; 0x2000 := ListHead 0x1000 0x1000;
     0x3000 := ListHead 0 0 ]}.

Definition ring_at_poison : gmap Z CamOsListHead_t :=
  {[ 0x1000 := ListHead 0x00100100 0x00100100;
     0x00100100 := ListHead 0x1000 0x1000 ]}.

Definition three_structs : gmap Z CamOsListHead_t :=
  {[ 0x1000 := ListHead 0x1000 0x1000; 0x2000 := ListHead 0 0;
     0x3000 := ListHead 7 9 ]}.

Definition hashed_pair : HList.mem :=
  HList.Mem {[ 100 := HList.Head 2 ]}
            {[ 1 := HList.Node 0 (Some (HList.NextOf 2));
               2 := HList.Node 1 (Some (HList.FirstOf 100)) ]}.

(** ** Bitmaps as arrays of bits *)

(** The bitmap [addr'] is [addr] with bit [nr] set to [b]. *)
Definition bit_assigned (cfg : long_width) (addr : bitmap) (nr : Z) (b : bool)
    (addr' : bitmap) : Prop :=
  (forall m, 0 <= m ->
     bitmap_bit cfg addr' m = if m =? nr then Some b else bitmap_bit cfg addr m) /\
  (forall m, 0 <= m ->
     CAM_OS_TEST_BIT cfg m addr' =
       if m =? nr then Some (Z.b2z b) else CAM_OS_TEST_BIT cfg m addr) /\
  bitmap_wf cfg addr' /\ length addr' = length addr.

(** [nr] indexes a bit of the array. *)
Definition bit_in_array (cfg : long_width) (addr : bitmap) (nr : Z) : Prop :=
  0 <= nr < CAM_OS_BITS_PER_LONG cfg * Z.of_nat (length addr).

(** The plain bit operations, by name. *)
Inductive bit_op := BitSet | BitClear | BitChange.

Definition run_bit_op (cfg : long_width) (op : bit_op) : Z -> bitmap -> option bitmap :=
  match op with
  | BitSet => CAM_OS_SET_BIT cfg
  | BitClear => CAM_OS_CLEAR_BIT cfg
  | BitChange => CAM_OS_CHANGE_BIT cfg
  end.

Definition bit_op_result (op : bit_op) (old : bool) : bool :=
  match op with BitSet => true | BitClear => false | BitChange => negb old end.

(** ** Circular lists as sequences of nodes *)

(** [seg f a l b]: following the field map [f] from [a] passes through
    the nodes of [l] in order and then arrives at [b]. *)
Fixpoint seg (f : Z -> option Z) (a : Z) (l : list Z) (b : Z) : Prop :=
  match l with
  | [] => f a = Some b
  | x :: l' => f a = Some x /\ seg f x l' b
  end.

(** The list headed by [head] holds exactly the nodes [l], in this order
    along [pNext] and in the reverse order along [pPrev]. *)
Definition dlist (h : heap) (head : Z) (l : list Z) : Prop :=
  seg (fun p => load_pNext p h) head l head /\
  seg (fun p => load_pPrev p h) head (reverse l) head /\
  NoDup (head :: l).

(** A head at [0x1000] with two nodes, and a spare node at [0x4000]. *)
Definition ring_of_three : heap :=
  {[ 0x1000 := ListHead 0x2000 0x3000; 0x2000 := ListHead 0x3000 0x1000;
     0x3000 := ListHead 0x1000 0x2000; 0x4000 := ListHead 0 0 ]}.

(** ** Hash lists and hash tables as sequences of nodes *)

(** [hseg ns b f l b' f']: the link [b] holds [f], and following it passes
    through the nodes of [l] in order, each pointing back at the link that
    points at it; [b'] is the link after the last node and [f'] what it
    holds. *)
Fixpoint hseg (ns : gmap Z HList.CamOsHListNode_t) (b : HList.link) (f : Z)
    (l : list Z) (b' : HList.link) (f' : Z) : Prop :=
  match l with
  | [] => b = b' /\ f = f'
  | x :: l' =>
      f = x /\ x <> HList.NULL /\
      exists s, ns !! x = Some s /\ HList.ppPrev s = Some b /\
                hseg ns (HList.NextOf x) (HList.pNext s) l' b' f'
  end.

(** The hlist at head [h] holds exactly the nodes [l], in this order. *)
Definition hlist (m : HList.mem) (h : Z) (l : list Z) : Prop :=
  exists f b', HList.heads m !! h = Some (HList.Head f) /\
               hseg (HList.nodes m) (HList.FirstOf h) f l b' HList.NULL /\
               NoDup l.

(** A head at 100 with the nodes 3, 2, 1, an empty head at 200 and a spare
    node 4. *)
Definition bucket_of_three : HList.mem :=
  HList.Mem {[ 100 := HList.Head 3; 200 := HList.Head 0 ]}
            {[ 1 := HList.Node 0 (Some (HList.NextOf 2));
               2 := HList.Node 1 (Some (HList.NextOf 3));
               3 := HList.Node 2 (Some (HList.FirstOf 100));
               4 := HList.Node 7 None ]}.

(** The table of [len] heads at [ht] holds the nodes [bs !! i] in its
    bucket [i], and no node twice. *)
Definition htable (cfg : long_width) (m : HList.mem) (ht len : Z) (bs : list (list Z))
  : Prop :=
  Z.of_nat (length bs) = len /\
  (forall i l, bs !! i = Some l -> hlist m (bucket cfg ht (Z.of_nat i)) l) /\
  NoDup (concat bs).

(** A table of two heads at 100 (4 bytes each): an empty bucket, a bucket
    with node 1, and a spare node 2. *)
Definition table_of_two : HList.mem :=
  HList.Mem {[ 100 := HList.Head 0; 104 := HList.Head 1 ]}
            {[ 1 := HList.Node 0 (Some (HList.FirstOf 104));
               2 := HList.Node 7 None ]}.

(** * Proofs *)

#[local] Set Warnings "-clear-no-such-hyp".

(** ** Values on sample inputs *)

Example CAM_OS_FLS_values :
  CAM_OS_FLS 1 = 1 /\ CAM_OS_FLS 0x10000 = 17 /\
  CAM_OS_FLS 0x7fffffff = 31 /\ CAM_OS_FLS (-1) = 32.
Proof. repeat split; reflexivity. Qed.

Example CAM_OS_FLS64_values :
  CAM_OS_FLS64 Long32 (2 ^ 40) = 41 /\ CAM_OS_FLS64 Long64 (2 ^ 40) = 41 /\
  CAM_OS_FLS64 Long32 0 = 0 /\ CAM_OS_FLS64 Long64 (2 ^ 64 - 1) = 64.
Proof. repeat split; vm_compute; reflexivity. Qed.

Example CAM_OS_ILOG2_values :
  CAM_OS_ILOG2 Long32 true 4 1 = 0 /\ CAM_OS_ILOG2 Long32 false 4 4096 = 12 /\
  CAM_OS_ILOG2 Long64 true 8 (2 ^ 63) = 63 /\ CAM_OS_ILOG2 Long32 true 4 0 = 0.
Proof. repeat split; vm_compute; reflexivity. Qed.

Example CAM_OS_HASH_values :
  CAM_OS_HASH_32 1 8 = Some 0x9e /\ CAM_OS_HASH_32 1 32 = Some 0x9e370001 /\
  CAM_OS_HASH_64 1 8 = Some 0x9e /\ CAM_OS_HASH_32 1 0 = None.
Proof. repeat split; vm_compute; reflexivity. Qed.

Example CAM_OS_FFS_values :
  CAM_OS_FFS Long32 0 = 0 /\ CAM_OS_FFS Long32 12 = 3 /\
  CAM_OS_FFS Long32 (2 ^ 31) = 32 /\ CAM_OS_FFZ Long32 7 = 3.
Proof. repeat split; vm_compute; reflexivity. Qed.

Example CAM_OS_IOC_values :
  CAM_OS_IOC CAM_OS_IOC_READ 70 1 4 = 0x80044601 /\
  CAM_OS_IOC_DIR 0x80044601 = CAM_OS_IOC_READ /\
  CAM_OS_IOC_SIZE 0x80044601 = 4.
Proof. repeat split; vm_compute; reflexivity. Qed.

Example bitmap_values :
  CAM_OS_BITS_TO_LONGS Long32 40 = 2 /\
  CAM_OS_TEST_AND_SET_BIT Long32 33 [5; 2] = Some (1, [5; 2]) /\
  CAM_OS_TEST_AND_CLEAR_BIT Long32 33 [5; 2] = Some (1, [5; 0]) /\
  CAM_OS_TEST_AND_SET_BIT Long32 34 [5; 2] = Some (0, [5; 6]) /\
  CAM_OS_TEST_AND_SET_BIT Long32 64 [5; 2] = None.
Proof. repeat split; vm_compute; reflexivity. Qed.

Example list_values :
  run_ops [OpAdd 0x2000 0x1000; OpAddTail 0x3000 0x1000] three_structs =
    Some {[ 0x1000 := ListHead 0x2000 0x3000; 0x2000 := ListHead 0x3000 0x1000;
            0x3000 := ListHead 0x1000 0x2000 ]} /\
  CAM_OS_LIST_DEL 0x2000 ring_of_two =
    Some {[ 0x1000 := ListHead 0x1000 0x1000;
            0x2000 := ListHead 0x00100100 0x00200200;
            0x3000 := ListHead 0 0 ]}.
Proof. split; vm_compute; reflexivity. Qed.

Example hlist_values :
  let m0 := HList.Mem {[ 100 := HList.Head 0 ]}
              {[ 1 := HList.Node 0 None; 2 := HList.Node 0 None ]} in
  HList.CAM_OS_HLIST_ADD_HEAD 1 100 m0 ≫= HList.CAM_OS_HLIST_ADD_HEAD 2 100 =
    Some hashed_pair.
Proof. vm_compute. reflexivity. Qed.

(** ** Bit scans *)

Lemma testbit_above_pow2 w u i : 0 <= u < 2 ^ w -> w <= i -> Z.testbit u i = false.
Proof.
  intros Hu Hi. destruct (Z.eq_dec u 0) as [->|Hne]; [apply Z.bits_0|].
  apply Z.bits_above_log2; [lia|].
  assert (0 <= w). { destruct (Z.lt_ge_cases w 0); [|done]. rewrite Z.pow_neg_r in Hu; lia. }
  apply Z.lt_le_trans with w; [|done]. apply Z.log2_lt_pow2; lia.
Qed.

Lemma land_high_mask w m u :
  0 <= m <= w -> 0 <= u < 2 ^ w ->
  Z.land u (2 ^ w - 2 ^ m) = 2 ^ m * (u / 2 ^ m).
Proof.
  intros Hm Hu.
  replace (2 ^ w - 2 ^ m) with (Z.shiftl (Z.ones (w - m)) m).
  2:{ rewrite Z.shiftl_mul_pow2, Z.ones_equiv by lia.
      replace w with ((w - m) + m) at 2 by lia. rewrite Z.pow_add_r by lia. lia. }
  apply Z.bits_inj'. intros i Hi. rewrite Z.land_spec.
  destruct (Z.lt_ge_cases i m) as [Hlt|Hge].
  - rewrite Z.shiftl_spec_low, andb_false_r by lia.
    rewrite Z.mul_comm, Z.mul_pow2_bits_low by lia. done.
  - rewrite Z.shiftl_spec by lia.
    rewrite Z.mul_comm, Z.mul_pow2_bits by lia.
    rewrite Z.div_pow2_bits by lia. replace (i - m + m) with i by lia.
    destruct (Z.lt_ge_cases i w).
    + rewrite Z.ones_spec_low by lia. apply andb_true_r.
    + rewrite Z.ones_spec_high by lia.
      rewrite (testbit_above_pow2 w u i) by lia. done.
Qed.

Lemma land_high_mask_test w m u :
  0 <= m <= w -> 0 <= u < 2 ^ w ->
  (Z.land u (2 ^ w - 2 ^ m) =? 0) = (u <? 2 ^ m).
Proof.
  intros Hm Hu. rewrite land_high_mask by done.
  assert (0 < 2 ^ m) by (apply Z.pow_pos_nonneg; lia).
  destruct (Z.ltb_spec u (2 ^ m)).
  - rewrite Z.div_small by lia. rewrite Z.mul_0_r. done.
  - apply Z.eqb_neq. assert (0 < u / 2 ^ m) by (apply Z.div_str_pos; lia). nia.
Qed.

Lemma to_u32_to_s32 x : to_u32 (to_s32 x) = to_u32 x.
Proof.
  unfold to_u32, to_s32, to_unsigned, to_signed.
  change (2 ^ (32 - 1)) with 2147483648. change (2 ^ 32) with 4294967296.
  Z.div_mod_to_equations. lia.
Qed.

Lemma to_s32_to_u32 x : is_s32 x -> to_s32 (to_u32 x) = x.
Proof.
  unfold is_s32, to_u32, to_s32, to_unsigned, to_signed.
  change (2 ^ (32 - 1)) with 2147483648. change (2 ^ 31) with 2147483648.
  change (2 ^ 32) with 4294967296.
  intros. Z.div_mod_to_equations. lia.
Qed.

Lemma to_u32_range x : 0 <= to_u32 x < 2 ^ 32.
Proof. apply Z.mod_pos_bound. done. Qed.

Lemma to_u32_small x : 0 <= x < 2 ^ 32 -> to_u32 x = x.
Proof. apply Z.mod_small. Qed.

Lemma to_u32_shiftl x k :
  0 <= k -> to_u32 x * 2 ^ k < 2 ^ 32 ->
  to_u32 (to_s32 (Z.shiftl x k)) = to_u32 x * 2 ^ k.
Proof.
  intros Hk Hlt. rewrite to_u32_to_s32, Z.shiftl_mul_pow2 by done.
  unfold to_u32, to_unsigned in *.
  rewrite <- Z.mul_mod_idemp_l by done.
  apply Z.mod_small. split; [|done].
  apply Z.mul_nonneg_nonneg; [apply Z.mod_pos_bound; done | apply Z.pow_nonneg; lia].
Qed.

Lemma scan_inv_shift w u0 k u r :
  0 < k -> 2 * k <= w -> scan_inv w u0 (2 * k) u r -> u < 2 ^ (w - k) ->
  scan_inv w u0 k (u * 2 ^ k) (r - k).
Proof.
  intros Hk Hw (Hr & Hu & Hlo & Hhi) Hlt. unfold scan_inv.
  assert (2 ^ w = 2 ^ (w - k) * 2 ^ k) as Ew.
  { rewrite <- Z.pow_add_r by lia. f_equal. lia. }
  assert (2 ^ (w - k) = 2 ^ (w - 2 * k) * 2 ^ k) as Ek.
  { rewrite <- Z.pow_add_r by lia. f_equal. lia. }
  assert (0 < 2 ^ k) by (apply Z.pow_pos_nonneg; lia).
  split; [lia|]. split.
  - rewrite Hu, <- Z.mul_assoc, <- Z.pow_add_r by lia. do 2 f_equal. lia.
  - rewrite Ew, Ek. split; nia.
Qed.

Lemma scan_inv_keep w u0 k u r :
  0 < k -> scan_inv w u0 (2 * k) u r -> 2 ^ (w - k) <= u ->
  scan_inv w u0 k u r.
Proof. intros Hk (Hr & Hu & Hlo & Hhi) Hge. unfold scan_inv. repeat split; lia. Qed.

Lemma scan_inv_log2 w u0 u r :
  0 < u0 -> scan_inv w u0 1 u r -> Z.log2 u0 = r - 1.
Proof.
  intros H0 (Hr & Hu & Hlo & Hhi).
  assert (0 < 2 ^ (w - r)) by (apply Z.pow_pos_nonneg; lia).
  assert (2 ^ (w - 1) = 2 ^ (r - 1) * 2 ^ (w - r)) as E1.
  { rewrite <- Z.pow_add_r by lia. f_equal. lia. }
  assert (2 ^ w = 2 ^ r * 2 ^ (w - r)) as E2.
  { rewrite <- Z.pow_add_r by lia. f_equal. lia. }
  apply Z.log2_unique; [lia|].
  replace (Z.succ (r - 1)) with r by lia. split; nia.
Qed.

Lemma FLS_step_inv u0 k x r x' r' :
  0 < k -> 2 * k <= 32 ->
  scan_inv 32 u0 (2 * k) (to_u32 x) r ->
  (if Z.land (to_u32 x) (2 ^ 32 - 2 ^ (32 - k)) =? 0
   then (to_s32 (Z.shiftl x k), r - k) else (x, r)) = (x', r') ->
  scan_inv 32 u0 k (to_u32 x') r'.
Proof.
  intros Hk Hw Hinv. rewrite land_high_mask_test by (pose proof (to_u32_range x); lia).
  destruct (Z.ltb_spec (to_u32 x) (2 ^ (32 - k))) as [Hlt|Hge]; intros [= <- <-].
  - pose proof (scan_inv_shift _ _ _ _ _ Hk Hw Hinv Hlt) as Hs.
    rewrite to_u32_shiftl; [done|lia|]. destruct Hs as (_ & _ & _ & ?). done.
  - apply scan_inv_keep; done.
Qed.

Lemma CAM_OS_FLS_log2 x :
  to_u32 x <> 0 -> x <> 0 -> CAM_OS_FLS x = 1 + Z.log2 (to_u32 x).
Proof.
  intros Hu Hx. unfold CAM_OS_FLS.
  destruct (Z.eqb_spec x 0) as [|_]; [done|].
  pose proof (to_u32_range x) as Hr.
  assert (scan_inv 32 (to_u32 x) (2 * 16) (to_u32 x) 32) as H0.
  { unfold scan_inv. change (2 ^ (32 - 32)) with 1. lia. }
  destruct (if Z.land (to_u32 x) 0xffff0000 =? 0 then _ else _) as [x1 r1] eqn:E1.
  apply (FLS_step_inv (to_u32 x) 16) in E1; [|lia|lia|done].
  destruct (if Z.land (to_u32 x1) 0xff000000 =? 0 then _ else _) as [x2 r2] eqn:E2.
  apply (FLS_step_inv (to_u32 x) 8) in E2; [|lia|lia|done].
  destruct (if Z.land (to_u32 x2) 0xf0000000 =? 0 then _ else _) as [x3 r3] eqn:E3.
  apply (FLS_step_inv (to_u32 x) 4) in E3; [|lia|lia|done].
  destruct (if Z.land (to_u32 x3) 0xc0000000 =? 0 then _ else _) as [x4 r4] eqn:E4.
  apply (FLS_step_inv (to_u32 x) 2) in E4; [|lia|lia|done].
  destruct (if Z.land (to_u32 x4) 0x80000000 =? 0 then _ else _) as [x5 r5] eqn:E5.
  apply (FLS_step_inv (to_u32 x) 1) in E5; [|lia|lia|done].
  rewrite (scan_inv_log2 32 (to_u32 x) (to_u32 x5) r5); [lia|lia|done].
Qed.

Lemma to_u64_range x : 0 <= to_u64 x < 2 ^ 64.
Proof. apply Z.mod_pos_bound. done. Qed.

Lemma to_u64_small x : 0 <= x < 2 ^ 64 -> to_u64 x = x.
Proof. apply Z.mod_small. Qed.

Lemma FLS64_step_inv u0 k num word num' word' :
  0 < k -> 2 * k <= 64 ->
  scan_inv 64 u0 (2 * k) word (num + 1) ->
  (if Z.land word (2 ^ 64 - 2 ^ (64 - k)) =? 0
   then (num - k, to_u64 (Z.shiftl word k)) else (num, word)) = (num', word') ->
  scan_inv 64 u0 k word' (num' + 1).
Proof.
  intros Hk Hw Hinv.
  assert (0 <= word < 2 ^ 64) as Hr.
  { destruct Hinv as (_ & _ & Hlo & Hhi). split; [|done].
    apply Z.le_trans with (2 ^ (64 - 2 * k)); [apply Z.pow_nonneg; lia|done]. }
  rewrite land_high_mask_test by lia.
  destruct (Z.ltb_spec word (2 ^ (64 - k))) as [Hlt|Hge]; intros [= <- <-].
  - pose proof (scan_inv_shift _ _ _ _ _ Hk Hw Hinv Hlt) as Hs.
    rewrite Z.shiftl_mul_pow2, to_u64_small by (destruct Hs as (_ & _ & ? & ?); lia).
    replace (num - k + 1) with (num + 1 - k) by lia. done.
  - apply scan_inv_keep; done.
Qed.

Lemma _CAM_OS_FLS_log2 word :
  0 < word < 2 ^ 64 -> _CAM_OS_FLS word = Z.log2 word.
Proof.
  intros Hr. unfold _CAM_OS_FLS.
  assert (scan_inv 64 word (2 * 32) word (64 - 1 + 1)) as H0.
  { unfold scan_inv. change (2 ^ (64 - (64 - 1 + 1))) with 1.
    change (2 ^ (64 - 2 * 32)) with 1. lia. }
  destruct (if Z.land word (ulong64_mask 32) =? 0 then _ else _) as [n1 w1] eqn:E1.
  apply (FLS64_step_inv word 32) in E1; [|lia|lia|done].
  destruct (if Z.land w1 (ulong64_mask (64 - 16)) =? 0 then _ else _) as [n2 w2] eqn:E2.
  apply (FLS64_step_inv word 16) in E2; [|lia|lia|done].
  destruct (if Z.land w2 (ulong64_mask (64 - 8)) =? 0 then _ else _) as [n3 w3] eqn:E3.
  apply (FLS64_step_inv word 8) in E3; [|lia|lia|done].
  destruct (if Z.land w3 (ulong64_mask (64 - 4)) =? 0 then _ else _) as [n4 w4] eqn:E4.
  apply (FLS64_step_inv word 4) in E4; [|lia|lia|done].
  destruct (if Z.land w4 (ulong64_mask (64 - 2)) =? 0 then _ else _) as [n5 w5] eqn:E5.
  apply (FLS64_step_inv word 2) in E5; [|lia|lia|done].
  destruct (if Z.land w5 (ulong64_mask (64 - 1)) =? 0 then (n5 - 1, to_u64 (Z.shiftl w5 1)) else (n5, w5))
    as [n6 w6] eqn:E6.
  assert ((if Z.land w5 (ulong64_mask (64 - 1)) =? 0 then n5 - 1 else n5) = n6) as ->.
  { destruct (Z.land w5 (ulong64_mask (64 - 1)) =? 0); congruence. }
  apply (FLS64_step_inv word 1) in E6; [|lia|lia|done].
  rewrite (scan_inv_log2 64 word w6 (n6 + 1)); [lia|lia|done].
Qed.

Lemma CAM_OS_FLS64_log2 cfg x :
  0 < x < 2 ^ 64 -> CAM_OS_FLS64 cfg x = 1 + Z.log2 x.
Proof.
  intros Hx. unfold CAM_OS_FLS64. destruct cfg; cbv zeta.
  - rewrite Z.shiftr_div_pow2 by lia.
    assert (0 <= x / 2 ^ 32 < 2 ^ 32) as Hh.
    { split; [apply Z.div_pos; lia|]. apply Z.div_lt_upper_bound; lia. }
    rewrite (to_u32_small (x / 2 ^ 32)) by done.
    destruct (Z.eqb_spec (x / 2 ^ 32) 0) as [E|N]; cbv [negb].
    + assert (x < 2 ^ 32).
      { destruct (Z.lt_ge_cases x (2 ^ 32)); [done|].
        assert (0 < x / 2 ^ 32) by (apply Z.div_str_pos; lia). lia. }
      rewrite CAM_OS_FLS_log2; rewrite ?to_u32_to_s32, ?to_u32_small by lia; try lia.
      intros E0. apply (f_equal to_u32) in E0.
      rewrite to_u32_to_s32, to_u32_small in E0 by lia. change (to_u32 0) with 0 in E0. lia.
    + rewrite CAM_OS_FLS_log2; rewrite ?to_u32_to_s32, ?to_u32_small by lia; try lia.
      * rewrite <- Z.shiftr_div_pow2, Z.log2_shiftr by lia.
        assert (32 <= Z.log2 x).
        { apply Z.log2_le_pow2; [lia|].
          destruct (Z.lt_ge_cases x (2 ^ 32)); [|done].
          rewrite Z.div_small in N by lia. done. }
        lia.
      * intros E0. apply (f_equal to_u32) in E0.
        rewrite to_u32_to_s32, to_u32_small in E0 by lia. change (to_u32 0) with 0 in E0. lia.
  - destruct (Z.eqb_spec x 0); [lia|]. rewrite _CAM_OS_FLS_log2 by lia. lia.
Qed.

Lemma ilog2_chain_unfold n : ilog2_chain n = chain_from 63 n.
Proof. reflexivity. Qed.

Lemma bit_set_testbit n k : 0 <= k -> bit_set n k = Z.testbit n k.
Proof.
  intros Hk. unfold bit_set. rewrite Z.shiftl_1_l.
  destruct (Z.testbit n k) eqn:E.
  - apply negb_true_iff, Z.eqb_neq. intros H0.
    apply (f_equal (fun z => Z.testbit z k)) in H0.
    rewrite Z.land_spec, E, Z.pow2_bits_true, Z.bits_0 in H0 by done. done.
  - apply negb_false_iff, Z.eqb_eq. apply Z.bits_inj'. intros i Hi.
    rewrite Z.land_spec, Z.bits_0, Z.pow2_bits_eqb by done.
    destruct (Z.eqb_spec k i) as [<-|]; [rewrite E; done | apply andb_false_r].
Qed.

Lemma testbit_top n k :
  0 <= k -> 0 <= n < 2 ^ (k + 1) -> Z.testbit n k = (2 ^ k <=? n).
Proof.
  intros Hk Hn. assert (0 < 2 ^ k) by (apply Z.pow_pos_nonneg; lia).
  rewrite Z.pow_add_r in Hn by lia. change (2 ^ 1) with 2 in Hn.
  destruct (Z.leb_spec (2 ^ k) n).
  - apply Z.testbit_true; [done|].
    assert (n / 2 ^ k = 1) as ->; [|done].
    symmetry. apply Z.div_unique with (n - 2 ^ k); lia.
  - apply Z.testbit_false; [done|]. rewrite Z.div_small by lia. done.
Qed.

Lemma chain_from_log2 k n :
  0 < n < 2 ^ (Z.of_nat k + 1) -> chain_from k n = Z.log2 n.
Proof.
  induction k as [|k IH]; intros Hn.
  - simpl. assert (n = 1) as -> by (change (2 ^ (Z.of_nat 0 + 1)) with 2 in Hn; lia).
    reflexivity.
  - cbn [chain_from]. rewrite bit_set_testbit, testbit_top by lia.
    destruct (Z.leb_spec (2 ^ Z.of_nat (S k)) n).
    + symmetry. apply Z.log2_unique; [lia|].
      replace (Z.succ (Z.of_nat (S k))) with (Z.of_nat (S k) + 1) by lia. lia.
    + apply IH. replace (Z.of_nat k + 1) with (Z.of_nat (S k)) by lia. lia.
Qed.

Lemma ilog2_chain_log2 n : 0 < n < 2 ^ 64 -> ilog2_chain n = Z.log2 n.
Proof. intros Hn. rewrite ilog2_chain_unfold. apply chain_from_log2. exact Hn. Qed.

Lemma to_s32_nonzero u : 0 < u < 2 ^ 32 -> to_s32 u <> 0.
Proof.
  intros Hu E0. apply (f_equal to_u32) in E0.
  rewrite to_u32_to_s32, to_u32_small in E0 by lia. change (to_u32 0) with 0 in E0. lia.
Qed.

Lemma _CAM_OS_ILOG2_U32_log2 n : 0 < n < 2 ^ 32 -> _CAM_OS_ILOG2_U32 n = Z.log2 n.
Proof.
  intros Hn. unfold _CAM_OS_ILOG2_U32.
  rewrite CAM_OS_FLS_log2; rewrite ?to_u32_to_s32, ?to_u32_small by lia; try lia.
  apply to_s32_nonzero. done.
Qed.

Lemma CAM_OS_ILOG2_log2 cfg constant_p size n :
  0 < size <= 8 -> 1 <= n < 2 ^ (8 * size) ->
  CAM_OS_ILOG2 cfg constant_p size n = Z.log2 n.
Proof.
  intros Hs Hn.
  assert (2 ^ (8 * size) <= 2 ^ 64) by (apply Z.pow_le_mono_r; lia).
  unfold CAM_OS_ILOG2. destruct constant_p.
  - destruct (Z.ltb_spec n 1); [lia|].
    rewrite to_u64_small by lia. apply ilog2_chain_log2. lia.
  - destruct (Z.leb_spec size 4).
    + assert (2 ^ (8 * size) <= 2 ^ 32) by (apply Z.pow_le_mono_r; lia).
      rewrite to_u32_small by lia. apply _CAM_OS_ILOG2_U32_log2. lia.
    + rewrite to_u64_small by lia. unfold _CAM_OS_ILOG2_U64.
      rewrite CAM_OS_FLS64_log2 by lia. lia.
Qed.

(** C1.  For every [s32] input [x], [CAM_OS_FLS x] is 0 when [x] is 0;
    otherwise it is [1 + floor(log2 (x as u32))], the 1-based position of
    the most significant set bit of [x] read as an unsigned 32-bit value:
    that bit is set and no bit at or above the result is.  In particular
    the result is 32 whenever the sign bit is set. *)
Theorem CAM_OS_FLS_spec x :
  is_s32 x ->
  (x = 0 -> CAM_OS_FLS x = 0) /\
  (x <> 0 ->
     CAM_OS_FLS x = 1 + Z.log2 (to_u32 x) /\
     Z.testbit (to_u32 x) (CAM_OS_FLS x - 1) = true /\
     (forall i, CAM_OS_FLS x <= i -> Z.testbit (to_u32 x) i = false)) /\
  (x < 0 -> CAM_OS_FLS x = 32).
Proof.
  intros Hx.
  assert (x <> 0 -> 0 < to_u32 x) as Hpos.
  { intros Hne. pose proof (to_u32_range x).
    destruct (Z.eq_dec (to_u32 x) 0) as [E|]; [|lia].
    apply (f_equal to_s32) in E. rewrite to_s32_to_u32 in E by done.
    change (to_s32 0) with 0 in E. done. }
  split; [intros ->; reflexivity|]. split.
  - intros Hne. specialize (Hpos Hne).
    rewrite CAM_OS_FLS_log2 by lia.
    replace (1 + Z.log2 (to_u32 x) - 1) with (Z.log2 (to_u32 x)) by lia.
    split; [done|]. split; [apply Z.bit_log2; done|].
    intros i Hi. apply Z.bits_above_log2; lia.
  - intros Hneg. rewrite CAM_OS_FLS_log2 by lia.
    assert (Z.log2 (to_u32 x) = 31) as ->; [|done].
    apply Z.log2_unique; [lia|]. unfold is_s32 in Hx.
    unfold to_u32, to_unsigned. change (2 ^ Z.succ 31) with (2 ^ 32).
    change (2 ^ 31) with 2147483648 in *. change (2 ^ 32) with 4294967296.
    Z.div_mod_to_equations. lia.
Qed.

Lemma CAM_OS_FLS_spec_witness :
  is_s32 (-5) /\ CAM_OS_FLS 4096 = 1 + Z.log2 (to_u32 4096) /\ CAM_OS_FLS (-5) = 32.
Proof.
  assert (is_s32 4096) as H1 by (unfold is_s32; lia).
  assert (is_s32 (-5)) as H2 by (unfold is_s32; lia).
  split; [exact H2|]. split.
  - apply (proj1 (proj2 (CAM_OS_FLS_spec 4096 H1))). lia.
  - apply (proj2 (proj2 (CAM_OS_FLS_spec (-5) H2))). lia.
Defined.

(** C3.  For every operand of [size] bytes (at most 8) holding a value
    [n >= 1], [CAM_OS_ILOG2(n)] is [floor(log2 n)] in both configurations,
    whichever branch the compiler takes.  The constant-expression branch
    (the 64-way chain) and the runtime branch ([CAM_OS_FLS(n) - 1] for
    operands of up to 4 bytes, [CAM_OS_FLS64(n) - 1] otherwise) agree. *)
Theorem CAM_OS_ILOG2_spec cfg size n :
  0 < size <= 8 -> 1 <= n < 2 ^ (8 * size) ->
  (forall constant_p, CAM_OS_ILOG2 cfg constant_p size n = Z.log2 n) /\
  2 ^ Z.log2 n <= n < 2 ^ (Z.log2 n + 1) /\
  CAM_OS_ILOG2 cfg true size n = CAM_OS_ILOG2 cfg false size n /\
  CAM_OS_ILOG2 cfg true size n = ilog2_chain n /\
  CAM_OS_ILOG2 cfg false size n =
    (if size <=? 4 then CAM_OS_FLS (to_s32 n) - 1 else CAM_OS_FLS64 cfg n - 1).
Proof.
  intros Hs Hn.
  assert (2 ^ (8 * size) <= 2 ^ 64) by (apply Z.pow_le_mono_r; lia).
  split; [intros c; apply CAM_OS_ILOG2_log2; done|].
  split. { pose proof (Z.log2_spec n ltac:(lia)) as Hl.
           replace (Z.log2 n + 1) with (Z.succ (Z.log2 n)) by lia. exact Hl. }
  split; [rewrite !CAM_OS_ILOG2_log2 by done; done|].
  split.
  - unfold CAM_OS_ILOG2. destruct (Z.ltb_spec n 1); [lia|].
    rewrite to_u64_small by lia. done.
  - unfold CAM_OS_ILOG2, _CAM_OS_ILOG2_U32, _CAM_OS_ILOG2_U64.
    destruct (Z.leb_spec size 4).
    + assert (2 ^ (8 * size) <= 2 ^ 32) by (apply Z.pow_le_mono_r; lia).
      rewrite to_u32_small by lia. done.
    + rewrite to_u64_small by lia. done.
Qed.

Lemma CAM_OS_ILOG2_spec_witness :
  CAM_OS_ILOG2 Long32 true 4 1000 = 9 /\
  CAM_OS_ILOG2 Long32 false 4 1000 = 9 /\
  CAM_OS_ILOG2 Long64 false 8 (2 ^ 40 + 1) = 40.
Proof.
  assert (0 < 4 <= 8) as S4 by lia. assert (0 < 8 <= 8) as S8 by lia.
  assert (1 <= 1000 < 2 ^ (8 * 4)) as N1 by (simpl; lia).
  assert (1 <= 2 ^ 40 + 1 < 2 ^ (8 * 8)) as N2 by (simpl; lia).
  split; [exact (proj1 (CAM_OS_ILOG2_spec Long32 4 1000 S4 N1) true)|].
  split; [exact (proj1 (CAM_OS_ILOG2_spec Long32 4 1000 S4 N1) false)|].
  exact (proj1 (CAM_OS_ILOG2_spec Long64 8 (2 ^ 40 + 1) S8 N2) false).
Defined.


Lemma trailing_zeros_pos_nonneg p : 0 <= trailing_zeros_pos p.
Proof. induction p; simpl; lia. Qed.

Lemma trailing_zeros_pos_spec p :
  Z.testbit (Zpos p) (trailing_zeros_pos p) = true /\
  forall i, 0 <= i < trailing_zeros_pos p -> Z.testbit (Zpos p) i = false.
Proof.
  induction p as [p IH|p IH|]; cbn [trailing_zeros_pos].
  - split; [done|lia].
  - pose proof (trailing_zeros_pos_nonneg p). destruct IH as [IH1 IH2].
    change (Zpos p~0) with (2 * Zpos p). split.
    + replace (1 + trailing_zeros_pos p) with (Z.succ (trailing_zeros_pos p)) by lia.
      rewrite Z.testbit_even_succ by done. done.
    + intros i Hi. destruct (Z.eq_dec i 0) as [->|]; [apply Z.testbit_even_0|].
      replace i with (Z.succ (i - 1)) by lia.
      rewrite Z.testbit_even_succ by lia. apply IH2. lia.
  - split; [done|lia].
Qed.

Lemma land_opp_odd y : Z.land (2 * y + 1) (- (2 * y + 1)) = 1.
Proof.
  apply Z.bits_inj'. intros i Hi. rewrite Z.land_spec, Z.bits_opp by done.
  replace (Z.pred (2 * y + 1)) with (2 * y) by lia.
  destruct (Z.eq_dec i 0) as [->|].
  - rewrite Z.testbit_odd_0, Z.testbit_even_0. done.
  - replace i with (Z.succ (i - 1)) by lia.
    rewrite Z.testbit_odd_succ, Z.testbit_even_succ by lia.
    replace (Z.succ (i - 1)) with i by lia.
    rewrite (Z.bits_above_log2 1 i) by (simpl; lia).
    apply andb_negb_r.
Qed.

Lemma land_double a b : Z.land (2 * a) (2 * b) = 2 * Z.land a b.
Proof.
  apply Z.bits_inj. intros i.
  rewrite Z.land_spec, !Z.double_bits, Z.land_spec. done.
Qed.

Lemma land_opp_pos p : Z.land (Zpos p) (- Zpos p) = 2 ^ trailing_zeros_pos p.
Proof.
  induction p as [p IH|p IH|]; cbn [trailing_zeros_pos].
  - change (Zpos p~1) with (2 * Zpos p + 1). apply land_opp_odd.
  - pose proof (trailing_zeros_pos_nonneg p).
    rewrite Z.pow_add_r, <- IH by lia. change (2 ^ 1) with 2.
    change (Zpos p~0) with (2 * Zpos p).
    replace (- (2 * Zpos p)) with (2 * - Zpos p) by lia.
    apply land_double.
  - reflexivity.
Qed.

Lemma trailing_zeros_pos_bound p w :
  Zpos p < 2 ^ w -> trailing_zeros_pos p < w.
Proof.
  intros Hp. destruct (Z.lt_ge_cases (trailing_zeros_pos p) w) as [|Hge]; [done|].
  destruct (trailing_zeros_pos_spec p) as [Hb _].
  assert (0 <= w).
  { destruct (Z.lt_ge_cases w 0); [|done]. rewrite Z.pow_neg_r in Hp; lia. }
  rewrite (testbit_above_pow2 w) in Hb; [done|lia|lia].
Qed.

(** [x & -x] in an unsigned type of [w] bits isolates the lowest set bit. *)
Lemma land_neg_unsigned w x :
  0 < x < 2 ^ w ->
  Z.land x (to_unsigned w (- x)) = 2 ^ trailing_zeros x /\
  0 <= trailing_zeros x < w.
Proof.
  intros Hx. destruct x as [|p|p]; [lia| |lia].
  assert (0 <= w).
  { destruct (Z.lt_ge_cases w 0); [|done]. rewrite Z.pow_neg_r in Hx; lia. }
  pose proof (trailing_zeros_pos_nonneg p).
  pose proof (trailing_zeros_pos_bound p w ltac:(lia)).
  split; [|simpl; lia].
  unfold to_unsigned. rewrite <- Z.land_ones by done.
  rewrite Z.land_assoc, land_opp_pos, Z.land_ones by done.
  simpl. apply Z.mod_small. split; [apply Z.pow_nonneg; lia|].
  apply Z.pow_lt_mono_r; lia.
Qed.

Lemma CAM_OS_FLS_pow2 t :
  0 <= t < 32 -> CAM_OS_FLS (to_s32 (2 ^ t)) = 1 + t.
Proof.
  intros Ht.
  assert (0 < 2 ^ t < 2 ^ 32).
  { split; [apply Z.pow_pos_nonneg; lia | apply Z.pow_lt_mono_r; lia]. }
  rewrite CAM_OS_FLS_log2; rewrite ?to_u32_to_s32, ?to_u32_small by lia.
  - rewrite Z.log2_pow2 by lia. done.
  - lia.
  - apply to_s32_nonzero. done.
Qed.

Lemma to_s32_pow2_high t : 32 <= t -> to_s32 (2 ^ t) = 0.
Proof.
  intros Ht. unfold to_s32, to_signed.
  replace t with (32 + (t - 32)) by lia. rewrite Z.pow_add_r by lia.
  assert (0 <= 2 ^ (t - 32)) by (apply Z.pow_nonneg; lia).
  change (2 ^ (32 - 1)) with 2147483648. change (2 ^ 32) with 4294967296.
  rewrite Z.add_comm, Z.mul_comm, Z.mod_add by lia. reflexivity.
Qed.

(** In the 32-bit configuration [CAM_OS_FFS] is the [ffs] primitive. *)
Lemma CAM_OS_FFS_Long32 x :
  is_ulong Long32 x ->
  CAM_OS_FFS Long32 x = if x =? 0 then 0 else 1 + trailing_zeros x.
Proof.
  unfold is_ulong. cbn [CAM_OS_BITS_PER_LONG]. intros Hx. unfold CAM_OS_FFS, to_ulong.
  destruct (Z.eqb_spec x 0) as [->|Hne]; [reflexivity|].
  cbn [CAM_OS_BITS_PER_LONG].
  destruct (land_neg_unsigned 32 x ltac:(lia)) as [-> Ht].
  apply CAM_OS_FLS_pow2. done.
Qed.

(** In the 64-bit configuration the isolated bit is truncated to [s32]:
    a lowest set bit at index 32 or above is lost. *)
Lemma CAM_OS_FFS_Long64 x :
  is_ulong Long64 x ->
  CAM_OS_FFS Long64 x =
    if x =? 0 then 0
    else if trailing_zeros x <? 32 then 1 + trailing_zeros x else 0.
Proof.
  unfold is_ulong. cbn [CAM_OS_BITS_PER_LONG]. intros Hx. unfold CAM_OS_FFS, to_ulong.
  destruct (Z.eqb_spec x 0) as [->|Hne]; [reflexivity|].
  cbn [CAM_OS_BITS_PER_LONG].
  destruct (land_neg_unsigned 64 x ltac:(lia)) as [-> Ht].
  destruct (Z.ltb_spec (trailing_zeros x) 32).
  - apply CAM_OS_FLS_pow2. lia.
  - rewrite to_s32_pow2_high by done. reflexivity.
Qed.

Lemma trailing_zeros_spec x :
  0 < x ->
  0 <= trailing_zeros x /\ Z.testbit x (trailing_zeros x) = true /\
  forall i, 0 <= i < trailing_zeros x -> Z.testbit x i = false.
Proof.
  intros Hx. destruct x as [|p|p]; [lia| |lia]. cbn [trailing_zeros].
  split; [apply trailing_zeros_pos_nonneg | apply trailing_zeros_pos_spec].
Qed.

(** In the 32-bit configuration [CAM_OS_FFZ] finds the lowest clear bit. *)
Lemma CAM_OS_FFZ_Long32 x :
  is_ulong Long32 x -> x <> 2 ^ 32 - 1 ->
  0 <= CAM_OS_FFZ Long32 x < 32 /\
  Z.testbit x (CAM_OS_FFZ Long32 x) = false /\
  forall i, 0 <= i < CAM_OS_FFZ Long32 x -> Z.testbit x i = true.
Proof.
  unfold is_ulong. cbn [CAM_OS_BITS_PER_LONG]. intros Hx Hne.
  unfold CAM_OS_FFZ, _CAM_OS_FFS.
  set (y := to_ulong Long32 (Z.lnot x)).
  assert (y = 2 ^ 32 - 1 - x) as Hy.
  { unfold y, to_ulong, to_unsigned. cbn [CAM_OS_BITS_PER_LONG].
    unfold Z.lnot. rewrite <- Z.sub_1_r.
    replace (- x - 1) with (2 ^ 32 - 1 - x + -1 * 2 ^ 32) by lia.
    rewrite Z.mod_add by lia. apply Z.mod_small. lia. }
  assert (0 < y < 2 ^ 32) as Hyr by lia.
  rewrite CAM_OS_FFS_Long32 by (unfold is_ulong; cbn [CAM_OS_BITS_PER_LONG]; lia).
  destruct (Z.eqb_spec y 0); [lia|].
  destruct (land_neg_unsigned 32 y Hyr) as [_ Ht].
  replace (1 + trailing_zeros y - 1) with (trailing_zeros y) by lia.
  unfold to_ulong, to_unsigned. cbn [CAM_OS_BITS_PER_LONG].
  rewrite Z.mod_small by lia.
  destruct (trailing_zeros_spec y ltac:(lia)) as (_ & Hb & Hl).
  assert (forall i, 0 <= i < 32 -> Z.testbit y i = negb (Z.testbit x i)) as Hbits.
  { intros i Hi. unfold y, to_ulong, to_unsigned. cbn [CAM_OS_BITS_PER_LONG].
    rewrite Z.mod_pow2_bits_low, Z.lnot_spec by lia. done. }
  split; [done|]. split.
  - rewrite Hbits in Hb by lia. apply negb_true_iff. done.
  - intros i Hi. specialize (Hl i Hi). rewrite Hbits in Hl by lia.
    apply negb_false_iff. done.
Qed.

(** C2.  With [CAM_OS_BITS_PER_LONG = 64] the word [2^32] is a legal
    [unsigned long] whose only set bit has index 32, so [ffs] is 33; but
    [CAM_OS_FFS] hands [x & -x] to the [s32] parameter of [CAM_OS_FLS],
    which keeps the low 32 bits, and returns 0.  Likewise [CAM_OS_FFZ] of
    [0xffffffff], whose lowest clear bit is bit 32, is [ULONG_MAX]. *)
Theorem CAM_OS_FFS_Long64_truncates :
  is_ulong Long64 (2 ^ 32) /\
  Z.testbit (2 ^ 32) 32 = true /\ trailing_zeros (2 ^ 32) = 32 /\
  CAM_OS_FFS Long64 (2 ^ 32) = 0 /\
  CAM_OS_FFS Long32 (2 ^ 31) = 32 /\
  Z.testbit (2 ^ 32 - 1) 32 = false /\
  CAM_OS_FFZ Long64 (2 ^ 32 - 1) = 2 ^ 64 - 1.
Proof.
  unfold is_ulong. cbn [CAM_OS_BITS_PER_LONG].
  repeat split; try lia; vm_compute; congruence.
Qed.

(** *** ioctl numbers *)

Lemma field_bit_out w x j :
  0 <= x < 2 ^ w -> j < 0 \/ w <= j -> Z.testbit x j = false.
Proof.
  intros Hx [Hj|Hj]; [apply Z.testbit_neg_r; done|].
  apply (testbit_above_pow2 w); done.
Qed.

Lemma shl_u32_small x k w :
  0 <= x < 2 ^ w -> 0 <= k -> 0 <= w -> k + w <= 32 -> shl_u32 x k = Z.shiftl x k.
Proof.
  intros Hx Hk Hw Hkw. unfold shl_u32. apply to_u32_small.
  rewrite Z.shiftl_mul_pow2 by done.
  assert (0 < 2 ^ k) by (apply Z.pow_pos_nonneg; lia).
  split; [nia|].
  apply Z.lt_le_trans with (2 ^ w * 2 ^ k); [nia|].
  rewrite <- Z.pow_add_r by lia. apply Z.pow_le_mono_r; lia.
Qed.

Lemma CAM_OS_IOC_bits dir type nr size i :
  0 <= dir < 2 ^ 2 -> 0 <= type < 2 ^ 8 -> 0 <= nr < 2 ^ 8 -> 0 <= size < 2 ^ 14 ->
  0 <= i ->
  Z.testbit (CAM_OS_IOC dir type nr size) i =
    if i <? 8 then Z.testbit nr i
    else if i <? 16 then Z.testbit type (i - 8)
    else if i <? 30 then Z.testbit size (i - 16)
    else Z.testbit dir (i - 30).
Proof.
  intros Hd Ht Hn Hs Hi. unfold CAM_OS_IOC.
  change CAM_OS_IOC_DIRSHIFT with 30. change CAM_OS_IOC_TYPESHIFT with 8.
  change CAM_OS_IOC_NRSHIFT with 0. change CAM_OS_IOC_SIZESHIFT with 16.
  rewrite (shl_u32_small dir 30 2), (shl_u32_small type 8 8),
    (shl_u32_small nr 0 8), (shl_u32_small size 16 14) by lia.
  rewrite !Z.lor_spec, !Z.shiftl_spec by done. rewrite Z.sub_0_r.
  destruct (Z.ltb_spec i 8); [|destruct (Z.ltb_spec i 16); [|destruct (Z.ltb_spec i 30)]].
  - rewrite (field_bit_out 2 dir), (field_bit_out 8 type), (field_bit_out 14 size) by lia.
    cbn [orb]. apply orb_false_r.
  - rewrite (field_bit_out 2 dir), (field_bit_out 8 nr), (field_bit_out 14 size) by lia.
    cbn [orb]. rewrite !orb_false_r. done.
  - rewrite (field_bit_out 2 dir), (field_bit_out 8 nr), (field_bit_out 8 type) by lia.
    cbn [orb]. rewrite ?orb_false_r. done.
  - rewrite (field_bit_out 14 size), (field_bit_out 8 nr), (field_bit_out 8 type) by lia.
    cbn [orb]. rewrite ?orb_false_r. done.
Qed.

Lemma field_extract v x k w :
  0 <= k -> 0 <= w -> 0 <= x < 2 ^ w ->
  (forall i, k <= i < k + w -> Z.testbit v i = Z.testbit x (i - k)) ->
  Z.land (Z.shiftr v k) (Z.shiftl 1 w - 1) = x.
Proof.
  intros Hk Hw Hx Hbits.
  replace (Z.shiftl 1 w - 1) with (Z.ones w) by (rewrite Z.ones_equiv, Z.shiftl_1_l; lia).
  apply Z.bits_inj'. intros i Hi. rewrite Z.land_spec, Z.shiftr_spec by done.
  destruct (Z.lt_ge_cases i w).
  - rewrite Z.ones_spec_low, andb_true_r by lia. rewrite Hbits by lia.
    f_equal. lia.
  - rewrite Z.ones_spec_high, andb_false_r by lia.
    symmetry. apply (field_bit_out w); [done|lia].
Qed.

(** C5.  For every [dir < 2^2], [type < 2^8], [nr < 2^8] and [size < 2^14]
    the decode macros recover the fields that [CAM_OS_IOC] encoded. *)
Theorem CAM_OS_IOC_roundtrip dir type nr size :
  0 <= dir < 2 ^ 2 -> 0 <= type < 2 ^ 8 -> 0 <= nr < 2 ^ 8 -> 0 <= size < 2 ^ 14 ->
  CAM_OS_IOC_DIR (CAM_OS_IOC dir type nr size) = dir /\
  CAM_OS_IOC_TYPE (CAM_OS_IOC dir type nr size) = type /\
  CAM_OS_IOC_NR (CAM_OS_IOC dir type nr size) = nr /\
  CAM_OS_IOC_SIZE (CAM_OS_IOC dir type nr size) = size.
Proof.
  intros Hd Ht Hn Hs.
  unfold CAM_OS_IOC_DIR, CAM_OS_IOC_TYPE, CAM_OS_IOC_NR, CAM_OS_IOC_SIZE.
  unfold CAM_OS_IOC_DIRMASK, CAM_OS_IOC_TYPEMASK, CAM_OS_IOC_NRMASK, CAM_OS_IOC_SIZEMASK.
  change CAM_OS_IOC_DIRSHIFT with 30. change CAM_OS_IOC_TYPESHIFT with 8.
  change CAM_OS_IOC_NRSHIFT with 0. change CAM_OS_IOC_SIZESHIFT with 16.
  change CAM_OS_IOC_DIRBITS with 2. change CAM_OS_IOC_TYPEBITS with 8.
  change CAM_OS_IOC_NRBITS with 8. change CAM_OS_IOC_SIZEBITS with 14.
  repeat split; apply field_extract; try lia; intros i Hi;
    rewrite CAM_OS_IOC_bits by lia.
  - destruct (Z.ltb_spec i 8), (Z.ltb_spec i 16), (Z.ltb_spec i 30); try lia; done.
  - destruct (Z.ltb_spec i 8), (Z.ltb_spec i 16), (Z.ltb_spec i 30); try lia; done.
  - destruct (Z.ltb_spec i 8), (Z.ltb_spec i 16), (Z.ltb_spec i 30); try lia.
    f_equal. lia.
  - destruct (Z.ltb_spec i 8), (Z.ltb_spec i 16), (Z.ltb_spec i 30); try lia; done.
Qed.

Lemma CAM_OS_IOC_roundtrip_witness :
  CAM_OS_IOC_DIR (CAM_OS_IOC 3 70 21 1000) = 3 /\
  CAM_OS_IOC_TYPE (CAM_OS_IOC 3 70 21 1000) = 70 /\
  CAM_OS_IOC_NR (CAM_OS_IOC 3 70 21 1000) = 21 /\
  CAM_OS_IOC_SIZE (CAM_OS_IOC 3 70 21 1000) = 1000.
Proof. apply (CAM_OS_IOC_roundtrip 3 70 21 1000); simpl; lia. Defined.


(** *** Bitmaps *)

Lemma BPL_pos cfg : 0 < CAM_OS_BITS_PER_LONG cfg.
Proof. destruct cfg; done. Qed.

Lemma BPL_ones cfg :
  exists k, 0 <= k /\ CAM_OS_BITS_PER_LONG cfg = 2 ^ k /\
            CAM_OS_BITS_PER_LONG cfg - 1 = Z.ones k.
Proof. destruct cfg; [exists 5 | exists 6]; done. Qed.

Lemma CAM_OS_BIT_WORD_nonneg cfg nr :
  0 <= nr -> CAM_OS_BIT_WORD cfg nr = nr / CAM_OS_BITS_PER_LONG cfg.
Proof.
  intros Hn. unfold CAM_OS_BIT_WORD. pose proof (BPL_pos cfg).
  apply Z.quot_div_nonneg; lia.
Qed.

Lemma CAM_OS_BIT_MASK_nonneg cfg nr :
  0 <= nr ->
  CAM_OS_BIT_MASK cfg nr = Some (2 ^ (nr mod CAM_OS_BITS_PER_LONG cfg)).
Proof.
  intros Hn. unfold CAM_OS_BIT_MASK. pose proof (BPL_pos cfg) as HW.
  rewrite Z.rem_mod_nonneg by lia.
  pose proof (Z.mod_pos_bound nr _ HW) as Hm.
  unfold shift_count_ok.
  destruct (Z.leb_spec 0 (nr mod CAM_OS_BITS_PER_LONG cfg)); [|lia].
  destruct (Z.ltb_spec (nr mod CAM_OS_BITS_PER_LONG cfg) (CAM_OS_BITS_PER_LONG cfg)); [|lia].
  cbn [andb]. f_equal. rewrite Z.shiftl_1_l.
  unfold to_ulong, to_unsigned. apply Z.mod_small.
  split; [apply Z.pow_nonneg; lia | apply Z.pow_lt_mono_r; lia].
Qed.

Lemma load_word_Some addr i w :
  load_word addr i = Some w <-> 0 <= i /\ addr !! Z.to_nat i = Some w.
Proof.
  unfold load_word. destruct (Z.leb_spec 0 i); split; try done; try tauto.
  intros [? _]. lia.
Qed.

Lemma bitmap_word_in_range cfg bits (addr : bitmap) nr :
  Z.of_nat (length addr) = CAM_OS_BITS_TO_LONGS cfg bits ->
  0 <= nr < bits ->
  exists w, load_word addr (nr / CAM_OS_BITS_PER_LONG cfg) = Some w.
Proof.
  intros Hlen Hnr. pose proof (BPL_pos cfg) as HW.
  assert (0 <= nr / CAM_OS_BITS_PER_LONG cfg) as Hq by (apply Z.div_pos; lia).
  assert (nr / CAM_OS_BITS_PER_LONG cfg < CAM_OS_BITS_TO_LONGS cfg bits) as Hlt.
  { unfold CAM_OS_BITS_TO_LONGS, CAM_OS_DIV_ROUND_UP.
    rewrite Z.quot_div_nonneg by lia.
    apply Z.lt_le_trans with ((nr + CAM_OS_BITS_PER_LONG cfg) / CAM_OS_BITS_PER_LONG cfg).
    - replace (nr + CAM_OS_BITS_PER_LONG cfg) with (nr + 1 * CAM_OS_BITS_PER_LONG cfg) by lia.
      rewrite Z.div_add by lia. lia.
    - apply Z.div_le_mono; lia. }
  destruct (lookup_lt_is_Some_2 addr (Z.to_nat (nr / CAM_OS_BITS_PER_LONG cfg))) as [w Hw];
    [lia|].
  exists w. apply load_word_Some. done.
Qed.

Lemma bitmap_wf_lookup cfg (addr : bitmap) i w :
  bitmap_wf cfg addr -> load_word addr i = Some w -> is_ulong cfg w.
Proof.
  intros Hwf [_ Hw]%load_word_Some.
  unfold bitmap_wf in Hwf. rewrite Forall_lookup in Hwf. eauto.
Qed.

Lemma bitmap_wf_insert cfg (addr : bitmap) i w :
  bitmap_wf cfg addr -> is_ulong cfg w -> bitmap_wf cfg (<[i := w]> addr).
Proof. intros Hwf Hw. apply Forall_insert; done. Qed.

(** Replacing the word of bit [nr] by one that differs from it at most in
    that bit changes no other bit of the bitmap. *)
Lemma bitmap_bit_store cfg (addr : bitmap) nr w w' b :
  0 <= nr ->
  load_word addr (nr / CAM_OS_BITS_PER_LONG cfg) = Some w ->
  (forall j, 0 <= j < CAM_OS_BITS_PER_LONG cfg ->
     Z.testbit w' j = if j =? nr mod CAM_OS_BITS_PER_LONG cfg then b else Z.testbit w j) ->
  forall m, 0 <= m ->
    bitmap_bit cfg (<[Z.to_nat (nr / CAM_OS_BITS_PER_LONG cfg) := w']> addr) m =
      if m =? nr then Some b else bitmap_bit cfg addr m.
Proof.
  intros Hnr [Hq Hw]%load_word_Some Hbits m Hm. pose proof (BPL_pos cfg) as HW.
  set (W := CAM_OS_BITS_PER_LONG cfg) in *.
  pose proof (Z.mod_pos_bound m W HW) as Hmm.
  assert (0 <= m / W) as Hmq by (apply Z.div_pos; lia).
  unfold bitmap_bit. fold W. unfold load_word.
  destruct (Z.leb_spec 0 (m / W)); [|lia].
  destruct (Z.eq_dec (m / W) (nr / W)) as [Eq|Nq].
  - rewrite Eq, list_lookup_insert_eq by (apply lookup_lt_is_Some_1; eauto).
    rewrite Hw. cbn [mbind option_bind]. rewrite Hbits by done.
    destruct (Z.eqb_spec (m mod W) (nr mod W)) as [Em|Nm].
    + assert (m = nr) as ->.
      { rewrite (Z.div_mod m W), (Z.div_mod nr W) by lia. congruence. }
      rewrite Z.eqb_refl. done.
    + destruct (Z.eqb_spec m nr) as [->|]; done.
  - rewrite list_lookup_insert_ne by lia.
    destruct (Z.eqb_spec m nr) as [->|]; done.
Qed.

Lemma lor_pow2_bits w k j :
  0 <= k -> 0 <= j ->
  Z.testbit (Z.lor w (2 ^ k)) j = if j =? k then true else Z.testbit w j.
Proof.
  intros Hk Hj. rewrite Z.lor_spec, Z.pow2_bits_eqb by done.
  rewrite (Z.eqb_sym k j). destruct (j =? k); [apply orb_true_r | apply orb_false_r].
Qed.

Lemma land_lnot_unsigned W w m :
  0 <= W -> 0 <= w < 2 ^ W ->
  Z.land w (to_unsigned W (Z.lnot m)) = Z.ldiff w m.
Proof.
  intros HW Hw. unfold to_unsigned. rewrite <- Z.land_ones by done.
  rewrite (Z.land_comm (Z.lnot m)), Z.land_assoc, Z.land_ones by done.
  rewrite Z.mod_small by done. symmetry. apply Z.ldiff_land.
Qed.

Lemma ldiff_pow2_bits w k j :
  0 <= k -> 0 <= j ->
  Z.testbit (Z.ldiff w (2 ^ k)) j = if j =? k then false else Z.testbit w j.
Proof.
  intros Hk Hj. rewrite Z.ldiff_spec, Z.pow2_bits_eqb by done.
  rewrite (Z.eqb_sym k j). destruct (j =? k); [apply andb_false_r | apply andb_true_r].
Qed.

Lemma land_pow2_test w k :
  0 <= k -> negb (Z.land w (2 ^ k) =? 0) = Z.testbit w k.
Proof. intros Hk. rewrite <- Z.shiftl_1_l. apply (bit_set_testbit w k Hk). Qed.

Lemma lor_pow2_range W w k :
  0 <= k < W -> 0 <= w < 2 ^ W -> 0 <= Z.lor w (2 ^ k) < 2 ^ W.
Proof.
  intros Hk Hw. assert (0 <= Z.lor w (2 ^ k)).
  { apply Z.lor_nonneg. split; [lia | apply Z.pow_nonneg; lia]. }
  split; [done|].
  destruct (Z.eq_dec (Z.lor w (2 ^ k)) 0) as [->|]; [lia|].
  apply Z.log2_lt_pow2; [lia|]. rewrite Z.log2_lor by (try apply Z.pow_nonneg; lia).
  rewrite Z.log2_pow2 by lia.
  destruct (Z.eq_dec w 0) as [->|]; [simpl; lia|].
  assert (Z.log2 w < W) by (apply Z.log2_lt_pow2; lia). lia.
Qed.

Lemma bits_below_range W a :
  0 <= W -> 0 <= a -> (forall j, W <= j -> Z.testbit a j = false) -> a < 2 ^ W.
Proof.
  intros HW Ha Hbits. assert (0 < 2 ^ W) by (apply Z.pow_pos_nonneg; lia).
  destruct (Z.eq_dec a 0) as [->|]; [done|].
  apply Z.log2_lt_pow2; [lia|].
  destruct (Z.lt_ge_cases (Z.log2 a) W) as [|Hge]; [done|].
  pose proof (Z.bit_log2 a ltac:(lia)) as Hb. rewrite Hbits in Hb by lia. done.
Qed.

Lemma ldiff_range W w m :
  0 <= W -> 0 <= w < 2 ^ W -> 0 <= Z.ldiff w m < 2 ^ W.
Proof.
  intros HW Hw. assert (0 <= Z.ldiff w m) by (apply Z.ldiff_nonneg; lia).
  split; [done|]. apply bits_below_range; [done..|].
  intros j Hj. rewrite Z.ldiff_spec, (field_bit_out W w j) by lia. done.
Qed.

(** [CAM_OS_TEST_BIT] reads the bit that [bitmap_bit] names. *)
Lemma CAM_OS_TEST_BIT_bitmap_bit cfg addr m :
  0 <= m ->
  CAM_OS_TEST_BIT cfg m addr = Z.b2z <$> bitmap_bit cfg addr m.
Proof.
  intros Hm. unfold CAM_OS_TEST_BIT, bitmap_bit.
  rewrite CAM_OS_BIT_WORD_nonneg by done.
  destruct (load_word addr (m / CAM_OS_BITS_PER_LONG cfg)) as [w|]; [|done].
  cbn [mbind option_bind fmap option_fmap option_map]. f_equal.
  destruct (BPL_ones cfg) as (k & Hk & EW & ->). rewrite EW.
  rewrite Z.land_ones by done.
  rewrite Z.land_comm. change 1 with (Z.ones 1) at 1. rewrite Z.land_ones by lia.
  change (2 ^ 1) with 2. rewrite <- Z.bit0_mod, Z.shiftr_spec by lia.
  reflexivity.
Qed.

Lemma test_and_modify_store cfg (addr : bitmap) nr w w' b :
  0 <= nr -> bitmap_wf cfg addr ->
  load_word addr (nr / CAM_OS_BITS_PER_LONG cfg) = Some w ->
  is_ulong cfg w' ->
  (forall j, 0 <= j < CAM_OS_BITS_PER_LONG cfg ->
     Z.testbit w' j = if j =? nr mod CAM_OS_BITS_PER_LONG cfg then b else Z.testbit w j) ->
  test_and_modify_post cfg addr nr (Z.testbit w (nr mod CAM_OS_BITS_PER_LONG cfg)) b
    (Some (if Z.testbit w (nr mod CAM_OS_BITS_PER_LONG cfg) then 1 else 0,
           <[Z.to_nat (nr / CAM_OS_BITS_PER_LONG cfg) := w']> addr)).
Proof.
  intros Hnr Hwf Hw Hw' Hbits.
  pose proof (bitmap_bit_store cfg addr nr w w' b Hnr Hw Hbits) as Hst.
  eexists _, _. split; [reflexivity|]. split.
  { destruct (Z.testbit w _); split; try done. }
  split. { rewrite Hst by done. rewrite Z.eqb_refl. done. }
  split. { intros m Hm Hne. rewrite Hst by done. destruct (Z.eqb_spec m nr); done. }
  split.
  { intros m Hm. rewrite !CAM_OS_TEST_BIT_bitmap_bit, Hst by done.
    destruct (m =? nr); done. }
  split; [apply bitmap_wf_insert; done | apply length_insert].
Qed.

(** C8.  For a bitmap declared with [bits] bits and an index
    [0 <= nr < bits], [CAM_OS_TEST_AND_SET_BIT] returns nonzero exactly
    when bit [nr] was set before the call and leaves it set,
    [CAM_OS_TEST_AND_CLEAR_BIT] returns nonzero exactly when it was set and
    leaves it clear; every other bit of the bitmap is unchanged and a later
    [CAM_OS_TEST_BIT] agrees at every position. *)
Theorem CAM_OS_TEST_AND_SET_CLEAR_BIT_spec cfg bits (addr : bitmap) nr :
  bitmap_wf cfg addr ->
  Z.of_nat (length addr) = CAM_OS_BITS_TO_LONGS cfg bits ->
  0 <= nr < bits ->
  exists old,
    bitmap_bit cfg addr nr = Some old /\
    CAM_OS_TEST_BIT cfg nr addr = Some (Z.b2z old) /\
    test_and_modify_post cfg addr nr old true (CAM_OS_TEST_AND_SET_BIT cfg nr addr) /\
    test_and_modify_post cfg addr nr old false (CAM_OS_TEST_AND_CLEAR_BIT cfg nr addr).
Proof.
  intros Hwf Hlen Hnr. pose proof (BPL_pos cfg) as HW.
  destruct (bitmap_word_in_range cfg bits addr nr Hlen Hnr) as [w Hw].
  pose proof (bitmap_wf_lookup cfg addr _ w Hwf Hw) as Hr. unfold is_ulong in Hr.
  pose proof (Z.mod_pos_bound nr _ HW) as Hk.
  exists (Z.testbit w (nr mod CAM_OS_BITS_PER_LONG cfg)).
  assert (bitmap_bit cfg addr nr = Some (Z.testbit w (nr mod CAM_OS_BITS_PER_LONG cfg))) as Hb.
  { unfold bitmap_bit. rewrite Hw. done. }
  split; [done|]. split.
  { rewrite CAM_OS_TEST_BIT_bitmap_bit, Hb by lia. done. }
  split.
  - unfold CAM_OS_TEST_AND_SET_BIT, store_word.
    rewrite CAM_OS_BIT_MASK_nonneg, CAM_OS_BIT_WORD_nonneg by lia.
    cbn [mbind option_bind]. rewrite Hw. cbn [mbind option_bind].
    rewrite land_pow2_test by lia.
    apply test_and_modify_store; [lia|done|done|..].
    + apply lor_pow2_range; lia.
    + intros j Hj. apply lor_pow2_bits; lia.
  - unfold CAM_OS_TEST_AND_CLEAR_BIT, store_word.
    rewrite CAM_OS_BIT_MASK_nonneg, CAM_OS_BIT_WORD_nonneg by lia.
    cbn [mbind option_bind]. rewrite Hw. cbn [mbind option_bind].
    rewrite land_pow2_test by lia.
    unfold to_ulong. rewrite land_lnot_unsigned by lia.
    apply test_and_modify_store; [lia|done|done|..].
    + apply ldiff_range; lia.
    + intros j Hj. apply ldiff_pow2_bits; lia.
Qed.

Lemma CAM_OS_TEST_AND_SET_CLEAR_BIT_spec_witness :
  exists old,
    bitmap_bit Long32 [5; 2] 33 = Some old /\
    CAM_OS_TEST_BIT Long32 33 [5; 2] = Some (Z.b2z old) /\
    test_and_modify_post Long32 [5; 2] 33 old true
      (CAM_OS_TEST_AND_SET_BIT Long32 33 [5; 2]) /\
    test_and_modify_post Long32 [5; 2] 33 old false
      (CAM_OS_TEST_AND_CLEAR_BIT Long32 33 [5; 2]).
Proof.
  apply (CAM_OS_TEST_AND_SET_CLEAR_BIT_spec Long32 40 [5; 2] 33).
  - unfold bitmap_wf, is_ulong. repeat constructor; simpl; lia.
  - reflexivity.
  - lia.
Defined.


(** *** Hash mixing *)

Lemma shiftr_top_bits w h bits :
  0 <= bits <= w -> 0 <= h < 2 ^ w -> 0 <= Z.shiftr h (w - bits) < 2 ^ bits.
Proof.
  intros Hb Hh. rewrite Z.shiftr_div_pow2 by lia.
  assert (0 < 2 ^ (w - bits)) by (apply Z.pow_pos_nonneg; lia).
  split; [apply Z.div_pos; lia|].
  apply Z.div_lt_upper_bound; [done|].
  rewrite <- Z.pow_add_r by lia. replace (w - bits + bits) with w by lia. lia.
Qed.

Lemma CAM_OS_HASH_32_value val bits :
  1 <= bits <= 32 ->
  CAM_OS_HASH_32 val bits =
    Some (Z.shiftr ((val * 0x9e370001) mod 2 ^ 32) (32 - bits)).
Proof.
  intros Hb. unfold CAM_OS_HASH_32. rewrite (to_u32_small (32 - bits)) by lia.
  unfold shift_count_ok.
  destruct (Z.leb_spec 0 (32 - bits)); [|lia].
  destruct (Z.ltb_spec (32 - bits) 32); [|lia]. reflexivity.
Qed.

Lemma CAM_OS_HASH_64_value val bits :
  1 <= bits <= 64 ->
  CAM_OS_HASH_64 val bits =
    Some (Z.shiftr ((val * 0x9e37fffffffc0001) mod 2 ^ 64) (64 - bits)).
Proof.
  intros Hb. unfold CAM_OS_HASH_64. rewrite (to_u32_small (64 - bits)) by lia.
  unfold shift_count_ok.
  destruct (Z.leb_spec 0 (64 - bits)); [|lia].
  destruct (Z.ltb_spec (64 - bits) 64); [|lia]. reflexivity.
Qed.

Lemma CAM_OS_HASH_MIN_bound cfg size key bits :
  1 <= bits <= 32 ->
  exists idx, CAM_OS_HASH_MIN cfg size key bits = Some idx /\ 0 <= idx < 2 ^ bits.
Proof.
  intros Hb. unfold CAM_OS_HASH_MIN, CAM_OS_HASH_LONG.
  destruct (size <=? 4); [|destruct cfg].
  - rewrite CAM_OS_HASH_32_value by done. eexists; split; [done|].
    apply shiftr_top_bits; [lia | apply Z.mod_pos_bound; done].
  - rewrite CAM_OS_HASH_32_value by done. eexists; split; [done|].
    apply shiftr_top_bits; [lia | apply Z.mod_pos_bound; done].
  - rewrite CAM_OS_HASH_64_value by lia. eexists; split; [done|].
    apply shiftr_top_bits; [lia | apply Z.mod_pos_bound; done].
Qed.

(** C4 (as amended).  For every [u32 val] and [1 <= bits <= 32],
    [CAM_OS_HASH_32(val, bits)] is [((val * 0x9e370001) mod 2^32) >> (32 - bits)]
    and is below [2^bits]; likewise [CAM_OS_HASH_64] with multiplier
    [0x9e37fffffffc0001] and width 64.  Hence, for a hash table of [len]
    heads with [2 <= len < 2^32], the bucket index
    [CAM_OS_HASH_MIN(key, CAM_OS_HASH_BITS(hashtable))] that
    [CAM_OS_HASH_ADD] uses is within the array. *)
Theorem CAM_OS_HASH_spec cfg constant_p size key len val bits val64 bits64 :
  is_u32 val -> 1 <= bits <= 32 ->
  is_u64 val64 -> 1 <= bits64 <= 64 ->
  2 <= len < 2 ^ 32 ->
  (exists r, CAM_OS_HASH_32 val bits = Some r /\
             r = Z.shiftr ((val * 0x9e370001) mod 2 ^ 32) (32 - bits) /\
             0 <= r < 2 ^ bits) /\
  (exists r, CAM_OS_HASH_64 val64 bits64 = Some r /\
             r = Z.shiftr ((val64 * 0x9e37fffffffc0001) mod 2 ^ 64) (64 - bits64) /\
             0 <= r < 2 ^ bits64) /\
  bucket_in_table cfg constant_p size key len.
Proof.
  intros _ Hb _ Hb64 Hlen. split; [|split].
  - eexists. split; [apply CAM_OS_HASH_32_value; done|].
    split; [done|]. apply shiftr_top_bits; [lia | apply Z.mod_pos_bound; done].
  - eexists. split; [apply CAM_OS_HASH_64_value; done|].
    split; [done|]. apply shiftr_top_bits; [lia | apply Z.mod_pos_bound; done].
  - unfold bucket_in_table, CAM_OS_HASH_BITS.
    assert (2 ^ 32 <= 2 ^ (8 * sizeof_size_t cfg)) by (destruct cfg; done).
    rewrite CAM_OS_ILOG2_log2 by (destruct cfg; try done; lia).
    assert (1 <= Z.log2 len).
    { apply Z.log2_le_pow2; [lia|]. change (2 ^ 1) with 2. lia. }
    assert (Z.log2 len < 32) by (apply Z.log2_lt_pow2; lia).
    destruct (CAM_OS_HASH_MIN_bound cfg size key (Z.log2 len)) as (idx & -> & Hidx); [lia|].
    exists idx. split; [done|].
    pose proof (Z.log2_spec len ltac:(lia)). lia.
Qed.

Lemma CAM_OS_HASH_spec_witness :
  (exists r, CAM_OS_HASH_32 12345 10 = Some r /\
             r = Z.shiftr ((12345 * 0x9e370001) mod 2 ^ 32) (32 - 10) /\
             0 <= r < 2 ^ 10) /\
  (exists r, CAM_OS_HASH_64 12345 10 = Some r /\
             r = Z.shiftr ((12345 * 0x9e37fffffffc0001) mod 2 ^ 64) (64 - 10) /\
             0 <= r < 2 ^ 10) /\
  bucket_in_table Long32 true 4 12345 1000.
Proof.
  apply (CAM_OS_HASH_spec Long32 true 4 12345 1000 12345 10 12345 10);
    unfold is_u32, is_u64; simpl; lia.
Defined.

(** C4, table of one head: such a table has
    [CAM_OS_HASH_BITS = CAM_OS_ILOG2(1) = 0], and [CAM_OS_HASH_32] then
    shifts a 32-bit value by [32 - 0], a count for which the shift has no
    defined result; no bucket index within the array is delivered.  (A
    machine that takes the count modulo 32 returns the hash unshifted,
    which is not an index of a one-element array.) *)
Lemma CAM_OS_HASH_one_bucket :
  CAM_OS_HASH_BITS Long32 true 1 = 0 /\
  CAM_OS_HASH_BITS Long32 false 1 = 0 /\
  shift_count_ok 32 (to_u32 (32 - 0)) = false /\
  CAM_OS_HASH_MIN Long32 4 12345 (CAM_OS_HASH_BITS Long32 true 1) = None /\
  ~ bucket_in_table Long32 true 4 12345 1 /\
  1 <= Z.shiftr (to_u32 (12345 * CAM_OS_GOLDEN_RATIO_PRIME_32)) (32 mod 32).
Proof.
  split; [reflexivity|]. split; [reflexivity|]. split; [reflexivity|].
  split; [reflexivity|]. split.
  - intros (idx & Hidx & _). vm_compute in Hidx. discriminate.
  - vm_compute. discriminate.
Qed.

(** ** Intrusive lists *)

(** *** Circular lists: field reads after field writes *)

Lemma store_pNext_Some p v (h : heap) :
  is_Some (h !! p) -> is_Some (store_pNext p v h).
Proof. intros [s Hs]. unfold store_pNext. rewrite Hs. eauto. Qed.

Lemma store_pPrev_Some p v (h : heap) :
  is_Some (h !! p) -> is_Some (store_pPrev p v h).
Proof. intros [s Hs]. unfold store_pPrev. rewrite Hs. eauto. Qed.

Lemma store_pNext_loads p v (h h' : heap) :
  store_pNext p v h = Some h' ->
  (forall q, load_pNext q h' = if decide (q = p) then Some v else load_pNext q h) /\
  (forall q, load_pPrev q h' = load_pPrev q h) /\
  (forall q, is_Some (h' !! q) <-> is_Some (h !! q)).
Proof.
  unfold store_pNext, load_pNext, load_pPrev. intros Hst.
  destruct (h !! p) as [s|] eqn:Hs; [|done]. injection Hst as <-.
  repeat split; intros; destruct (decide (q = p)) as [->|];
    rewrite ?lookup_insert_eq, ?lookup_insert_ne, ?Hs in * by done; eauto.
Qed.

Lemma store_pPrev_loads p v (h h' : heap) :
  store_pPrev p v h = Some h' ->
  (forall q, load_pNext q h' = load_pNext q h) /\
  (forall q, load_pPrev q h' = if decide (q = p) then Some v else load_pPrev q h) /\
  (forall q, is_Some (h' !! q) <-> is_Some (h !! q)).
Proof.
  unfold store_pPrev, load_pNext, load_pPrev. intros Hst.
  destruct (h !! p) as [s|] eqn:Hs; [|done]. injection Hst as <-.
  repeat split; intros; destruct (decide (q = p)) as [->|];
    rewrite ?lookup_insert_eq, ?lookup_insert_ne, ?Hs in * by done; eauto.
Qed.

Lemma load_pNext_is_Some p (h : heap) : is_Some (load_pNext p h) <-> is_Some (h !! p).
Proof. unfold load_pNext. rewrite fmap_is_Some. done. Qed.

Lemma load_pPrev_is_Some p (h : heap) : is_Some (load_pPrev p h) <-> is_Some (h !! p).
Proof. unfold load_pPrev. rewrite fmap_is_Some. done. Qed.

Lemma writes_refl (h : heap) :
  writes h h (fun q => load_pNext q h) (fun q => load_pPrev q h).
Proof. repeat split; done. Qed.

Lemma writes_store_pNext (h0 h : heap) nx pv p v :
  writes h0 h nx pv -> is_Some (h0 !! p) ->
  exists h', store_pNext p v h = Some h' /\
    writes h0 h' (fun q => if decide (q = p) then Some v else nx q) pv.
Proof.
  intros (Hn & Hp & Ha) Hal.
  destruct (store_pNext_Some p v h) as [h' E]; [apply Ha; done|].
  exists h'. split; [done|].
  destruct (store_pNext_loads _ _ _ _ E) as (Hn' & Hp' & Ha').
  repeat split.
  - intros q. rewrite Hn', Hn. done.
  - intros q. rewrite Hp', Hp. done.
  - intros Hq. apply Ha, Ha'. done.
  - intros Hq. apply Ha', Ha. done.
Qed.

Lemma writes_store_pPrev (h0 h : heap) nx pv p v :
  writes h0 h nx pv -> is_Some (h0 !! p) ->
  exists h', store_pPrev p v h = Some h' /\
    writes h0 h' nx (fun q => if decide (q = p) then Some v else pv q).
Proof.
  intros (Hn & Hp & Ha) Hal.
  destruct (store_pPrev_Some p v h) as [h' E]; [apply Ha; done|].
  exists h'. split; [done|].
  destruct (store_pPrev_loads _ _ _ _ E) as (Hn' & Hp' & Ha').
  repeat split.
  - intros q. rewrite Hn', Hn. done.
  - intros q. rewrite Hp', Hp. done.
  - intros Hq. apply Ha, Ha'. done.
  - intros Hq. apply Ha', Ha. done.
Qed.

Ltac write_next W p v :=
  let h := fresh "h" in let E := fresh "E" in let W' := fresh "W" in
  destruct (writes_store_pNext _ _ _ _ p v W) as (h & E & W'); [try done|];
  rewrite E; cbn [mbind option_bind]; clear E; clear W; rename W' into W.

Ltac write_prev W p v :=
  let h := fresh "h" in let E := fresh "E" in let W' := fresh "W" in
  destruct (writes_store_pPrev _ _ _ _ p v W) as (h & E & W'); [try done|];
  rewrite E; cbn [mbind option_bind]; clear E; clear W; rename W' into W.

Lemma CAM_OS_INIT_LIST_HEAD_writes pList (h : heap) :
  is_Some (h !! pList) ->
  exists h', CAM_OS_INIT_LIST_HEAD pList h = Some h' /\
    writes h h'
      (fun q => if decide (q = pList) then Some pList else load_pNext q h)
      (fun q => if decide (q = pList) then Some pList else load_pPrev q h).
Proof.
  intros Ha. unfold CAM_OS_INIT_LIST_HEAD. pose proof (writes_refl h) as W.
  write_next W pList pList. write_prev W pList pList. eauto.
Qed.

Lemma _CAM_OS_LIST_ADD_writes pNew prev next (h : heap) :
  is_Some (h !! pNew) -> is_Some (h !! prev) -> is_Some (h !! next) ->
  exists h', _CAM_OS_LIST_ADD pNew prev next h = Some h' /\
    writes h h'
      (fun q => if decide (q = prev) then Some pNew
                else if decide (q = pNew) then Some next else load_pNext q h)
      (fun q => if decide (q = pNew) then Some prev
                else if decide (q = next) then Some pNew else load_pPrev q h).
Proof.
  intros Hn Hp Hx. unfold _CAM_OS_LIST_ADD. pose proof (writes_refl h) as W.
  write_prev W next pNew. write_next W pNew next.
  write_prev W pNew prev. write_next W prev pNew. eauto.
Qed.

Lemma _CAM_OS_LIST_DEL_writes prev next (h : heap) :
  is_Some (h !! prev) -> is_Some (h !! next) ->
  exists h', _CAM_OS_LIST_DEL prev next h = Some h' /\
    writes h h'
      (fun q => if decide (q = prev) then Some next else load_pNext q h)
      (fun q => if decide (q = next) then Some prev else load_pPrev q h).
Proof.
  intros Hp Hx. unfold _CAM_OS_LIST_DEL. pose proof (writes_refl h) as W.
  write_prev W next prev. write_next W prev next. eauto.
Qed.

Lemma CAM_OS_LIST_ADD_writes pNew head first (h : heap) :
  load_pNext head h = Some first ->
  is_Some (h !! pNew) -> is_Some (h !! first) ->
  exists h', CAM_OS_LIST_ADD pNew head h = Some h' /\
    writes h h'
      (fun q => if decide (q = head) then Some pNew
                else if decide (q = pNew) then Some first else load_pNext q h)
      (fun q => if decide (q = pNew) then Some head
                else if decide (q = first) then Some pNew else load_pPrev q h).
Proof.
  intros Hf Hn Hx. unfold CAM_OS_LIST_ADD. rewrite Hf. cbn [mbind option_bind].
  apply _CAM_OS_LIST_ADD_writes; [done| |done].
  apply load_pNext_is_Some. rewrite Hf. eauto.
Qed.

Lemma CAM_OS_LIST_ADD_TAIL_writes pNew head last (h : heap) :
  load_pPrev head h = Some last ->
  is_Some (h !! pNew) -> is_Some (h !! last) ->
  exists h', CAM_OS_LIST_ADD_TAIL pNew head h = Some h' /\
    writes h h'
      (fun q => if decide (q = last) then Some pNew
                else if decide (q = pNew) then Some head else load_pNext q h)
      (fun q => if decide (q = pNew) then Some last
                else if decide (q = head) then Some pNew else load_pPrev q h).
Proof.
  intros Hl Hn Hx. unfold CAM_OS_LIST_ADD_TAIL. rewrite Hl. cbn [mbind option_bind].
  apply _CAM_OS_LIST_ADD_writes; [done|done|].
  apply load_pPrev_is_Some. rewrite Hl. eauto.
Qed.

Lemma CAM_OS_LIST_DEL_INIT_writes entry prev next (h : heap) :
  load_pPrev entry h = Some prev -> load_pNext entry h = Some next ->
  is_Some (h !! prev) -> is_Some (h !! next) ->
  exists h', CAM_OS_LIST_DEL_INIT entry h = Some h' /\
    writes h h'
      (fun q => if decide (q = entry) then Some entry
                else if decide (q = prev) then Some next else load_pNext q h)
      (fun q => if decide (q = entry) then Some entry
                else if decide (q = next) then Some prev else load_pPrev q h).
Proof.
  intros Hp Hn Hap Han.
  assert (is_Some (h !! entry)) by (apply load_pNext_is_Some; rewrite Hn; eauto).
  unfold CAM_OS_LIST_DEL_INIT, _CAM_OS_LIST_DEL_ENTRY, CAM_OS_INIT_LIST_HEAD, _CAM_OS_LIST_DEL.
  rewrite Hp, Hn. cbn [mbind option_bind]. pose proof (writes_refl h) as W.
  write_prev W next prev. write_next W prev next.
  write_next W entry entry. write_prev W entry entry. eauto.
Qed.

Lemma CAM_OS_LIST_DEL_writes pEntry prev next (h : heap) :
  load_pPrev pEntry h = Some prev -> load_pNext pEntry h = Some next ->
  is_Some (h !! prev) -> is_Some (h !! next) ->
  exists h', CAM_OS_LIST_DEL pEntry h = Some h' /\
    writes h h'
      (fun q => if decide (q = pEntry) then Some CAM_OS_LIST_POISON1
                else if decide (q = prev) then Some next else load_pNext q h)
      (fun q => if decide (q = pEntry) then Some CAM_OS_LIST_POISON2
                else if decide (q = next) then Some prev else load_pPrev q h).
Proof.
  intros Hp Hn Hap Han.
  assert (is_Some (h !! pEntry)) by (apply load_pNext_is_Some; rewrite Hn; eauto).
  unfold CAM_OS_LIST_DEL, _CAM_OS_LIST_DEL.
  rewrite Hp, Hn. cbn [mbind option_bind]. pose proof (writes_refl h) as W.
  write_prev W next prev. write_next W prev next.
  write_next W pEntry CAM_OS_LIST_POISON1. write_prev W pEntry CAM_OS_LIST_POISON2. eauto.
Qed.

(** *** Preservation of the ring invariant *)

Lemma rings_alloc (h : heap) L p : rings h L -> p ∈ L -> is_Some (h !! p).
Proof.
  intros Hr Hp. destruct (Hr p Hp) as (n & q & Hn & _).
  apply load_pNext_is_Some. rewrite Hn. eauto.
Qed.

Lemma rings_writes (h h' : heap) nx pv L' :
  writes h h' nx pv ->
  (forall p, p ∈ L' ->
     exists n q, nx p = Some n /\ pv p = Some q /\ n ∈ L' /\ q ∈ L' /\
                 pv n = Some p /\ nx q = Some p) ->
  rings h' L'.
Proof.
  intros (HN & HP & _) H p Hp. destruct (H p Hp) as (n & q & ?).
  exists n, q. rewrite !HN, !HP. done.
Qed.

Lemma writes_dom (h h' : heap) nx pv : writes h h' nx pv -> dom h' = dom h.
Proof.
  intros (_ & _ & Ha). apply set_eq. intros q. rewrite !elem_of_dom. apply Ha.
Qed.

Ltac ring_cases :=
  repeat (case_decide; simplify_eq); repeat split;
  try done; try congruence; try set_solver.

Lemma rings_CAM_OS_LIST_ADD (h : heap) L pNew head :
  rings h L -> is_Some (h !! pNew) -> pNew ∉ L -> head ∈ L ->
  exists h', CAM_OS_LIST_ADD pNew head h = Some h' /\
             rings h' (L ∪ {[pNew]}) /\ dom h' = dom h.
Proof.
  intros Hr Ha Hnew Hhead.
  destruct (Hr head Hhead) as (first & last & HNh & HPh & Hf & Hl & HPf & HNl).
  destruct (CAM_OS_LIST_ADD_writes pNew head first h) as (h' & E & W);
    [done|done|eapply rings_alloc; done|].
  exists h'. split; [done|]. split; [|eapply writes_dom; done].
  eapply rings_writes; [done|]. intros p Hin.
  destruct (decide (p = pNew)) as [->|Hne].
  - exists first, head. ring_cases.
  - assert (p ∈ L) as HpL by set_solver.
    destruct (Hr p HpL) as (n & q & HNp & HPp & Hn & Hq & HPn & HNq).
    exists (if decide (p = head) then pNew else n),
           (if decide (p = first) then pNew else q).
    ring_cases.
Qed.

Lemma rings_CAM_OS_LIST_ADD_TAIL (h : heap) L pNew head :
  rings h L -> is_Some (h !! pNew) -> pNew ∉ L -> head ∈ L ->
  exists h', CAM_OS_LIST_ADD_TAIL pNew head h = Some h' /\
             rings h' (L ∪ {[pNew]}) /\ dom h' = dom h.
Proof.
  intros Hr Ha Hnew Hhead.
  destruct (Hr head Hhead) as (first & last & HNh & HPh & Hf & Hl & HPf & HNl).
  destruct (CAM_OS_LIST_ADD_TAIL_writes pNew head last h) as (h' & E & W);
    [done|done|eapply rings_alloc; done|].
  exists h'. split; [done|]. split; [|eapply writes_dom; done].
  eapply rings_writes; [done|]. intros p Hin.
  destruct (decide (p = pNew)) as [->|Hne].
  - exists head, last. ring_cases.
  - assert (p ∈ L) as HpL by set_solver.
    destruct (Hr p HpL) as (n & q & HNp & HPp & Hn & Hq & HPn & HNq).
    exists (if decide (p = last) then pNew else n),
           (if decide (p = head) then pNew else q).
    ring_cases.
Qed.

Lemma rings_CAM_OS_INIT_LIST_HEAD (h : heap) L pList :
  rings h L -> is_Some (h !! pList) -> pList ∉ L ->
  exists h', CAM_OS_INIT_LIST_HEAD pList h = Some h' /\
             rings h' (L ∪ {[pList]}) /\ dom h' = dom h.
Proof.
  intros Hr Ha Hnew.
  destruct (CAM_OS_INIT_LIST_HEAD_writes pList h Ha) as (h' & E & W).
  exists h'. split; [done|]. split; [|eapply writes_dom; done].
  eapply rings_writes; [done|]. intros p Hin.
  destruct (decide (p = pList)) as [->|Hne].
  - exists pList, pList. ring_cases.
  - assert (p ∈ L) as HpL by set_solver.
    destruct (Hr p HpL) as (n & q & HNp & HPp & Hn & Hq & HPn & HNq).
    exists n, q. ring_cases.
Qed.

Lemma rings_CAM_OS_LIST_DEL_INIT (h : heap) L entry :
  rings h L -> entry ∈ L ->
  exists h', CAM_OS_LIST_DEL_INIT entry h = Some h' /\
             rings h' (L ∖ {[entry]}) /\ rings h' {[entry]} /\ dom h' = dom h.
Proof.
  intros Hr He.
  destruct (Hr entry He) as (next & prev & HNe & HPe & Hn & Hp & HPn & HNp).
  destruct (CAM_OS_LIST_DEL_INIT_writes entry prev next h) as (h' & E & W);
    [done|done|eapply rings_alloc; done|eapply rings_alloc; done|].
  exists h'. split; [done|]. split; [|split; [|eapply writes_dom; done]].
  - eapply rings_writes; [done|]. intros p Hin.
    assert (p ∈ L /\ p <> entry) as [HpL Hne] by set_solver.
    destruct (Hr p HpL) as (n & q & HNp' & HPp' & Hn' & Hq' & HPn' & HNq').
    exists (if decide (p = prev) then next else n),
           (if decide (p = next) then prev else q).
    ring_cases.
  - eapply rings_writes; [done|]. intros p Hin.
    assert (p = entry) as -> by set_solver.
    exists entry, entry. ring_cases.
Qed.

Lemma rings_CAM_OS_LIST_DEL (h : heap) L pEntry :
  rings h L -> pEntry ∈ L ->
  exists h', CAM_OS_LIST_DEL pEntry h = Some h' /\ rings h' (L ∖ {[pEntry]}).
Proof.
  intros Hr He.
  destruct (Hr pEntry He) as (next & prev & HNe & HPe & Hn & Hp & HPn & HNp).
  destruct (CAM_OS_LIST_DEL_writes pEntry prev next h) as (h' & E & W);
    [done|done|eapply rings_alloc; done|eapply rings_alloc; done|].
  exists h'. split; [done|].
  eapply rings_writes; [done|]. intros p Hin.
  assert (p ∈ L /\ p <> pEntry) as [HpL Hne] by set_solver.
  destruct (Hr p HpL) as (n & q & HNp' & HPp' & Hn' & Hq' & HPn' & HNq').
  exists (if decide (p = prev) then next else n),
         (if decide (p = next) then prev else q).
  ring_cases.
Qed.

Lemma rings_run_op (h : heap) L o :
  rings h L -> op_allowed (dom h) L o ->
  exists h', run_op o h = Some h' /\ rings h' (on_list_after o L) /\ dom h' = dom h.
Proof.
  intros Hr Hok. destruct o as [p|n hd|n hd|e]; cbn [run_op on_list_after op_allowed] in *.
  - destruct Hok as [Ha Hn]. apply rings_CAM_OS_INIT_LIST_HEAD; [done| |done].
    apply elem_of_dom. done.
  - destruct Hok as (Ha & Hn & Hh). apply rings_CAM_OS_LIST_ADD; [done| |done|done].
    apply elem_of_dom. done.
  - destruct Hok as (Ha & Hn & Hh). apply rings_CAM_OS_LIST_ADD_TAIL; [done| |done|done].
    apply elem_of_dom. done.
  - destruct (rings_CAM_OS_LIST_DEL_INIT h L e Hr Hok) as (h' & E & Hr' & _ & Hd). eauto.
Qed.

Lemma rings_run_ops ops : forall (h : heap) L,
  rings h L -> ops_allowed (dom h) L ops ->
  exists h', run_ops ops h = Some h' /\
             rings h' (on_list_after_all ops L) /\ dom h' = dom h.
Proof.
  induction ops as [|o ops IH]; intros h L Hr Hok.
  - exists h. done.
  - destruct Hok as [Ho Hok].
    destruct (rings_run_op h L o Hr Ho) as (h1 & E1 & Hr1 & Hd1).
    rewrite <- Hd1 in Hok.
    destruct (IH h1 _ Hr1 Hok) as (h' & E' & Hr' & Hd').
    exists h'. cbn [run_ops]. rewrite E1. cbn [mbind option_bind].
    split; [done|]. split; [done|]. congruence.
Qed.

Section ring_facts.
Context (h : gmap Z CamOsListHead_t) (L : gset Z) (Hr : rings h L).

Lemma rings_reach head p : head ∈ L -> reach h head p -> p ∈ L.
Proof.
  intros Hh Hreach. induction Hreach as [|q n _ IH Hn]; [done|].
  destruct (Hr q IH) as (n' & q' & Hn' & _ & Hin & _).
  assert (n = n') as -> by congruence. done.
Qed.

Lemma rings_linked_at p : p ∈ L -> linked_at h p.
Proof.
  intros Hp. destruct (Hr p Hp) as (n & q & ? & ? & _ & _ & ? & ?).
  exists n, q. done.
Qed.

Lemma rings_CAM_OS_LIST_EMPTY head :
  head ∈ L ->
  exists b, CAM_OS_LIST_EMPTY head h = Some b /\
            (b = true <-> forall p, reach h head p -> p = head).
Proof.
  intros Hh. destruct (Hr head Hh) as (n & q0 & Hn & _).
  unfold CAM_OS_LIST_EMPTY. rewrite Hn. cbn [mbind option_bind].
  eexists. split; [done|]. rewrite bool_decide_eq_true. split.
  - intros ->. intros p Hreach. induction Hreach as [|q n' _ IH Hn']; [done|].
    subst q. congruence.
  - intros Hall. apply Hall. eapply reach_next; [apply reach_here|done].
Qed.

End ring_facts.

Lemma heads_initialized_rings (h : heap) L : heads_initialized h L -> rings h L.
Proof. intros Hi p Hp. destruct (Hi p Hp). exists p, p. done. Qed.

(** C6.  Starting from heads initialised by [CAM_OS_INIT_LIST_HEAD] (or
    [CAM_OS_LIST_HEAD_INIT]), every sequence of [CAM_OS_INIT_LIST_HEAD],
    [CAM_OS_LIST_ADD], [CAM_OS_LIST_ADD_TAIL] and [CAM_OS_LIST_DEL_INIT]
    operations, each inserting a struct that is not on a list or deleting
    a node that is, runs without a fault and keeps the circular
    doubly-linked invariant: every node [p] reachable from a node on a
    list has [p->pNext->pPrev == p] and [p->pPrev->pNext == p], and
    [CAM_OS_LIST_EMPTY(head)] holds exactly when [head] is the only node
    of its ring. *)
Theorem list_ops_preserve_rings (h : heap) (L : gset Z) (ops : list list_op) :
  heads_initialized h L ->
  ops_allowed (dom h) L ops ->
  exists h', run_ops ops h = Some h' /\
    forall head, head ∈ on_list_after_all ops L ->
      (forall p, reach h' head p ->
         p ∈ on_list_after_all ops L /\ linked_at h' p) /\
      (exists b, CAM_OS_LIST_EMPTY head h' = Some b /\
                 (b = true <-> forall p, reach h' head p -> p = head)).
Proof.
  intros Hi Hok.
  destruct (rings_run_ops ops h L (heads_initialized_rings _ _ Hi) Hok)
    as (h' & E & Hr & _).
  exists h'. split; [done|]. intros head Hh. split.
  - intros p Hreach. pose proof (rings_reach _ _ Hr _ _ Hh Hreach).
    split; [done|]. eapply rings_linked_at; done.
  - eapply rings_CAM_OS_LIST_EMPTY; done.
Qed.


Lemma three_structs_dom : dom three_structs = {[ 0x1000; 0x2000; 0x3000 ]}.
Proof.
  unfold three_structs. rewrite !dom_insert_L, dom_singleton_L. set_solver.
Qed.

Lemma list_ops_preserve_rings_witness :
  let ops := [OpAdd 0x2000 0x1000; OpAddTail 0x3000 0x1000;
              OpDelInit 0x2000; OpInit 0x2000] in
  exists h', run_ops ops three_structs = Some h' /\
    forall head, head ∈ on_list_after_all ops {[ 0x1000 ]} ->
      (forall p, reach h' head p ->
         p ∈ on_list_after_all ops {[ 0x1000 ]} /\ linked_at h' p) /\
      (exists b, CAM_OS_LIST_EMPTY head h' = Some b /\
                 (b = true <-> forall p, reach h' head p -> p = head)).
Proof.
  intros ops. apply (list_ops_preserve_rings three_structs {[ 0x1000 ]} ops).
  - intros p Hp. apply elem_of_singleton in Hp. subst p. split; reflexivity.
  - rewrite three_structs_dom. cbn. repeat split; set_solver.
Defined.


Lemma loads_lookup (h h' : heap) p :
  load_pNext p h' = load_pNext p h -> load_pPrev p h' = load_pPrev p h ->
  h' !! p = h !! p.
Proof.
  unfold load_pNext, load_pPrev.
  destruct (h' !! p) as [[n' q']|], (h !! p) as [[n q]|]; cbn; congruence.
Qed.

(** C7.  On a well-formed circular list, [CAM_OS_LIST_ADD(pNew, head)]
    puts the struct [pNew], not on the list before, right after [head]:
    afterwards [head->pNext == pNew], [pNew->pPrev == head], [pNew->pNext]
    is the former [head->pNext] and that former first node has
    [pPrev == pNew].  [CAM_OS_LIST_ADD_TAIL(pNew, head)] puts it right
    before [head] in the same way ([head->pPrev == pNew]).  In both cases
    every struct other than [head], [pNew] and the one adjacent node is
    unchanged. *)
Theorem CAM_OS_LIST_ADD_frame (h : heap) (L : gset Z) (pNew head first last : Z) :
  rings h L -> head ∈ L -> is_Some (h !! pNew) -> pNew ∉ L ->
  load_pNext head h = Some first -> load_pPrev head h = Some last ->
  (exists h', CAM_OS_LIST_ADD pNew head h = Some h' /\
              inserted_between h h' pNew head first) /\
  (exists h', CAM_OS_LIST_ADD_TAIL pNew head h = Some h' /\
              inserted_between h h' pNew last head).
Proof.
  intros Hr Hh Ha Hnew HN HP.
  destruct (Hr head Hh) as (first' & last' & HNh & HPh & Hf & Hl & _).
  assert (first' = first) as -> by congruence.
  assert (last' = last) as -> by congruence.
  split.
  - destruct (CAM_OS_LIST_ADD_writes pNew head first h) as (h' & E & HN' & HP' & _);
      [done|done|eapply rings_alloc; done|].
    exists h'. split; [done|]. unfold inserted_between. rewrite !HN', !HP'.
    repeat split; [ring_cases..|].
    intros p ? ? ?. apply loads_lookup; rewrite ?HN', ?HP'; ring_cases.
  - destruct (CAM_OS_LIST_ADD_TAIL_writes pNew head last h) as (h' & E & HN' & HP' & _);
      [done|done|eapply rings_alloc; done|].
    exists h'. split; [done|]. unfold inserted_between. rewrite !HN', !HP'.
    repeat split; [ring_cases..|].
    intros p ? ? ?. apply loads_lookup; rewrite ?HN', ?HP'; ring_cases.
Qed.


Lemma ring_of_two_rings : rings ring_of_two {[ 0x1000; 0x2000 ]}.
Proof.
  intros p Hp. apply elem_of_union in Hp as [Hp|Hp]; apply elem_of_singleton in Hp; subst p.
  - exists 0x2000, 0x2000. repeat split; try reflexivity; set_solver.
  - exists 0x1000, 0x1000. repeat split; try reflexivity; set_solver.
Qed.

Lemma CAM_OS_LIST_ADD_frame_witness :
  (exists h', CAM_OS_LIST_ADD 0x3000 0x1000 ring_of_two = Some h' /\
              inserted_between ring_of_two h' 0x3000 0x1000 0x2000) /\
  (exists h', CAM_OS_LIST_ADD_TAIL 0x3000 0x1000 ring_of_two = Some h' /\
              inserted_between ring_of_two h' 0x3000 0x2000 0x1000).
Proof.
  apply (CAM_OS_LIST_ADD_frame ring_of_two {[ 0x1000; 0x2000 ]}
           0x3000 0x1000 0x2000 0x2000).
  - exact ring_of_two_rings.
  - set_solver.
  - eexists. reflexivity.
  - set_solver.
  - reflexivity.
  - reflexivity.
Defined.


(** C9 (as amended).  After [CAM_OS_LIST_DEL(pEntry)] on a node of a
    well-formed list, the entry's former neighbours, when they are other
    nodes than [pEntry] itself, are linked to each other and the nodes
    that remain form well-formed rings; [pEntry->pNext]
    is the poison value [0x00100100] and [pEntry->pPrev] is [0x00200200],
    so the entry is not a valid list by itself, and
    [CAM_OS_LIST_EMPTY(pEntry)] is false provided [pEntry] is not itself
    located at address [0x00100100].  After [CAM_OS_LIST_DEL_INIT(entry)]
    the entry is a valid empty list with
    [entry->pNext == entry->pPrev == entry] and [CAM_OS_LIST_EMPTY(entry)]
    true. *)
Theorem CAM_OS_LIST_DEL_poison (h : heap) (L : gset Z) (pEntry prev next : Z) :
  rings h L -> pEntry ∈ L ->
  load_pPrev pEntry h = Some prev -> load_pNext pEntry h = Some next ->
  (exists h', CAM_OS_LIST_DEL pEntry h = Some h' /\
     rings h' (L ∖ {[pEntry]}) /\
     (prev <> pEntry -> next <> pEntry /\
        load_pNext prev h' = Some next /\ load_pPrev next h' = Some prev) /\
     load_pNext pEntry h' = Some 0x00100100 /\
     load_pPrev pEntry h' = Some 0x00200200 /\
     ~ rings h' {[pEntry]} /\
     (pEntry <> 0x00100100 -> CAM_OS_LIST_EMPTY pEntry h' = Some false)) /\
  (exists h', CAM_OS_LIST_DEL_INIT pEntry h = Some h' /\
     rings h' (L ∖ {[pEntry]}) /\
     (prev <> pEntry -> next <> pEntry /\
        load_pNext prev h' = Some next /\ load_pPrev next h' = Some prev) /\
     load_pNext pEntry h' = Some pEntry /\
     load_pPrev pEntry h' = Some pEntry /\
     rings h' {[pEntry]} /\
     CAM_OS_LIST_EMPTY pEntry h' = Some true).
Proof.
  intros Hr He HP HN.
  destruct (Hr pEntry He) as (next' & prev' & HNe & HPe & Hn & Hp & HPn & HNp).
  assert (next' = next) as -> by congruence.
  assert (prev' = prev) as -> by congruence.
  split.
  - destruct (CAM_OS_LIST_DEL_writes pEntry prev next h) as (h' & E & HN' & HP' & _);
      [done|done|eapply rings_alloc; done|eapply rings_alloc; done|].
    destruct (rings_CAM_OS_LIST_DEL h L pEntry Hr He) as (h1 & E1 & Hr1).
    assert (h1 = h') as -> by congruence.
    exists h'. split; [done|]. split; [done|].
    assert (load_pNext pEntry h' = Some 0x00100100) as HN1.
    { rewrite HN'. rewrite decide_True by done. done. }
    assert (load_pPrev pEntry h' = Some 0x00200200) as HP1.
    { rewrite HP'. rewrite decide_True by done. done. }
    split; [|split; [done|split; [done|split]]].
    + intros Hne. assert (next <> pEntry) by (intros ->; congruence).
      rewrite HN', HP'. ring_cases.
    + intros Hbad. destruct (Hbad pEntry) as (n & q & Hn1 & Hq1 & Hin & Hiq & _);
        [set_solver|].
      assert (n = pEntry) by set_solver. assert (q = pEntry) by set_solver.
      congruence.
    + intros Hne. unfold CAM_OS_LIST_EMPTY. rewrite HN1. cbn [mbind option_bind].
      rewrite bool_decide_eq_false_2 by congruence. done.
  - destruct (CAM_OS_LIST_DEL_INIT_writes pEntry prev next h) as (h' & E & W);
      [done|done|eapply rings_alloc; done|eapply rings_alloc; done|].
    destruct (rings_CAM_OS_LIST_DEL_INIT h L pEntry Hr He) as (h2 & E2 & Hr1 & Hr2 & _).
    assert (h2 = h') as -> by congruence.
    destruct W as (HN' & HP' & _).
    exists h'. split; [done|]. split; [done|].
    assert (load_pNext pEntry h' = Some pEntry) as HN1.
    { rewrite HN'. rewrite decide_True by done. done. }
    split; [|split; [done|split; [|split; [done|]]]].
    + intros Hne. assert (next <> pEntry) by (intros ->; congruence).
      rewrite HN', HP'. ring_cases.
    + rewrite HP'. rewrite decide_True by done. done.
    + unfold CAM_OS_LIST_EMPTY. rewrite HN1. cbn [mbind option_bind].
      rewrite bool_decide_eq_true_2 by done. done.
Qed.


Lemma CAM_OS_LIST_DEL_poison_witness :
  exists h', CAM_OS_LIST_DEL 0x2000 ring_of_two = Some h' /\
             load_pNext 0x1000 h' = Some 0x1000 /\
             load_pPrev 0x1000 h' = Some 0x1000 /\
             load_pNext 0x2000 h' = Some 0x00100100 /\
             load_pPrev 0x2000 h' = Some 0x00200200 /\
             CAM_OS_LIST_EMPTY 0x2000 h' = Some false.
Proof.
  destruct (CAM_OS_LIST_DEL_poison ring_of_two {[ 0x1000; 0x2000 ]}
              0x2000 0x1000 0x1000) as [(h' & E & _ & Hnb & HN & HP & _ & Hem) _].
  - exact ring_of_two_rings.
  - set_solver.
  - reflexivity.
  - reflexivity.
  - exists h'. destruct Hnb as (_ & ? & ?); [lia|].
    repeat split; try done. apply Hem. lia.
Defined.

Lemma ring_at_poison_rings : rings ring_at_poison {[ 0x1000; 0x00100100 ]}.
Proof.
  intros p Hp. apply elem_of_union in Hp as [Hp|Hp]; apply elem_of_singleton in Hp; subst p.
  - exists 0x00100100, 0x00100100. repeat split; try reflexivity; set_solver.
  - exists 0x1000, 0x1000. repeat split; try reflexivity; set_solver.
Qed.

(** C9, entry at the poison address: a node that lives at address
    [0x00100100] and is deleted from a well-formed two-node ring ends with
    [pNext == 0x00100100], its own address, so [CAM_OS_LIST_EMPTY] is
    true on it. *)
Lemma CAM_OS_LIST_DEL_at_poison_address :
  rings ring_at_poison {[ 0x1000; 0x00100100 ]} /\
  (exists h', CAM_OS_LIST_DEL 0x00100100 ring_at_poison = Some h' /\
              load_pNext 0x00100100 h' = Some 0x00100100 /\
              CAM_OS_LIST_EMPTY 0x00100100 h' = Some true) /\
  ~ list_del_leaves_nonempty ring_at_poison 0x00100100.
Proof.
  split; [exact ring_at_poison_rings|]. split.
  - eexists. split; [reflexivity|]. split; reflexivity.
  - intros (h' & E & Hem). vm_compute in E. injection E as <-.
    vm_compute in Hem. discriminate.
Qed.


(** ** Hash lists *)

Lemma CAM_OS_HLIST_DEL_INIT_unhashed n (m : HList.mem) :
  HList.CAM_OS_HLIST_UNHASHED n m = Some true -> HList.CAM_OS_HLIST_DEL_INIT n m = Some m.
Proof. intros Hu. unfold HList.CAM_OS_HLIST_DEL_INIT. rewrite Hu. done. Qed.

Lemma CAM_OS_INIT_HLIST_NODE_unhashed n (m m' : HList.mem) :
  HList.CAM_OS_INIT_HLIST_NODE n m = Some m' -> HList.CAM_OS_HLIST_UNHASHED n m' = Some true.
Proof.
  unfold HList.CAM_OS_INIT_HLIST_NODE, HList.store_pNext, HList.store_ppPrev, HList.CAM_OS_HLIST_UNHASHED.
  destruct (HList.nodes m !! n) as [s|]; [|done]. cbn.
  rewrite lookup_insert_eq. cbn. intros [= <-]. cbn.
  rewrite lookup_insert_eq. done.
Qed.

Lemma CAM_OS_HLIST_DEL_INIT_leaves_unhashed n (m m' : HList.mem) :
  HList.CAM_OS_HLIST_DEL_INIT n m = Some m' -> HList.CAM_OS_HLIST_UNHASHED n m' = Some true.
Proof.
  unfold HList.CAM_OS_HLIST_DEL_INIT.
  destruct (HList.CAM_OS_HLIST_UNHASHED n m) as [[]|] eqn:Hu; cbn; [congruence| |done].
  destruct (HList._CAM_OS_HLIST_DEL n m) as [m1|]; cbn; [|done].
  apply CAM_OS_INIT_HLIST_NODE_unhashed.
Qed.

(** C10.  [CAM_OS_HLIST_DEL_INIT] on an unhashed node ([ppPrev == NULL],
    as [CAM_OS_INIT_HLIST_NODE] or an earlier [CAM_OS_HLIST_DEL_INIT]
    leaves it) changes neither the node nor any hlist; a call that returns
    leaves the node unhashed, so calling it twice in succession on any
    node gives the same state as calling it once. *)
Theorem CAM_OS_HLIST_DEL_INIT_idempotent (n : Z) (m : HList.mem) :
  (HList.CAM_OS_HLIST_UNHASHED n m = Some true ->
     HList.CAM_OS_HLIST_DEL_INIT n m = Some m) /\
  (forall m', HList.CAM_OS_INIT_HLIST_NODE n m = Some m' ->
     HList.CAM_OS_HLIST_DEL_INIT n m' = Some m') /\
  (forall m', HList.CAM_OS_HLIST_DEL_INIT n m = Some m' ->
     HList.CAM_OS_HLIST_UNHASHED n m' = Some true /\
     HList.CAM_OS_HLIST_DEL_INIT n m' = Some m') /\
  HList.CAM_OS_HLIST_DEL_INIT n m ≫= HList.CAM_OS_HLIST_DEL_INIT n = HList.CAM_OS_HLIST_DEL_INIT n m.
Proof.
  split; [apply CAM_OS_HLIST_DEL_INIT_unhashed|].
  split.
  { intros m' E. apply CAM_OS_HLIST_DEL_INIT_unhashed.
    eapply CAM_OS_INIT_HLIST_NODE_unhashed. exact E. }
  assert (forall m', HList.CAM_OS_HLIST_DEL_INIT n m = Some m' ->
            HList.CAM_OS_HLIST_UNHASHED n m' = Some true /\
            HList.CAM_OS_HLIST_DEL_INIT n m' = Some m') as Hagain.
  { intros m' E. pose proof (CAM_OS_HLIST_DEL_INIT_leaves_unhashed n m m' E) as Hu.
    split; [done|]. apply CAM_OS_HLIST_DEL_INIT_unhashed. done. }
  split; [done|].
  destruct (HList.CAM_OS_HLIST_DEL_INIT n m) as [m'|] eqn:E; cbn; [|done].
  apply Hagain. done.
Qed.


Lemma CAM_OS_HLIST_DEL_INIT_idempotent_witness :
  let m' := HList.Mem {[ 100 := HList.Head 1 ]}
              {[ 1 := HList.Node 0 (Some (HList.FirstOf 100));
                 2 := HList.Node 0 None ]} in
  HList.CAM_OS_HLIST_DEL_INIT 2 hashed_pair = Some m' /\
  HList.CAM_OS_HLIST_DEL_INIT 2 m' = Some m' /\
  HList.CAM_OS_HLIST_DEL_INIT 2 hashed_pair ≫= HList.CAM_OS_HLIST_DEL_INIT 2 =
    HList.CAM_OS_HLIST_DEL_INIT 2 hashed_pair.
Proof.
  intros m'.
  assert (HList.CAM_OS_HLIST_DEL_INIT 2 hashed_pair = Some m') as E
    by (vm_compute; reflexivity).
  split; [exact E|]. split.
  - apply (proj1 (CAM_OS_HLIST_DEL_INIT_idempotent 2 m')). vm_compute. reflexivity.
  - exact (proj2 (proj2 (proj2 (CAM_OS_HLIST_DEL_INIT_idempotent 2 hashed_pair)))).
Defined.

(** ** Further properties of the code *)

(** *** Bit scans on wide and on non-positive operands *)

(** X1.  [CAM_OS_FLS64] of a [u64] is 0 for 0 and otherwise one more than
    the position of the highest set bit; the 32-bit and the 64-bit variants
    agree, below [2^32] both agree with [CAM_OS_FLS], and a non-zero [x]
    lies in [[2^(r-1), 2^r)] for the result [r]. *)
Theorem CAM_OS_FLS64_spec cfg x :
  is_u64 x ->
  CAM_OS_FLS64 cfg x = (if x =? 0 then 0 else 1 + Z.log2 x) /\
  CAM_OS_FLS64 Long32 x = CAM_OS_FLS64 Long64 x /\
  (x < 2 ^ 32 -> CAM_OS_FLS64 cfg x = CAM_OS_FLS (to_s32 x)) /\
  (x <> 0 -> 2 ^ (CAM_OS_FLS64 cfg x - 1) <= x < 2 ^ CAM_OS_FLS64 cfg x).
Proof.
  unfold is_u64. intros Hx.
  assert (forall c, CAM_OS_FLS64 c x = if x =? 0 then 0 else 1 + Z.log2 x) as Hall.
  { intros c. destruct (Z.eqb_spec x 0) as [->|Hne]; [destruct c; reflexivity|].
    apply CAM_OS_FLS64_log2. lia. }
  split; [apply Hall|]. split; [rewrite !Hall; done|]. split.
  - intros Hlt. rewrite Hall. destruct (Z.eqb_spec x 0) as [->|Hne]; [reflexivity|].
    rewrite CAM_OS_FLS_log2; rewrite ?to_u32_to_s32, ?to_u32_small by lia; try lia.
    apply to_s32_nonzero. lia.
  - intros Hne. rewrite Hall. destruct (Z.eqb_spec x 0); [done|].
    replace (1 + Z.log2 x - 1) with (Z.log2 x) by lia.
    replace (1 + Z.log2 x) with (Z.succ (Z.log2 x)) by lia.
    apply Z.log2_spec. lia.
Qed.

Lemma CAM_OS_FLS64_spec_witness :
  CAM_OS_FLS64 Long32 (2 ^ 40 + 5) = 41 /\
  CAM_OS_FLS64 Long32 (2 ^ 40 + 5) = CAM_OS_FLS64 Long64 (2 ^ 40 + 5).
Proof.
  assert (is_u64 (2 ^ 40 + 5)) as H by (unfold is_u64; simpl; lia).
  split.
  - exact (proj1 (CAM_OS_FLS64_spec Long32 (2 ^ 40 + 5) H)).
  - exact (proj1 (proj2 (CAM_OS_FLS64_spec Long32 (2 ^ 40 + 5) H))).
Defined.

(** X2.  [_CAM_OS_FLS] of a non-zero [u64] is the position of its highest
    set bit; it also returns 0 for the word 0, so 0 and 1 are the two words
    it cannot tell apart (which is why [CAM_OS_FLS64] tests for 0 first). *)
Theorem _CAM_OS_FLS_spec word :
  is_u64 word ->
  _CAM_OS_FLS word = Z.log2 word /\
  (word <> 0 -> Z.testbit word (_CAM_OS_FLS word) = true /\
                forall i, _CAM_OS_FLS word < i -> Z.testbit word i = false) /\
  (_CAM_OS_FLS word = 0 <-> word = 0 \/ word = 1).
Proof.
  unfold is_u64. intros Hw.
  assert (_CAM_OS_FLS word = Z.log2 word) as E.
  { destruct (Z.eq_dec word 0) as [->|]; [reflexivity|]. apply _CAM_OS_FLS_log2. lia. }
  split; [done|]. rewrite E. split.
  - intros Hne. split; [apply Z.bit_log2; lia|].
    intros i Hi. apply Z.bits_above_log2; lia.
  - split.
    + intros H0. destruct (Z.eq_dec word 0); [lia|].
      pose proof (Z.log2_spec word ltac:(lia)) as Hs. rewrite H0 in Hs.
      change (2 ^ Z.succ 0) with 2 in Hs. change (2 ^ 0) with 1 in Hs. lia.
    + intros [-> | ->]; reflexivity.
Qed.

Lemma _CAM_OS_FLS_spec_witness :
  _CAM_OS_FLS (2 ^ 63 + 1) = 63 /\ (_CAM_OS_FLS 0 = 0 <-> 0 = 0 \/ 0 = 1).
Proof.
  assert (is_u64 (2 ^ 63 + 1)) as H by (unfold is_u64; simpl; lia).
  assert (is_u64 0) as H0 by (unfold is_u64; simpl; lia).
  split.
  - exact (proj1 (_CAM_OS_FLS_spec (2 ^ 63 + 1) H)).
  - exact (proj2 (proj2 (_CAM_OS_FLS_spec 0 H0))).
Defined.

(** X3.  [CAM_OS_ILOG2] on arguments below 1: for a compile-time constant
    the macro gives 0, whereas for a run-time value it gives -1 on 0 and,
    on a negative value, the top bit position of the converted operand (31
    for operands of at most 4 bytes, 63 otherwise).  The two branches of
    the macro disagree there. *)
Theorem CAM_OS_ILOG2_below_one cfg size n :
  0 < size <= 8 -> - 2 ^ (8 * size - 1) <= n < 1 ->
  CAM_OS_ILOG2 cfg true size n = 0 /\
  CAM_OS_ILOG2 cfg false size n =
    (if n =? 0 then -1 else if size <=? 4 then 31 else 63).
Proof.
  intros Hs Hn. unfold CAM_OS_ILOG2.
  destruct (Z.ltb_spec n 1); [|lia]. split; [done|].
  destruct (Z.eqb_spec n 0) as [->|Hne].
  - destruct (size <=? 4); [reflexivity|]. destruct cfg; reflexivity.
  - destruct (Z.leb_spec size 4).
    + assert (2 ^ (8 * size - 1) <= 2 ^ 31) by (apply Z.pow_le_mono_r; lia).
      assert (to_u32 n = n + 2 ^ 32) as Eu.
      { unfold to_u32, to_unsigned. symmetry.
        apply Z.mod_unique with (-1); lia. }
      unfold _CAM_OS_ILOG2_U32. rewrite Eu.
      rewrite CAM_OS_FLS_log2; rewrite ?to_u32_to_s32, ?to_u32_small by lia; try lia.
      * rewrite (Z.log2_unique (n + 2 ^ 32) 31); [done|lia|].
        change (2 ^ Z.succ 31) with (2 ^ 32). lia.
      * apply to_s32_nonzero. lia.
    + assert (2 ^ (8 * size - 1) <= 2 ^ 63) by (apply Z.pow_le_mono_r; lia).
      assert (to_u64 n = n + 2 ^ 64) as Eu.
      { unfold to_u64, to_unsigned. symmetry.
        apply Z.mod_unique with (-1); lia. }
      unfold _CAM_OS_ILOG2_U64. rewrite Eu, CAM_OS_FLS64_log2 by lia.
      rewrite (Z.log2_unique (n + 2 ^ 64) 63); [done|lia|].
      change (2 ^ Z.succ 63) with (2 ^ 64). lia.
Qed.

Lemma CAM_OS_ILOG2_below_one_witness :
  CAM_OS_ILOG2 Long32 true 4 0 = 0 /\ CAM_OS_ILOG2 Long32 false 4 0 = -1 /\
  CAM_OS_ILOG2 Long32 true 4 (-7) = 0 /\ CAM_OS_ILOG2 Long32 false 4 (-7) = 31.
Proof.
  assert (0 < 4 <= 8) as S4 by lia.
  assert (- 2 ^ (8 * 4 - 1) <= 0 < 1) as N0 by (simpl; lia).
  assert (- 2 ^ (8 * 4 - 1) <= -7 < 1) as N7 by (simpl; lia).
  split; [exact (proj1 (CAM_OS_ILOG2_below_one Long32 4 0 S4 N0))|].
  split; [exact (proj2 (CAM_OS_ILOG2_below_one Long32 4 0 S4 N0))|].
  split; [exact (proj1 (CAM_OS_ILOG2_below_one Long32 4 (-7) S4 N7))|].
  exact (proj2 (CAM_OS_ILOG2_below_one Long32 4 (-7) S4 N7)).
Defined.

(** *** Lowest set and clear bits *)

Lemma trailing_zeros_unique x t :
  0 < x -> 0 <= t -> Z.testbit x t = true ->
  (forall i, 0 <= i < t -> Z.testbit x i = false) ->
  trailing_zeros x = t.
Proof.
  intros Hx Ht Hb Hl. destruct (trailing_zeros_spec x Hx) as (H0 & Hb' & Hl').
  destruct (Z.lt_trichotomy (trailing_zeros x) t) as [Hlt|[E|Hgt]]; [|done|].
  - rewrite Hl in Hb' by lia. done.
  - rewrite Hl' in Hb by lia. done.
Qed.

(** X4.  With a 32-bit [long], [CAM_OS_FFS] is 0 on 0 and otherwise one
    more than the position of the lowest set bit: the result is between 0
    and 32, bit [result - 1] of [x] is set and every bit below it is clear. *)
Theorem CAM_OS_FFS_Long32_spec x :
  is_ulong Long32 x ->
  CAM_OS_FFS Long32 x = (if x =? 0 then 0 else 1 + trailing_zeros x) /\
  0 <= CAM_OS_FFS Long32 x <= 32 /\
  (x <> 0 ->
     Z.testbit x (CAM_OS_FFS Long32 x - 1) = true /\
     forall i, 0 <= i < CAM_OS_FFS Long32 x - 1 -> Z.testbit x i = false).
Proof.
  intros Hx. pose proof (CAM_OS_FFS_Long32 x Hx) as E. rewrite E.
  unfold is_ulong in Hx. cbn [CAM_OS_BITS_PER_LONG] in Hx.
  split; [done|].
  destruct (Z.eqb_spec x 0) as [->|Hne]; [split; [lia|done]|].
  destruct (land_neg_unsigned 32 x ltac:(lia)) as [_ Ht].
  split; [lia|]. intros _.
  replace (1 + trailing_zeros x - 1) with (trailing_zeros x) by lia.
  destruct (trailing_zeros_spec x ltac:(lia)) as (_ & Hb & Hl). done.
Qed.

Lemma CAM_OS_FFS_Long32_spec_witness :
  CAM_OS_FFS Long32 0x50 = 5 /\ Z.testbit 0x50 (CAM_OS_FFS Long32 0x50 - 1) = true.
Proof.
  assert (is_ulong Long32 0x50) as H by (unfold is_ulong; simpl; lia).
  split.
  - exact (proj1 (CAM_OS_FFS_Long32_spec 0x50 H)).
  - apply (proj2 (proj2 (CAM_OS_FFS_Long32_spec 0x50 H))). lia.
Defined.

(** X5.  With a 32-bit [long], [CAM_OS_FFZ] is the position of the lowest
    clear bit of a word that has one; on the word with all 32 bits set it
    returns [ULONG_MAX], which is no bit position. *)
Theorem CAM_OS_FFZ_Long32_spec x :
  is_ulong Long32 x ->
  (x = 2 ^ 32 - 1 -> CAM_OS_FFZ Long32 x = 2 ^ 32 - 1) /\
  (x <> 2 ^ 32 - 1 ->
     0 <= CAM_OS_FFZ Long32 x < 32 /\
     Z.testbit x (CAM_OS_FFZ Long32 x) = false /\
     forall i, 0 <= i < CAM_OS_FFZ Long32 x -> Z.testbit x i = true).
Proof.
  intros Hx. split; [intros ->; reflexivity|].
  intros Hne. apply CAM_OS_FFZ_Long32; done.
Qed.

Lemma CAM_OS_FFZ_Long32_spec_witness :
  0 <= CAM_OS_FFZ Long32 0x17 < 32 /\
  Z.testbit 0x17 (CAM_OS_FFZ Long32 0x17) = false /\
  CAM_OS_FFZ Long32 (2 ^ 32 - 1) = 2 ^ 32 - 1.
Proof.
  assert (is_ulong Long32 0x17) as H by (unfold is_ulong; simpl; lia).
  assert (is_ulong Long32 (2 ^ 32 - 1)) as H1 by (unfold is_ulong; simpl; lia).
  destruct (proj2 (CAM_OS_FFZ_Long32_spec 0x17 H)) as (Hr & Hb & _); [lia|].
  split; [exact Hr|]. split; [exact Hb|].
  apply (proj1 (CAM_OS_FFZ_Long32_spec (2 ^ 32 - 1) H1)). reflexivity.
Defined.

(** X6.  With a 64-bit [long], [CAM_OS_FFS] sees the low 32 bits of its
    argument only: it returns what the 32-bit function returns on the low
    word, hence 0 for every word whose set bits are all at position 32 or
    above. *)
Theorem CAM_OS_FFS_Long64_low_word x :
  is_ulong Long64 x ->
  CAM_OS_FFS Long64 x = CAM_OS_FFS Long32 (to_u32 x) /\
  CAM_OS_FFS Long64 x =
    (if to_u32 x =? 0 then 0 else 1 + trailing_zeros (to_u32 x)).
Proof.
  intros Hx. pose proof (to_u32_range x) as Hr.
  assert (is_ulong Long32 (to_u32 x)) as H32 by exact Hr.
  rewrite (CAM_OS_FFS_Long32 _ H32), (CAM_OS_FFS_Long64 _ Hx).
  unfold is_ulong in Hx. cbn [CAM_OS_BITS_PER_LONG] in Hx.
  assert (forall i, 0 <= i < 32 -> Z.testbit (to_u32 x) i = Z.testbit x i) as Hlow.
  { intros i Hi. unfold to_u32, to_unsigned. apply Z.mod_pow2_bits_low. lia. }
  enough ((if x =? 0 then 0 else if trailing_zeros x <? 32 then 1 + trailing_zeros x else 0) =
          (if to_u32 x =? 0 then 0 else 1 + trailing_zeros (to_u32 x))) by done.
  destruct (Z.eqb_spec x 0) as [->|Hne]; [reflexivity|].
  destruct (trailing_zeros_spec x ltac:(lia)) as (Ht0 & Hb & Hl).
  destruct (Z.ltb_spec (trailing_zeros x) 32) as [Hlt|Hge].
  - destruct (Z.eqb_spec (to_u32 x) 0) as [E0|Hn0].
    + rewrite <- Hlow, E0, Z.bits_0 in Hb by lia. done.
    + f_equal. symmetry. apply trailing_zeros_unique; [lia|done| |].
      * rewrite Hlow by lia. done.
      * intros i Hi. rewrite Hlow by lia. apply Hl. done.
  - destruct (Z.eqb_spec (to_u32 x) 0) as [E0|Hn0]; [done|].
    exfalso. apply Hn0. apply Z.bits_inj'. intros i Hi. rewrite Z.bits_0.
    destruct (Z.lt_ge_cases i 32).
    + rewrite Hlow by lia. apply Hl. lia.
    + unfold to_u32, to_unsigned. apply Z.mod_pow2_bits_high. lia.
Qed.

Lemma CAM_OS_FFS_Long64_low_word_witness :
  CAM_OS_FFS Long64 (2 ^ 40 + 2 ^ 3) = 4 /\ CAM_OS_FFS Long64 (2 ^ 40) = 0.
Proof.
  assert (is_ulong Long64 (2 ^ 40 + 2 ^ 3)) as H by (unfold is_ulong; simpl; lia).
  assert (is_ulong Long64 (2 ^ 40)) as H1 by (unfold is_ulong; simpl; lia).
  split.
  - exact (proj2 (CAM_OS_FFS_Long64_low_word (2 ^ 40 + 2 ^ 3) H)).
  - exact (proj2 (CAM_OS_FFS_Long64_low_word (2 ^ 40) H1)).
Defined.

(** *** Hash mixing: what is kept and what is lost *)

Lemma mul_mod_inverse M g ginv v v' :
  0 < M -> (g * ginv) mod M = 1 ->
  0 <= v < M -> 0 <= v' < M ->
  (v * g) mod M = (v' * g) mod M -> v = v'.
Proof.
  intros HM Hinv Hv Hv' E.
  assert (forall u, 0 <= u < M -> ((u * g) mod M * ginv) mod M = u) as Hrec.
  { intros u Hu. rewrite Z.mul_mod_idemp_l by lia.
    rewrite <- Z.mul_assoc, <- Z.mul_mod_idemp_r, Hinv by lia.
    rewrite Z.mul_1_r. apply Z.mod_small. done. }
  rewrite <- (Hrec v Hv), <- (Hrec v' Hv'), E. done.
Qed.

(** X7.  Asked for all the bits, the hashes lose nothing: the multipliers
    are odd, so [CAM_OS_HASH_64(., 64)] is injective on [u64] and
    [CAM_OS_HASH_32(., 32)] on [u32]. *)
Theorem CAM_OS_HASH_full_width_injective val val' :
  is_u64 val -> is_u64 val' -> val <> val' ->
  CAM_OS_HASH_64 val 64 <> CAM_OS_HASH_64 val' 64 /\
  (val < 2 ^ 32 -> val' < 2 ^ 32 -> CAM_OS_HASH_32 val 32 <> CAM_OS_HASH_32 val' 32).
Proof.
  unfold is_u64. intros Hv Hv' Hne. split.
  - rewrite !CAM_OS_HASH_64_value by lia.
    change (64 - 64) with 0. rewrite !Z.shiftr_0_r. intros [= E]. apply Hne.
    apply (mul_mod_inverse (2 ^ 64) 0x9e37fffffffc0001 0x6208001000040001 val val');
      done.
  - intros Hlt Hlt'. rewrite !CAM_OS_HASH_32_value by lia.
    change (32 - 32) with 0. rewrite !Z.shiftr_0_r. intros [= E]. apply Hne.
    apply (mul_mod_inverse (2 ^ 32) 0x9e370001 0x61c90001 val val'); try done; lia.
Qed.

Lemma CAM_OS_HASH_full_width_injective_witness :
  CAM_OS_HASH_64 7 64 <> CAM_OS_HASH_64 9 64 /\
  CAM_OS_HASH_32 7 32 <> CAM_OS_HASH_32 9 32.
Proof.
  assert (is_u64 7) as H7 by (unfold is_u64; simpl; lia).
  assert (is_u64 9) as H9 by (unfold is_u64; simpl; lia).
  assert (7 <> 9) as Hne by lia.
  split.
  - exact (proj1 (CAM_OS_HASH_full_width_injective 7 9 H7 H9 Hne)).
  - apply (proj2 (CAM_OS_HASH_full_width_injective 7 9 H7 H9 Hne)); simpl; lia.
Defined.

(** X8.  With a 32-bit [long], [CAM_OS_HASH_MIN] hashes the low 32 bits of
    the key whatever the size of the key: keys that differ by a multiple of
    [2^32] fall into the same bucket. *)
Theorem CAM_OS_HASH_MIN_Long32_low_word size key k bits :
  CAM_OS_HASH_MIN Long32 size (key + k * 2 ^ 32) bits = CAM_OS_HASH_MIN Long32 size key bits /\
  CAM_OS_HASH_MIN Long32 size key bits = CAM_OS_HASH_32 (to_u32 key) bits.
Proof.
  unfold CAM_OS_HASH_MIN, CAM_OS_HASH_LONG.
  assert (to_u32 (key + k * 2 ^ 32) = to_u32 key) as ->.
  { unfold to_u32, to_unsigned. apply Z.mod_add. done. }
  destruct (size <=? 4); done.
Qed.

(** *** ioctl numbers: injectivity, constructors, oversized operands *)

Lemma shl_u32_bits x k i :
  0 <= k -> 0 <= i ->
  Z.testbit (shl_u32 x k) i = (i <? 32) && Z.testbit x (i - k).
Proof.
  intros Hk Hi. unfold shl_u32, to_u32, to_unsigned.
  destruct (Z.ltb_spec i 32).
  - rewrite Z.mod_pow2_bits_low, Z.shiftl_spec by lia. done.
  - rewrite Z.mod_pow2_bits_high by lia. done.
Qed.

(** Bits of an ioctl number whose [size] operand is any non-negative
    value: the bits of [size] from 14 up run into the direction field. *)
Lemma CAM_OS_IOC_bits_wide dir type nr size i :
  0 <= dir < 2 ^ 2 -> 0 <= type < 2 ^ 8 -> 0 <= nr < 2 ^ 8 -> 0 <= size ->
  0 <= i ->
  Z.testbit (CAM_OS_IOC dir type nr size) i =
    if i <? 8 then Z.testbit nr i
    else if i <? 16 then Z.testbit type (i - 8)
    else if i <? 30 then Z.testbit size (i - 16)
    else if i <? 32 then Z.testbit dir (i - 30) || Z.testbit size (i - 16)
    else false.
Proof.
  intros Hd Ht Hn Hs Hi. unfold CAM_OS_IOC.
  change CAM_OS_IOC_DIRSHIFT with 30. change CAM_OS_IOC_TYPESHIFT with 8.
  change CAM_OS_IOC_NRSHIFT with 0. change CAM_OS_IOC_SIZESHIFT with 16.
  rewrite !Z.lor_spec, !shl_u32_bits by lia. rewrite Z.sub_0_r.
  destruct (Z.ltb_spec i 8); [|destruct (Z.ltb_spec i 16);
    [|destruct (Z.ltb_spec i 30); [|destruct (Z.ltb_spec i 32)]]].
  - destruct (Z.ltb_spec i 32); [|lia]. cbn [andb].
    rewrite (field_bit_out 2 dir), (field_bit_out 8 type) by lia.
    rewrite (Z.testbit_neg_r size) by lia. cbn [orb]. apply orb_false_r.
  - destruct (Z.ltb_spec i 32); [|lia]. cbn [andb].
    rewrite (field_bit_out 2 dir), (field_bit_out 8 nr) by lia.
    rewrite (Z.testbit_neg_r size) by lia. cbn [orb]. rewrite !orb_false_r. done.
  - destruct (Z.ltb_spec i 32); [|lia]. cbn [andb].
    rewrite (field_bit_out 2 dir), (field_bit_out 8 nr), (field_bit_out 8 type) by lia.
    done.
  - rewrite (field_bit_out 8 nr), (field_bit_out 8 type) by lia.
    cbn [andb orb]. rewrite !orb_false_r. done.
  - done.
Qed.

Lemma CAM_OS_IOC_range dir type nr size : 0 <= CAM_OS_IOC dir type nr size < 2 ^ 32.
Proof.
  assert (forall x k, 0 <= shl_u32 x k < 2 ^ 32) as Hr.
  { intros x k. unfold shl_u32. apply to_u32_range. }
  assert (0 <= CAM_OS_IOC dir type nr size) as H0.
  { unfold CAM_OS_IOC. repeat (apply Z.lor_nonneg; split); apply Hr. }
  split; [done|]. apply bits_below_range; [lia|done|].
  intros j Hj. unfold CAM_OS_IOC.
  rewrite !Z.lor_spec, !(field_bit_out 32 (shl_u32 _ _)); auto.
Qed.

Lemma decoder_bits v k w j :
  0 <= k -> 0 <= w -> 0 <= j ->
  Z.testbit (Z.land (Z.shiftr v k) (Z.shiftl 1 w - 1)) j = (j <? w) && Z.testbit v (j + k).
Proof.
  intros Hk Hw Hj.
  replace (Z.shiftl 1 w - 1) with (Z.ones w) by (rewrite Z.ones_equiv, Z.shiftl_1_l; lia).
  rewrite Z.land_spec, Z.shiftr_spec by done.
  destruct (Z.ltb_spec j w).
  - rewrite Z.ones_spec_low by lia. apply andb_true_r.
  - rewrite Z.ones_spec_high by lia. apply andb_false_r.
Qed.

Lemma decoder_range v k w :
  0 <= w -> 0 <= Z.land (Z.shiftr v k) (Z.shiftl 1 w - 1) < 2 ^ w.
Proof.
  intros Hw.
  replace (Z.shiftl 1 w - 1) with (Z.ones w) by (rewrite Z.ones_equiv, Z.shiftl_1_l; lia).
  rewrite Z.land_ones by done. apply Z.mod_pos_bound. apply Z.pow_pos_nonneg; lia.
Qed.

(** A 32-bit command word is the encoding of the fields decoded from it. *)
Lemma CAM_OS_IOC_of_decoded v :
  0 <= v < 2 ^ 32 ->
  CAM_OS_IOC (CAM_OS_IOC_DIR v) (CAM_OS_IOC_TYPE v) (CAM_OS_IOC_NR v) (CAM_OS_IOC_SIZE v) = v.
Proof.
  intros Hv. apply Z.bits_inj'. intros i Hi.
  unfold CAM_OS_IOC_DIR, CAM_OS_IOC_TYPE, CAM_OS_IOC_NR, CAM_OS_IOC_SIZE.
  unfold CAM_OS_IOC_DIRMASK, CAM_OS_IOC_TYPEMASK, CAM_OS_IOC_NRMASK, CAM_OS_IOC_SIZEMASK.
  change CAM_OS_IOC_DIRSHIFT with 30. change CAM_OS_IOC_TYPESHIFT with 8.
  change CAM_OS_IOC_NRSHIFT with 0. change CAM_OS_IOC_SIZESHIFT with 16.
  change CAM_OS_IOC_DIRBITS with 2. change CAM_OS_IOC_TYPEBITS with 8.
  change CAM_OS_IOC_NRBITS with 8. change CAM_OS_IOC_SIZEBITS with 14.
  rewrite CAM_OS_IOC_bits by (try apply decoder_range; lia).
  destruct (Z.ltb_spec i 8); [|destruct (Z.ltb_spec i 16); [|destruct (Z.ltb_spec i 30)]];
    rewrite decoder_bits by lia.
  - destruct (Z.ltb_spec i 8); [|lia]. cbn [andb]. f_equal. lia.
  - destruct (Z.ltb_spec (i - 8) 8); [|lia]. cbn [andb]. f_equal. lia.
  - destruct (Z.ltb_spec (i - 16) 14); [|lia]. cbn [andb]. f_equal. lia.
  - destruct (Z.ltb_spec (i - 30) 2).
    + cbn [andb]. f_equal. lia.
    + cbn [andb]. symmetry. apply (field_bit_out 32); lia.
Qed.

(** X9.  For fields within their widths, [CAM_OS_IOC] gives a 32-bit
    number that is rebuilt from its four decoded fields, and two commands
    are equal only if all four fields are. *)
Theorem CAM_OS_IOC_injective dir type nr size dir' type' nr' size' :
  0 <= dir < 2 ^ 2 -> 0 <= type < 2 ^ 8 -> 0 <= nr < 2 ^ 8 -> 0 <= size < 2 ^ 14 ->
  0 <= dir' < 2 ^ 2 -> 0 <= type' < 2 ^ 8 -> 0 <= nr' < 2 ^ 8 -> 0 <= size' < 2 ^ 14 ->
  0 <= CAM_OS_IOC dir type nr size < 2 ^ 32 /\
  CAM_OS_IOC (CAM_OS_IOC_DIR (CAM_OS_IOC dir type nr size))
             (CAM_OS_IOC_TYPE (CAM_OS_IOC dir type nr size))
             (CAM_OS_IOC_NR (CAM_OS_IOC dir type nr size))
             (CAM_OS_IOC_SIZE (CAM_OS_IOC dir type nr size)) =
    CAM_OS_IOC dir type nr size /\
  (CAM_OS_IOC dir type nr size = CAM_OS_IOC dir' type' nr' size' ->
   dir = dir' /\ type = type' /\ nr = nr' /\ size = size').
Proof.
  intros Hd Ht Hn Hs Hd' Ht' Hn' Hs'. split; [apply CAM_OS_IOC_range|].
  split; [apply CAM_OS_IOC_of_decoded, CAM_OS_IOC_range|].
  intros E.
  assert (forall i, 0 <= i ->
            Z.testbit (CAM_OS_IOC dir type nr size) i =
            Z.testbit (CAM_OS_IOC dir' type' nr' size') i) as Hb
    by (intros; rewrite E; done).
  assert (forall w x x', 0 <= w -> 0 <= x < 2 ^ w -> 0 <= x' < 2 ^ w ->
            (forall j, 0 <= j < w -> Z.testbit x j = Z.testbit x' j) -> x = x') as Hfield.
  { intros w x x' Hw Hx Hx' Hj. apply Z.bits_inj'. intros j Hj0.
    destruct (Z.lt_ge_cases j w); [apply Hj; lia|].
    rewrite !(field_bit_out w) by (try done; lia). done. }
  repeat split.
  - apply (Hfield 2); [lia|done|done|]. intros j Hj.
    specialize (Hb (j + 30) ltac:(lia)). rewrite !CAM_OS_IOC_bits in Hb by lia.
    destruct (Z.ltb_spec (j + 30) 8), (Z.ltb_spec (j + 30) 16), (Z.ltb_spec (j + 30) 30);
      try lia.
    replace (j + 30 - 30) with j in Hb by lia. done.
  - apply (Hfield 8); [lia|done|done|]. intros j Hj.
    specialize (Hb (j + 8) ltac:(lia)). rewrite !CAM_OS_IOC_bits in Hb by lia.
    destruct (Z.ltb_spec (j + 8) 8), (Z.ltb_spec (j + 8) 16); try lia.
    replace (j + 8 - 8) with j in Hb by lia. done.
  - apply (Hfield 8); [lia|done|done|]. intros j Hj.
    specialize (Hb j ltac:(lia)). rewrite !CAM_OS_IOC_bits in Hb by lia.
    destruct (Z.ltb_spec j 8); try lia. done.
  - apply (Hfield 14); [lia|done|done|]. intros j Hj.
    specialize (Hb (j + 16) ltac:(lia)). rewrite !CAM_OS_IOC_bits in Hb by lia.
    destruct (Z.ltb_spec (j + 16) 8), (Z.ltb_spec (j + 16) 16), (Z.ltb_spec (j + 16) 30);
      try lia.
    replace (j + 16 - 16) with j in Hb by lia. done.
Qed.

Lemma CAM_OS_IOC_injective_witness :
  0 <= CAM_OS_IOC 2 70 0x60 8 < 2 ^ 32 /\
  (CAM_OS_IOC 2 70 0x60 8 = CAM_OS_IOC 1 70 0x61 8 ->
   2 = 1 /\ 70 = 70 /\ 0x60 = 0x61 /\ 8 = 8).
Proof.
  assert (0 <= 2 < 2 ^ 2) as D2 by (simpl; lia).
  assert (0 <= 1 < 2 ^ 2) as D1 by (simpl; lia).
  assert (0 <= 70 < 2 ^ 8) as T by (simpl; lia).
  assert (0 <= 0x60 < 2 ^ 8) as N0 by (simpl; lia).
  assert (0 <= 0x61 < 2 ^ 8) as N1 by (simpl; lia).
  assert (0 <= 8 < 2 ^ 14) as S by (simpl; lia).
  pose proof (CAM_OS_IOC_injective 2 70 0x60 8 1 70 0x61 8 D2 T N0 S D1 T N1 S) as H.
  exact (conj (proj1 H) (proj2 (proj2 H))).
Defined.

(** X10.  A [size] that does not fit in 14 bits runs into the direction
    field: the decoded size is [size mod 2^14], the decoded direction is
    the given one with bits 14 and 15 of [size] or-ed in, type and number
    are intact.  So [CAM_OS_IOR] with a size of [2^14 + s] is the command
    [CAM_OS_IOWR] with size [s]. *)
Theorem CAM_OS_IOC_size_overflow dir type nr size :
  0 <= dir < 2 ^ 2 -> 0 <= type < 2 ^ 8 -> 0 <= nr < 2 ^ 8 -> 0 <= size ->
  CAM_OS_IOC_SIZE (CAM_OS_IOC dir type nr size) = size mod 2 ^ 14 /\
  CAM_OS_IOC_DIR (CAM_OS_IOC dir type nr size) = Z.lor dir ((size / 2 ^ 14) mod 2 ^ 2) /\
  CAM_OS_IOC_TYPE (CAM_OS_IOC dir type nr size) = type /\
  CAM_OS_IOC_NR (CAM_OS_IOC dir type nr size) = nr /\
  (size < 2 ^ 14 -> CAM_OS_IOR type nr (size + 2 ^ 14) = CAM_OS_IOWR type nr size).
Proof.
  intros Hd Ht Hn Hs.
  assert (0 <= size mod 2 ^ 14 < 2 ^ 14) by (apply Z.mod_pos_bound; lia).
  assert (0 <= (size / 2 ^ 14) mod 2 ^ 2 < 2 ^ 2) by (apply Z.mod_pos_bound; lia).
  unfold CAM_OS_IOC_DIR, CAM_OS_IOC_TYPE, CAM_OS_IOC_NR, CAM_OS_IOC_SIZE.
  unfold CAM_OS_IOC_DIRMASK, CAM_OS_IOC_TYPEMASK, CAM_OS_IOC_NRMASK, CAM_OS_IOC_SIZEMASK.
  change CAM_OS_IOC_DIRSHIFT with 30. change CAM_OS_IOC_TYPESHIFT with 8.
  change CAM_OS_IOC_NRSHIFT with 0. change CAM_OS_IOC_SIZESHIFT with 16.
  change CAM_OS_IOC_DIRBITS with 2. change CAM_OS_IOC_TYPEBITS with 8.
  change CAM_OS_IOC_NRBITS with 8. change CAM_OS_IOC_SIZEBITS with 14.
  split; [|split; [|split; [|split]]].
  - apply field_extract; try lia. intros i Hi.
    rewrite CAM_OS_IOC_bits_wide by lia.
    destruct (Z.ltb_spec i 8), (Z.ltb_spec i 16), (Z.ltb_spec i 30); try lia.
    rewrite Z.mod_pow2_bits_low by lia. done.
  - apply field_extract; try lia.
    { split; [apply Z.lor_nonneg; lia|]. apply bits_below_range; [lia|apply Z.lor_nonneg; lia|].
      intros j Hj. rewrite Z.lor_spec, (field_bit_out 2 dir) by lia.
      rewrite Z.mod_pow2_bits_high by lia. done. }
    intros i Hi. rewrite CAM_OS_IOC_bits_wide by lia.
    destruct (Z.ltb_spec i 8), (Z.ltb_spec i 16), (Z.ltb_spec i 30), (Z.ltb_spec i 32);
      try lia.
    rewrite Z.lor_spec, Z.mod_pow2_bits_low, Z.div_pow2_bits by lia.
    do 2 f_equal. lia.
  - apply field_extract; try lia. intros i Hi.
    rewrite CAM_OS_IOC_bits_wide by lia.
    destruct (Z.ltb_spec i 8), (Z.ltb_spec i 16); try lia. done.
  - apply field_extract; try lia. intros i Hi.
    rewrite CAM_OS_IOC_bits_wide by lia.
    destruct (Z.ltb_spec i 8); try lia. f_equal. lia.
  - intros Hlt. unfold CAM_OS_IOR, CAM_OS_IOWR, CAM_OS_IOC_TYPECHECK.
    change (Z.lor CAM_OS_IOC_READ CAM_OS_IOC_WRITE) with 3.
    change CAM_OS_IOC_READ with 2.
    apply Z.bits_inj'. intros i Hi.
    rewrite CAM_OS_IOC_bits_wide, CAM_OS_IOC_bits by lia.
    assert (forall j, 0 <= j -> Z.testbit (size + 2 ^ 14) j =
              if j <? 14 then Z.testbit size j else (j =? 14)) as Hbits.
    { intros j Hj. destruct (Z.ltb_spec j 14).
      - rewrite <- (Z.mod_pow2_bits_low (size + 2 ^ 14) 14 j) by lia.
        replace (size + 2 ^ 14) with (size + 1 * 2 ^ 14) by lia.
        rewrite Z.mod_add, Z.mod_small by lia. done.
      - replace j with ((j - 14) + 14) at 1 by lia.
        rewrite <- Z.div_pow2_bits by lia.
        replace (size + 2 ^ 14) with (size + 1 * 2 ^ 14) by lia.
        rewrite Z.div_add, Z.div_small by lia. cbn [Z.add].
        destruct (Z.eqb_spec j 14) as [->|]; [done|].
        apply (field_bit_out 1); [done|lia]. }
    destruct (Z.ltb_spec i 8), (Z.ltb_spec i 16), (Z.ltb_spec i 30), (Z.ltb_spec i 32);
      try lia; try done.
    + rewrite Hbits by lia. destruct (Z.ltb_spec (i - 16) 14); [done|lia].
    + rewrite Hbits by lia. destruct (Z.ltb_spec (i - 16) 14); [lia|].
      assert (i = 30 \/ i = 31) as [-> | ->] by lia; reflexivity.
    + symmetry. apply (field_bit_out 2); [done|lia].
Qed.

Lemma CAM_OS_IOC_size_overflow_witness :
  CAM_OS_IOC_SIZE (CAM_OS_IOC 2 70 1 (2 ^ 14 + 4)) = 4 /\
  CAM_OS_IOC_DIR (CAM_OS_IOC 2 70 1 (2 ^ 14 + 4)) = 3 /\
  CAM_OS_IOR 70 1 (4 + 2 ^ 14) = CAM_OS_IOWR 70 1 4.
Proof.
  assert (0 <= 2 < 2 ^ 2) as D2 by (simpl; lia).
  assert (0 <= 70 < 2 ^ 8) as T by (simpl; lia).
  assert (0 <= 1 < 2 ^ 8) as N by (simpl; lia).
  assert (0 <= 2 ^ 14 + 4) as S1 by (simpl; lia).
  assert (0 <= 4) as S2 by lia.
  pose proof (CAM_OS_IOC_size_overflow 2 70 1 (2 ^ 14 + 4) D2 T N S1) as (Hs & Hd & _).
  pose proof (CAM_OS_IOC_size_overflow 2 70 1 4 D2 T N S2) as (_ & _ & _ & _ & Hc).
  split; [exact Hs|]. split; [exact Hd|]. apply Hc. simpl; lia.
Defined.

Lemma ioc_decode dir type nr size :
  0 <= dir < 2 ^ 2 -> 0 <= type < 2 ^ 8 -> 0 <= nr < 2 ^ 8 -> 0 <= size < 2 ^ 14 ->
  CAM_OS_IOC_DIR (CAM_OS_IOC dir type nr size) = dir /\
  CAM_OS_IOC_SIZE (CAM_OS_IOC dir type nr size) = size.
Proof.
  intros Hd Ht Hn Hs.
  unfold CAM_OS_IOC_DIR, CAM_OS_IOC_SIZE, CAM_OS_IOC_DIRMASK, CAM_OS_IOC_SIZEMASK.
  change CAM_OS_IOC_DIRSHIFT with 30. change CAM_OS_IOC_SIZESHIFT with 16.
  change CAM_OS_IOC_DIRBITS with 2. change CAM_OS_IOC_SIZEBITS with 14.
  split; apply field_extract; try lia; intros i Hi; rewrite CAM_OS_IOC_bits by lia;
    destruct (Z.ltb_spec i 8), (Z.ltb_spec i 16), (Z.ltb_spec i 30); try lia; done.
Qed.

Lemma mask_then_shift v m k :
  0 <= k -> Z.shiftr (Z.land v (Z.shiftl m k)) k = Z.land (Z.shiftr v k) m.
Proof.
  intros Hk. rewrite Z.shiftr_land, Z.shiftr_shiftl_l by done.
  rewrite Z.sub_diag, Z.shiftl_0_r. done.
Qed.

Lemma land_pow2_value w k :
  0 <= k -> Z.land w (2 ^ k) = if Z.testbit w k then 2 ^ k else 0.
Proof.
  intros Hk. apply Z.bits_inj'. intros i Hi.
  rewrite Z.land_spec, Z.pow2_bits_eqb by done.
  destruct (Z.eqb_spec k i) as [<-|Hne].
  - destruct (Z.testbit w k); [rewrite Z.pow2_bits_true by done; done|].
    rewrite Z.bits_0. done.
  - rewrite andb_false_r. destruct (Z.testbit w k); [|rewrite Z.bits_0; done].
    rewrite Z.pow2_bits_false by lia. done.
Qed.

(** X11.  [CAM_OS_IO], [CAM_OS_IOR], [CAM_OS_IOW] and [CAM_OS_IOWR] decode
    to the directions none, read, write and read|write and to the size
    given (0 for [CAM_OS_IO]); masking a command with [CAM_OS_IOC_INOUT]
    or [CAM_OS_IOCSIZE_MASK] and shifting gives the same direction and size
    as the decoders, and [CAM_OS_IOC_IN] and [CAM_OS_IOC_OUT] test the
    write and the read bit of the direction. *)
Theorem CAM_OS_IOC_directions type nr size :
  0 <= type < 2 ^ 8 -> 0 <= nr < 2 ^ 8 -> 0 <= size < 2 ^ 14 ->
  (CAM_OS_IOC_DIR (CAM_OS_IO type nr) = CAM_OS_IOC_NONE /\
   CAM_OS_IOC_SIZE (CAM_OS_IO type nr) = 0) /\
  (CAM_OS_IOC_DIR (CAM_OS_IOR type nr size) = CAM_OS_IOC_READ /\
   CAM_OS_IOC_SIZE (CAM_OS_IOR type nr size) = size) /\
  (CAM_OS_IOC_DIR (CAM_OS_IOW type nr size) = CAM_OS_IOC_WRITE /\
   CAM_OS_IOC_SIZE (CAM_OS_IOW type nr size) = size) /\
  (CAM_OS_IOC_DIR (CAM_OS_IOWR type nr size) = Z.lor CAM_OS_IOC_READ CAM_OS_IOC_WRITE /\
   CAM_OS_IOC_SIZE (CAM_OS_IOWR type nr size) = size) /\
  (forall dir, 0 <= dir < 2 ^ 2 ->
     Z.shiftr (Z.land (CAM_OS_IOC dir type nr size) CAM_OS_IOC_INOUT) CAM_OS_IOC_DIRSHIFT = dir /\
     Z.shiftr (Z.land (CAM_OS_IOC dir type nr size) CAM_OS_IOCSIZE_MASK) CAM_OS_IOCSIZE_SHIFT
       = size /\
     Z.land (CAM_OS_IOC dir type nr size) CAM_OS_IOC_IN =
       (if Z.testbit dir 0 then CAM_OS_IOC_IN else 0) /\
     Z.land (CAM_OS_IOC dir type nr size) CAM_OS_IOC_OUT =
       (if Z.testbit dir 1 then CAM_OS_IOC_OUT else 0)).
Proof.
  intros Ht Hn Hs. unfold CAM_OS_IO, CAM_OS_IOR, CAM_OS_IOW, CAM_OS_IOWR, CAM_OS_IOC_TYPECHECK.
  change (Z.lor CAM_OS_IOC_READ CAM_OS_IOC_WRITE) with 3.
  change CAM_OS_IOC_READ with 2. change CAM_OS_IOC_WRITE with 1.
  change CAM_OS_IOC_NONE with 0.
  split; [apply ioc_decode; lia|]. split; [apply ioc_decode; lia|].
  split; [apply ioc_decode; lia|]. split; [apply ioc_decode; lia|].
  intros dir Hd. destruct (ioc_decode dir type nr size Hd Ht Hn Hs) as [Ed Es].
  split.
  - change CAM_OS_IOC_INOUT with (Z.shiftl CAM_OS_IOC_DIRMASK CAM_OS_IOC_DIRSHIFT).
    rewrite mask_then_shift by done. exact Ed.
  - split.
    + unfold CAM_OS_IOCSIZE_MASK, CAM_OS_IOCSIZE_SHIFT.
      rewrite mask_then_shift by done. exact Es.
    + change CAM_OS_IOC_IN with (2 ^ 30). change CAM_OS_IOC_OUT with (2 ^ 31).
      rewrite !land_pow2_value, !CAM_OS_IOC_bits by lia. done.
Qed.

Lemma CAM_OS_IOC_directions_witness :
  CAM_OS_IOC_DIR (CAM_OS_IOR 70 0x60 8) = CAM_OS_IOC_READ /\
  CAM_OS_IOC_DIR (CAM_OS_IOW 70 0x60 8) = CAM_OS_IOC_WRITE /\
  CAM_OS_IOC_SIZE (CAM_OS_IOWR 70 0x60 8) = 8.
Proof.
  assert (0 <= 70 < 2 ^ 8) as T by (simpl; lia).
  assert (0 <= 0x60 < 2 ^ 8) as N by (simpl; lia).
  assert (0 <= 8 < 2 ^ 14) as S by (simpl; lia).
  pose proof (CAM_OS_IOC_directions 70 0x60 8 T N S) as (_ & (Hr & _) & (Hw & _) & (_ & Hs) & _).
  split; [exact Hr|]. split; [exact Hw|exact Hs].
Defined.

(** *** Bitmaps: single-bit assignments *)

Lemma bit_in_array_word cfg (addr : bitmap) nr :
  bit_in_array cfg addr nr ->
  exists w, load_word addr (nr / CAM_OS_BITS_PER_LONG cfg) = Some w.
Proof.
  intros [Hn Hlt]. pose proof (BPL_pos cfg) as HW.
  assert (0 <= nr / CAM_OS_BITS_PER_LONG cfg) by (apply Z.div_pos; lia).
  assert (nr / CAM_OS_BITS_PER_LONG cfg < Z.of_nat (length addr)).
  { apply Z.div_lt_upper_bound; lia. }
  destruct (lookup_lt_is_Some_2 addr (Z.to_nat (nr / CAM_OS_BITS_PER_LONG cfg))) as [w Hw];
    [lia|].
  exists w. apply load_word_Some. done.
Qed.

Lemma bit_assigned_store cfg (addr : bitmap) nr w w' b :
  0 <= nr -> bitmap_wf cfg addr ->
  load_word addr (nr / CAM_OS_BITS_PER_LONG cfg) = Some w ->
  is_ulong cfg w' ->
  (forall j, 0 <= j < CAM_OS_BITS_PER_LONG cfg ->
     Z.testbit w' j = if j =? nr mod CAM_OS_BITS_PER_LONG cfg then b else Z.testbit w j) ->
  bit_assigned cfg addr nr b (<[Z.to_nat (nr / CAM_OS_BITS_PER_LONG cfg) := w']> addr).
Proof.
  intros Hnr Hwf Hw Hw' Hbits.
  pose proof (bitmap_bit_store cfg addr nr w w' b Hnr Hw Hbits) as Hst.
  split; [done|]. split.
  { intros m Hm. rewrite !CAM_OS_TEST_BIT_bitmap_bit, Hst by done.
    destruct (m =? nr); done. }
  split; [apply bitmap_wf_insert; done | apply length_insert].
Qed.

Lemma lxor_pow2_bits w k j :
  0 <= k -> 0 <= j ->
  Z.testbit (Z.lxor w (2 ^ k)) j = if j =? k then negb (Z.testbit w j) else Z.testbit w j.
Proof.
  intros Hk Hj. rewrite Z.lxor_spec, Z.pow2_bits_eqb by done.
  rewrite (Z.eqb_sym k j). destruct (j =? k); [apply xorb_true_r | apply xorb_false_r].
Qed.

Lemma lxor_pow2_range W w k :
  0 <= k < W -> 0 <= w < 2 ^ W -> 0 <= Z.lxor w (2 ^ k) < 2 ^ W.
Proof.
  intros Hk Hw. assert (0 <= Z.lxor w (2 ^ k)).
  { apply Z.lxor_nonneg. split; intros _; [apply Z.pow_nonneg|]; lia. }
  split; [done|]. apply bits_below_range; [lia|done|].
  intros j Hj. rewrite lxor_pow2_bits by lia.
  destruct (Z.eqb_spec j k); [lia|]. apply (field_bit_out W); [done|lia].
Qed.

(** The three plain bit operations, each as the assignment it performs. *)
Lemma bit_ops_assign cfg (addr : bitmap) nr :
  bitmap_wf cfg addr -> bit_in_array cfg addr nr ->
  exists old,
    bitmap_bit cfg addr nr = Some old /\
    (exists a, CAM_OS_SET_BIT cfg nr addr = Some a /\ bit_assigned cfg addr nr true a) /\
    (exists a, CAM_OS_CLEAR_BIT cfg nr addr = Some a /\ bit_assigned cfg addr nr false a) /\
    (exists a, CAM_OS_CHANGE_BIT cfg nr addr = Some a /\
               bit_assigned cfg addr nr (negb old) a) /\
    (exists a, CAM_OS_TEST_AND_CHANGE_BIT cfg nr addr = Some (Z.b2z old, a) /\
               CAM_OS_CHANGE_BIT cfg nr addr = Some a).
Proof.
  intros Hwf Hin. pose proof (BPL_pos cfg) as HW.
  destruct (bit_in_array_word cfg addr nr Hin) as [w Hw]. destruct Hin as [Hnr _].
  pose proof (bitmap_wf_lookup cfg addr _ w Hwf Hw) as Hr. unfold is_ulong in Hr.
  pose proof (Z.mod_pos_bound nr _ HW) as Hk.
  exists (Z.testbit w (nr mod CAM_OS_BITS_PER_LONG cfg)).
  split. { unfold bitmap_bit. rewrite Hw. done. }
  unfold CAM_OS_SET_BIT, CAM_OS_CLEAR_BIT, CAM_OS_CHANGE_BIT, CAM_OS_TEST_AND_CHANGE_BIT,
    store_word.
  rewrite CAM_OS_BIT_MASK_nonneg, CAM_OS_BIT_WORD_nonneg by lia.
  cbn [mbind option_bind]. rewrite Hw. cbn [mbind option_bind].
  split; [|split; [|split]].
  - eexists. split; [done|]. apply (bit_assigned_store cfg addr nr w); [lia|done|done|..].
    + apply lor_pow2_range; lia.
    + intros j Hj. apply lor_pow2_bits; lia.
  - eexists. split; [done|]. unfold to_ulong. rewrite land_lnot_unsigned by lia.
    apply (bit_assigned_store cfg addr nr w); [lia|done|done|..].
    + apply ldiff_range; lia.
    + intros j Hj. apply ldiff_pow2_bits; lia.
  - eexists. split; [done|]. apply (bit_assigned_store cfg addr nr w); [lia|done|done|..].
    + apply lxor_pow2_range; lia.
    + intros j Hj. rewrite lxor_pow2_bits by lia.
      destruct (Z.eqb_spec j (nr mod CAM_OS_BITS_PER_LONG cfg)) as [->|]; done.
  - eexists. split; [|done]. rewrite land_pow2_test by lia.
    destruct (Z.testbit w _); done.
Qed.

(** Two well-formed bitmaps of the same length with the same bits are the
    same array. *)
Lemma bitmap_ext cfg (a b : bitmap) :
  bitmap_wf cfg a -> bitmap_wf cfg b -> length a = length b ->
  (forall m, 0 <= m -> bitmap_bit cfg a m = bitmap_bit cfg b m) ->
  a = b.
Proof.
  intros Ha Hb Hlen Hbits. pose proof (BPL_pos cfg) as HW.
  set (W := CAM_OS_BITS_PER_LONG cfg) in *.
  apply list_eq. intros i.
  destruct (a !! i) as [w|] eqn:Ea.
  - destruct (lookup_lt_is_Some_2 b i) as [w' Eb].
    { rewrite <- Hlen. apply lookup_lt_is_Some_1. eauto. }
    rewrite Eb. f_equal.
    assert (is_ulong cfg w) as Hw by (unfold bitmap_wf in Ha; rewrite Forall_lookup in Ha; eauto).
    assert (is_ulong cfg w') as Hw' by (unfold bitmap_wf in Hb; rewrite Forall_lookup in Hb; eauto).
    unfold is_ulong in *. fold W in Hw, Hw'.
    apply Z.bits_inj'. intros j Hj.
    destruct (Z.lt_ge_cases j W) as [Hlt|Hge].
    + specialize (Hbits (Z.of_nat i * W + j) ltac:(nia)).
      unfold bitmap_bit, load_word in Hbits. fold W in Hbits.
      assert ((Z.of_nat i * W + j) / W = Z.of_nat i) as Eq.
      { rewrite Z.add_comm, Z.div_add by lia. rewrite Z.div_small by lia. lia. }
      assert ((Z.of_nat i * W + j) mod W = j) as Em.
      { rewrite Z.add_comm, Z.mod_add by lia. apply Z.mod_small. lia. }
      rewrite Eq, Em in Hbits. destruct (Z.leb_spec 0 (Z.of_nat i)); [|lia].
      rewrite Nat2Z.id, Ea, Eb in Hbits. cbn in Hbits. congruence.
    + rewrite !(field_bit_out W) by (try done; lia). done.
  - symmetry. apply lookup_ge_None. rewrite <- Hlen. apply lookup_ge_None. done.
Qed.

Lemma bit_assigned_in_array cfg addr nr b a m :
  bit_assigned cfg addr nr b a -> bit_in_array cfg addr m -> bit_in_array cfg a m.
Proof. intros (_ & _ & _ & Hl) Hin. unfold bit_in_array in *. rewrite Hl. done. Qed.

(** X12.  [CAM_OS_BITS_TO_LONGS(nr)] is the least number of [long]s that
    hold [nr] bits, so every bit index below [nr] lies within an array
    declared by [CAM_OS_DECLARE_BITMAP(name, nr)]. *)
Theorem CAM_OS_BITS_TO_LONGS_ceiling cfg nr :
  0 <= nr <= 2 ^ 31 - CAM_OS_BITS_PER_LONG cfg ->
  0 <= CAM_OS_BITS_TO_LONGS cfg nr /\
  CAM_OS_BITS_PER_LONG cfg * (CAM_OS_BITS_TO_LONGS cfg nr - 1) < nr
    <= CAM_OS_BITS_PER_LONG cfg * CAM_OS_BITS_TO_LONGS cfg nr /\
  (forall addr : bitmap,
     Z.of_nat (length addr) = CAM_OS_BITS_TO_LONGS cfg nr ->
     forall i, 0 <= i < nr -> bit_in_array cfg addr i).
Proof.
  intros Hn. pose proof (BPL_pos cfg) as HW.
  unfold CAM_OS_BITS_TO_LONGS, CAM_OS_DIV_ROUND_UP.
  rewrite Z.quot_div_nonneg by lia.
  set (W := CAM_OS_BITS_PER_LONG cfg) in *.
  pose proof (Z.div_mod (nr + W - 1) W ltac:(lia)) as Hdm.
  pose proof (Z.mod_pos_bound (nr + W - 1) W HW) as Hm.
  assert (0 <= (nr + W - 1) / W) by (apply Z.div_pos; lia).
  split; [done|]. split; [nia|].
  intros addr Hlen i Hi. unfold bit_in_array. fold W. rewrite Hlen. nia.
Qed.

Lemma CAM_OS_BITS_TO_LONGS_ceiling_witness :
  CAM_OS_BITS_PER_LONG Long32 * (CAM_OS_BITS_TO_LONGS Long32 33 - 1) < 33
    <= CAM_OS_BITS_PER_LONG Long32 * CAM_OS_BITS_TO_LONGS Long32 33.
Proof.
  apply (CAM_OS_BITS_TO_LONGS_ceiling Long32 33). simpl. lia.
Defined.

Ltac bit_cases :=
  repeat match goal with
         | |- context [?a =? ?b] => destruct (Z.eqb_spec a b); subst
         | H : context [?a =? ?b] |- _ => destruct (Z.eqb_spec a b); subst
         end; try done; try lia.

(** X13.  On a bit of the array, [CAM_OS_SET_BIT] sets and
    [CAM_OS_CLEAR_BIT] clears that bit and leave every other bit as it was;
    either is idempotent, the later of the two wins, and the bitmaps they
    leave are those that [CAM_OS_TEST_AND_SET_BIT] and
    [CAM_OS_TEST_AND_CLEAR_BIT] leave. *)
Theorem CAM_OS_SET_CLEAR_BIT_spec cfg (addr : bitmap) nr :
  bitmap_wf cfg addr -> bit_in_array cfg addr nr ->
  exists s c,
    CAM_OS_SET_BIT cfg nr addr = Some s /\ bit_assigned cfg addr nr true s /\
    CAM_OS_CLEAR_BIT cfg nr addr = Some c /\ bit_assigned cfg addr nr false c /\
    CAM_OS_SET_BIT cfg nr s = Some s /\ CAM_OS_CLEAR_BIT cfg nr c = Some c /\
    CAM_OS_CLEAR_BIT cfg nr s = Some c /\ CAM_OS_SET_BIT cfg nr c = Some s /\
    snd <$> CAM_OS_TEST_AND_SET_BIT cfg nr addr = Some s /\
    snd <$> CAM_OS_TEST_AND_CLEAR_BIT cfg nr addr = Some c.
Proof.
  intros Hwf Hin.
  destruct (bit_ops_assign cfg addr nr Hwf Hin) as (old & _ & (s & Es & Hs) & (c & Ec & Hc) & _).
  exists s, c.
  assert (bitmap_wf cfg s /\ bitmap_wf cfg c) as [Hwfs Hwfc]
    by (destruct Hs as (_ & _ & ? & _), Hc as (_ & _ & ? & _); done).
  pose proof (bit_assigned_in_array _ _ _ _ _ nr Hs Hin) as Hins.
  pose proof (bit_assigned_in_array _ _ _ _ _ nr Hc Hin) as Hinc.
  destruct (bit_ops_assign cfg s nr Hwfs Hins) as (_ & _ & (ss & Ess & Hss) & (sc & Esc & Hsc) & _).
  destruct (bit_ops_assign cfg c nr Hwfc Hinc) as (_ & _ & (cs & Ecs & Hcs) & (cc & Ecc & Hcc) & _).
  assert (forall x y b b' z,
            bit_assigned cfg addr nr b x -> bit_assigned cfg x nr b' y ->
            bit_assigned cfg addr nr b' z -> y = z) as Hsame.
  { intros x y b b' z (Hx & _ & Hwx & Hlx) (Hy & _ & Hwy & Hly) (Hz & _ & Hwz & Hlz).
    apply (bitmap_ext cfg); [done|done|congruence|].
    intros m Hm. rewrite Hy, Hz, Hx by done. bit_cases. }
  split; [done|]. split; [done|]. split; [done|]. split; [done|].
  split; [rewrite Ess; f_equal; exact (Hsame s ss true true s Hs Hss Hs)|].
  split; [rewrite Ecc; f_equal; exact (Hsame c cc false false c Hc Hcc Hc)|].
  split; [rewrite Esc; f_equal; exact (Hsame s sc true false c Hs Hsc Hc)|].
  split; [rewrite Ecs; f_equal; exact (Hsame c cs false true s Hc Hcs Hs)|].
  unfold CAM_OS_TEST_AND_SET_BIT, CAM_OS_TEST_AND_CLEAR_BIT.
  unfold CAM_OS_SET_BIT in Es. unfold CAM_OS_CLEAR_BIT in Ec.
  destruct (CAM_OS_BIT_MASK cfg nr) as [mask|]; [|done]. cbn [mbind option_bind] in *.
  destruct (load_word addr (CAM_OS_BIT_WORD cfg nr)) as [w|]; [|done].
  cbn [mbind option_bind] in *. rewrite Es, Ec. done.
Qed.

Lemma CAM_OS_SET_CLEAR_BIT_spec_witness :
  exists s c,
    CAM_OS_SET_BIT Long32 34 [5; 2] = Some s /\ bit_assigned Long32 [5; 2] 34 true s /\
    CAM_OS_CLEAR_BIT Long32 34 [5; 2] = Some c /\ bit_assigned Long32 [5; 2] 34 false c /\
    CAM_OS_SET_BIT Long32 34 s = Some s /\ CAM_OS_CLEAR_BIT Long32 34 c = Some c /\
    CAM_OS_CLEAR_BIT Long32 34 s = Some c /\ CAM_OS_SET_BIT Long32 34 c = Some s /\
    snd <$> CAM_OS_TEST_AND_SET_BIT Long32 34 [5; 2] = Some s /\
    snd <$> CAM_OS_TEST_AND_CLEAR_BIT Long32 34 [5; 2] = Some c.
Proof.
  apply (CAM_OS_SET_CLEAR_BIT_spec Long32 [5; 2] 34).
  - unfold bitmap_wf, is_ulong. repeat constructor; simpl; lia.
  - unfold bit_in_array. simpl. lia.
Defined.

(** X14.  On a bit of the array, [CAM_OS_CHANGE_BIT] inverts that bit and
    leaves every other bit as it was; [CAM_OS_TEST_AND_CHANGE_BIT] leaves
    the same bitmap and returns the old bit; changing the bit twice gives
    the bitmap back. *)
Theorem CAM_OS_CHANGE_BIT_involution cfg (addr : bitmap) nr :
  bitmap_wf cfg addr -> bit_in_array cfg addr nr ->
  exists old t,
    bitmap_bit cfg addr nr = Some old /\
    CAM_OS_CHANGE_BIT cfg nr addr = Some t /\
    bit_assigned cfg addr nr (negb old) t /\
    CAM_OS_TEST_AND_CHANGE_BIT cfg nr addr = Some (Z.b2z old, t) /\
    CAM_OS_CHANGE_BIT cfg nr t = Some addr.
Proof.
  intros Hwf Hin.
  destruct (bit_ops_assign cfg addr nr Hwf Hin)
    as (old & Hold & _ & _ & (t & Et & Ht) & (t' & Et' & Et'')).
  assert (t' = t) as -> by congruence.
  exists old, t. split; [done|]. split; [done|]. split; [done|]. split; [done|].
  assert (bitmap_wf cfg t) as Hwft by (destruct Ht as (_ & _ & ? & _); done).
  pose proof (bit_assigned_in_array _ _ _ _ _ nr Ht Hin) as Hint.
  destruct (bit_ops_assign cfg t nr Hwft Hint) as (old' & Hold' & _ & _ & (u & Eu & Hu) & _).
  rewrite Eu. f_equal.
  destruct Ht as (Hbt & _ & _ & Hlt), Hu as (Hbu & _ & Hwu & Hlu).
  assert (old' = negb old) as ->.
  { destruct Hin as [Hn _]. rewrite Hbt, Z.eqb_refl in Hold' by done. congruence. }
  apply (bitmap_ext cfg); [done|done|congruence|].
  intros m Hm. rewrite Hbu, Hbt by done.
  destruct (Z.eqb_spec m nr) as [->|]; [|done]. rewrite negb_involutive. done.
Qed.

Lemma CAM_OS_CHANGE_BIT_involution_witness :
  exists old t,
    bitmap_bit Long32 [5; 2] 33 = Some old /\
    CAM_OS_CHANGE_BIT Long32 33 [5; 2] = Some t /\
    bit_assigned Long32 [5; 2] 33 (negb old) t /\
    CAM_OS_TEST_AND_CHANGE_BIT Long32 33 [5; 2] = Some (Z.b2z old, t) /\
    CAM_OS_CHANGE_BIT Long32 33 t = Some [5; 2].
Proof.
  apply (CAM_OS_CHANGE_BIT_involution Long32 [5; 2] 33).
  - unfold bitmap_wf, is_ulong. repeat constructor; simpl; lia.
  - unfold bit_in_array. simpl. lia.
Defined.

Lemma run_bit_op_assign cfg op (addr : bitmap) nr :
  bitmap_wf cfg addr -> bit_in_array cfg addr nr ->
  exists old r,
    bitmap_bit cfg addr nr = Some old /\
    run_bit_op cfg op nr addr = Some r /\
    bit_assigned cfg addr nr (bit_op_result op old) r.
Proof.
  intros Hwf Hin.
  destruct (bit_ops_assign cfg addr nr Hwf Hin)
    as (old & Hold & (s & Es & Hs) & (c & Ec & Hc) & (t & Et & Ht) & _).
  exists old. destruct op; cbn [run_bit_op bit_op_result]; eauto.
Qed.

(** X15.  Any two of [CAM_OS_SET_BIT], [CAM_OS_CLEAR_BIT] and
    [CAM_OS_CHANGE_BIT] on two different bits of the array commute, also
    when the two bits are in the same word. *)
Theorem bit_ops_commute cfg op1 op2 (addr : bitmap) a b :
  bitmap_wf cfg addr -> bit_in_array cfg addr a -> bit_in_array cfg addr b -> a <> b ->
  exists r,
    run_bit_op cfg op1 a addr ≫= run_bit_op cfg op2 b = Some r /\
    run_bit_op cfg op2 b addr ≫= run_bit_op cfg op1 a = Some r.
Proof.
  intros Hwf Ha Hb Hne.
  destruct (run_bit_op_assign cfg op1 addr a Hwf Ha) as (oa & x & Hoa & Ex & Hx).
  destruct (run_bit_op_assign cfg op2 addr b Hwf Hb) as (ob & y & Hob & Ey & Hy).
  assert (bitmap_wf cfg x) as Hwx by (destruct Hx as (_ & _ & ? & _); done).
  assert (bitmap_wf cfg y) as Hwy by (destruct Hy as (_ & _ & ? & _); done).
  pose proof (bit_assigned_in_array _ _ _ _ _ b Hx Hb) as Hbx.
  pose proof (bit_assigned_in_array _ _ _ _ _ a Hy Ha) as Hay.
  destruct (run_bit_op_assign cfg op2 x b Hwx Hbx) as (ob' & xy & Hob' & Exy & Hxy).
  destruct (run_bit_op_assign cfg op1 y a Hwy Hay) as (oa' & yx & Hoa' & Eyx & Hyx).
  destruct Hx as (Hx & _ & _ & Hlx), Hy as (Hy & _ & _ & Hly).
  destruct Hxy as (Hxy & _ & Hwxy & Hlxy), Hyx as (Hyx & _ & Hwyx & Hlyx).
  destruct Ha as [Ha0 _], Hb as [Hb0 _].
  assert (ob' = ob) as ->.
  { rewrite Hx in Hob' by done. destruct (Z.eqb_spec b a); [lia|]. congruence. }
  assert (oa' = oa) as ->.
  { rewrite Hy in Hoa' by done. destruct (Z.eqb_spec a b); [lia|]. congruence. }
  exists xy. rewrite Ex, Ey. cbn [mbind option_bind]. split; [done|].
  rewrite Eyx. f_equal. apply (bitmap_ext cfg); [done|done|congruence|].
  intros m Hm. rewrite Hyx, Hxy, Hx, Hy by done. bit_cases.
Qed.

Lemma bit_ops_commute_witness :
  exists r,
    CAM_OS_SET_BIT Long32 3 [5; 2] ≫= CAM_OS_CHANGE_BIT Long32 2 = Some r /\
    CAM_OS_CHANGE_BIT Long32 2 [5; 2] ≫= CAM_OS_SET_BIT Long32 3 = Some r.
Proof.
  apply (bit_ops_commute Long32 BitSet BitChange [5; 2] 3 2).
  - unfold bitmap_wf, is_ulong. repeat constructor; simpl; lia.
  - unfold bit_in_array. simpl. lia.
  - unfold bit_in_array. simpl. lia.
  - lia.
Defined.

(** *** Circular lists as sequences *)

Section segments.
Context (f : Z -> option Z).

Lemma seg_first a l b : seg f a l b -> f a = Some (hd b l).
Proof. destruct l; cbn; tauto. Qed.

Lemma seg_app a l1 x l2 b :
  seg f a (l1 ++ x :: l2) b <-> seg f a l1 x /\ seg f x l2 b.
Proof.
  revert a. induction l1 as [|y l1 IH]; intros a; cbn; [tauto|].
  rewrite IH. tauto.
Qed.

Lemma seg_snoc a l x b : seg f a (l ++ [x]) b <-> seg f a l x /\ f x = Some b.
Proof. apply seg_app. Qed.

Lemma seg_ext g a l b :
  (forall p, p ∈ a :: l -> g p = f p) -> seg f a l b -> seg g a l b.
Proof.
  revert a. induction l as [|x l IH]; intros a Hg; cbn [seg].
  - intros <-. apply Hg. set_solver.
  - intros [Ha Hs]. split; [rewrite Hg; [done|set_solver]|].
    apply IH; [|done]. intros p Hp. apply Hg. set_solver.
Qed.

(** The part of a segment after its first node, entered from [p]. *)
Lemma seg_redirect g x p l b :
  g p = Some (hd b l) -> (forall q, q ∈ l -> g q = f q) ->
  seg f x l b -> seg g p l b.
Proof.
  destruct l as [|y l]; cbn [seg hd]; [done|].
  intros Hp Hg [_ Hs]. split; [done|]. eapply seg_ext; [|done]. done.
Qed.

End segments.

(** Which end of a list a node is next to. *)
Lemma rev_case (l : list Z) : l = [] \/ exists l' p, l = l' ++ [p].
Proof.
  destruct (reverse l) as [|p r] eqn:E.
  - left. apply (f_equal reverse) in E. rewrite reverse_involutive in E. done.
  - right. exists (reverse r), p. apply (f_equal reverse) in E.
    rewrite reverse_involutive, reverse_cons in E. done.
Qed.

(** Insertion of [new] after [a], on a pair of field maps [A] (forward)
    and [B] (backward). *)
Lemma seg_insert_after (A B A' B' : Z -> option Z) a l new :
  seg A a l a -> seg B a (reverse l) a -> NoDup (a :: l) -> new ∉ a :: l ->
  (forall q, A' q = if decide (q = a) then Some new
                    else if decide (q = new) then Some (hd a l) else A q) ->
  (forall q, B' q = if decide (q = new) then Some a
                    else if decide (q = hd a l) then Some new else B q) ->
  seg A' a (new :: l) a /\ seg B' a (reverse (new :: l)) a.
Proof.
  intros HA HB Hnd Hnew EA EB.
  apply not_elem_of_cons in Hnew as [Hna Hnl].
  apply NoDup_cons in Hnd as [Ha Hnd]. split.
  - cbn [seg]. split; [rewrite EA, decide_True by done; done|].
    apply (seg_redirect A A' a new l a).
    + rewrite EA, decide_False, decide_True by done. done.
    + intros q Hq. rewrite EA, !decide_False; [done| |]; congruence.
    + done.
  - rewrite reverse_cons. apply seg_snoc. split.
    + destruct l as [|x l]; cbn [hd] in *.
      * rewrite reverse_nil. cbn [seg].
        rewrite EB, decide_False, decide_True by done. done.
      * rewrite reverse_cons in *. apply seg_snoc in HB as [HB Hx]. apply seg_snoc.
        apply NoDup_cons in Hnd as [Hx' Hnd].
        apply not_elem_of_cons in Ha as [Hax Hal].
        apply not_elem_of_cons in Hnl as [Hnx Hnl].
        split.
        -- eapply seg_ext; [|exact HB]. intros p Hp.
           assert (p = a \/ p ∈ l) as Hp'.
           { apply elem_of_cons in Hp as [->|Hp]; [by left|].
             right. apply elem_of_reverse. done. }
           rewrite EB, !decide_False; [done| |].
           ++ intros ->. destruct Hp'; [congruence|done].
           ++ intros ->. destruct Hp'; [congruence|done].
        -- rewrite EB, decide_False, decide_True; [done|done|]. congruence.
    + rewrite EB, decide_True by done. done.
Qed.

(** Removal of [x], on one field map: the node before [x] is made to
    point at the node after it. *)
Lemma seg_remove (A A' : Z -> option Z) a l1 x l2 :
  seg A a (l1 ++ x :: l2) a -> NoDup (a :: l1 ++ x :: l2) ->
  A' (hd a (reverse l1)) = Some (hd a l2) ->
  (forall q, q ∈ a :: l1 ++ l2 -> q <> hd a (reverse l1) -> A' q = A q) ->
  seg A' a (l1 ++ l2) a.
Proof.
  intros HA Hnd Hp Hframe. apply seg_app in HA as [H1 H2].
  apply NoDup_cons in Hnd as [Ha Hnd].
  apply NoDup_app in Hnd as (Hnd1 & Hd & Hnd2).
  apply NoDup_cons in Hnd2 as [Hx2 Hnd2].
  rewrite not_elem_of_app, not_elem_of_cons in Ha. destruct Ha as (Ha1 & Hax & Ha2).
  destruct (rev_case l1) as [->|(l1' & p & ->)].
  - rewrite reverse_nil in *. cbn [hd app] in *.
    apply (seg_redirect A A' x a l2 a); [done| |done].
    intros q Hq. apply Hframe; [apply elem_of_cons; by right|]. congruence.
  - rewrite reverse_app, reverse_singleton in Hp, Hframe. cbn [app hd] in Hp, Hframe.
    rewrite <- app_assoc. cbn [app]. apply seg_snoc in H1 as [H1 Hpx].
    apply NoDup_app in Hnd1 as (Hnd1 & Hd1 & _).
    rewrite not_elem_of_app, not_elem_of_cons in Ha1. destruct Ha1 as (Ha1 & Hap & _).
    apply seg_app. split.
    + eapply seg_ext; [|exact H1]. intros q Hq. apply Hframe.
      * rewrite <- app_assoc. apply elem_of_cons in Hq as [->|Hq]; [by left|].
        right. apply elem_of_app. by left.
      * intros ->. apply elem_of_cons in Hq as [->|Hq]; [done|].
        apply (Hd1 p Hq). by left.
    + apply (seg_redirect A A' x p l2 a); [done| |done].
      intros q Hq. apply Hframe.
      * rewrite <- app_assoc. right. apply elem_of_app. right. by right.
      * intros ->. apply (Hd p); [apply elem_of_app; right; by left|by right].
Qed.

(** *** List operations on sequences *)

Lemma seg_alloc (h : heap) a l b :
  seg (fun p => load_pNext p h) a l b -> forall p, p ∈ a :: l -> is_Some (h !! p).
Proof.
  revert a. induction l as [|x l IH]; intros a Hs p Hp; cbn [seg] in Hs.
  - apply list_elem_of_singleton in Hp as ->.
    apply load_pNext_is_Some. rewrite Hs. eauto.
  - destruct Hs as [Ha Hs]. apply elem_of_cons in Hp as [->|Hp].
    + apply load_pNext_is_Some. rewrite Ha. eauto.
    + eapply IH; done.
Qed.

Lemma dlist_alloc (h : heap) head l p :
  dlist h head l -> p ∈ head :: l -> is_Some (h !! p).
Proof. intros (Hn & _ & _). eapply seg_alloc. done. Qed.

Lemma hd_elem (a : Z) (l : list Z) : hd a l ∈ a :: l.
Proof. destruct l; cbn; [by left | right; by left]. Qed.

Lemma dlist_first_last (h : heap) head l :
  dlist h head l ->
  load_pNext head h = Some (hd head l) /\
  load_pPrev head h = Some (hd head (reverse l)).
Proof. intros (Hn & Hp & _). split; [apply (seg_first _ _ _ _ Hn) | apply (seg_first _ _ _ _ Hp)]. Qed.

Lemma NoDup_reverse_cons (a : Z) (l : list Z) : NoDup (a :: l) -> NoDup (a :: reverse l).
Proof.
  intros [Ha Hl]%NoDup_cons. apply NoDup_cons. split.
  - rewrite elem_of_reverse. done.
  - rewrite reverse_Permutation. done.
Qed.

Lemma dlist_CAM_OS_LIST_ADD (h : heap) head l new :
  dlist h head l -> is_Some (h !! new) -> new ∉ head :: l ->
  exists h', CAM_OS_LIST_ADD new head h = Some h' /\ dlist h' head (new :: l).
Proof.
  intros Hd Ha Hnew. pose proof Hd as (Hn & Hp & Hnd).
  destruct (dlist_first_last _ _ _ Hd) as [Hf _].
  destruct (CAM_OS_LIST_ADD_writes new head (hd head l) h) as (h' & E & HN & HP & _);
    [done|done|eapply dlist_alloc; [done|apply hd_elem]|].
  exists h'. split; [done|].
  destruct (seg_insert_after (fun p => load_pNext p h) (fun p => load_pPrev p h)
              (fun p => load_pNext p h') (fun p => load_pPrev p h') head l new)
    as [Hn' Hp']; try done.
  split; [done|]. split; [done|].
  apply NoDup_cons in Hnd as [Hh Hl]. apply not_elem_of_cons in Hnew as [Hnh Hnl].
  apply NoDup_cons. split; [|apply NoDup_cons; done].
  apply not_elem_of_cons. split; [congruence|done].
Qed.

Lemma dlist_CAM_OS_LIST_ADD_TAIL (h : heap) head l new :
  dlist h head l -> is_Some (h !! new) -> new ∉ head :: l ->
  exists h', CAM_OS_LIST_ADD_TAIL new head h = Some h' /\ dlist h' head (l ++ [new]).
Proof.
  intros Hd Ha Hnew. pose proof Hd as (Hn & Hp & Hnd).
  destruct (dlist_first_last _ _ _ Hd) as [_ Hl].
  assert (hd head (reverse l) ∈ head :: l) as Hlast.
  { pose proof (hd_elem head (reverse l)) as Hin.
    apply elem_of_cons in Hin as [->|Hin]; [by left|]. right. apply elem_of_reverse. done. }
  destruct (CAM_OS_LIST_ADD_TAIL_writes new head (hd head (reverse l)) h) as (h' & E & HN & HP & _);
    [done|done|eapply dlist_alloc; done|].
  exists h'. split; [done|].
  apply not_elem_of_cons in Hnew as Hnew'. destruct Hnew' as [Hnh Hnl].
  assert (hd head (reverse l) <> new) as Hln by (intros Heq; rewrite Heq in Hlast; done).
  destruct (seg_insert_after (fun p => load_pPrev p h) (fun p => load_pNext p h)
              (fun p => load_pPrev p h') (fun p => load_pNext p h') head (reverse l) new)
    as [Hp' Hn'].
  - done.
  - rewrite reverse_involutive. done.
  - apply NoDup_reverse_cons. done.
  - apply not_elem_of_cons. split; [done|]. rewrite elem_of_reverse. done.
  - intros q. rewrite HP. repeat case_decide; congruence.
  - intros q. rewrite HN. repeat case_decide; congruence.
  - split; [|split].
    + rewrite reverse_cons, reverse_involutive in Hn'. done.
    + rewrite reverse_app, reverse_singleton. done.
    + apply NoDup_cons in Hnd as [Hh Hll]. apply NoDup_cons. split.
      * rewrite not_elem_of_app, list_elem_of_singleton. split; [done|congruence].
      * apply NoDup_app. split; [done|]. split; [|apply NoDup_singleton].
        intros x Hx Hx'. apply list_elem_of_singleton in Hx'. congruence.
Qed.

(** What deleting [x] from between [l1] and [l2] reads and leaves. *)
Lemma dlist_neighbours (h : heap) head l1 x l2 :
  dlist h head (l1 ++ x :: l2) ->
  load_pPrev x h = Some (hd head (reverse l1)) /\
  load_pNext x h = Some (hd head l2) /\
  hd head (reverse l1) <> x /\ hd head l2 <> x /\
  hd head (reverse l1) ∈ head :: l1 /\ hd head l2 ∈ head :: l2.
Proof.
  intros (Hn & Hp & Hnd).
  apply seg_app in Hn as [_ Hn].
  rewrite reverse_app, reverse_cons, <- app_assoc in Hp. cbn [app] in Hp.
  apply seg_app in Hp as [_ Hp].
  assert (hd head (reverse l1) ∈ head :: l1) as H1.
  { pose proof (hd_elem head (reverse l1)) as Hin.
    apply elem_of_cons in Hin as [->|Hin]; [by left|]. right. apply elem_of_reverse. done. }
  pose proof (hd_elem head l2) as H2.
  apply NoDup_cons in Hnd as [Hh Hnd].
  rewrite not_elem_of_app, not_elem_of_cons in Hh. destruct Hh as (Hh1 & Hhx & Hh2).
  apply NoDup_app in Hnd as (_ & Hdis & Hnd2). apply NoDup_cons in Hnd2 as [Hx2 _].
  split; [apply (seg_first _ _ _ _ Hp)|]. split; [apply (seg_first _ _ _ _ Hn)|].
  split; [|split; [|done]].
  - intros Heq. rewrite Heq in H1. apply elem_of_cons in H1 as [->|H1]; [done|].
    apply (Hdis x H1). by left.
  - intros Heq. rewrite Heq in H2. apply elem_of_cons in H2 as [->|H2]; done.
Qed.

Lemma dlist_removed (h h' : heap) head l1 x l2 :
  dlist h head (l1 ++ x :: l2) ->
  (forall q, q <> x ->
     load_pNext q h' = if decide (q = hd head (reverse l1)) then Some (hd head l2)
                       else load_pNext q h) ->
  (forall q, q <> x ->
     load_pPrev q h' = if decide (q = hd head l2) then Some (hd head (reverse l1))
                       else load_pPrev q h) ->
  dlist h' head (l1 ++ l2).
Proof.
  intros Hd HN HP. destruct (dlist_neighbours _ _ _ _ _ Hd) as (_ & _ & Hpx & Hnx & Hpin & Hnin).
  destruct Hd as (Hn & Hp & Hnd).
  assert (forall q, q ∈ head :: l1 ++ l2 -> q <> x) as Hne.
  { intros q Hq ->. apply NoDup_cons in Hnd as [Hh Hnd].
    rewrite not_elem_of_app, not_elem_of_cons in Hh. destruct Hh as (Hh1 & Hhx & Hh2).
    apply NoDup_app in Hnd as (_ & Hdis & Hnd2). apply NoDup_cons in Hnd2 as [Hx2 _].
    apply elem_of_cons in Hq as [?|Hq]; [done|].
    apply elem_of_app in Hq as [Hq|Hq]; [|done]. apply (Hdis x Hq). by left. }
  split; [|split].
  - apply (seg_remove (fun p => load_pNext p h) (fun p => load_pNext p h') head l1 x l2);
      [done|done| |].
    + rewrite HN by done. rewrite decide_True by done. done.
    + intros q Hq Hqp. rewrite HN by (apply Hne; done). rewrite decide_False by done. done.
  - rewrite reverse_app.
    rewrite reverse_app, reverse_cons, <- app_assoc in Hp. cbn [app] in Hp.
    apply (seg_remove (fun p => load_pPrev p h) (fun p => load_pPrev p h') head
             (reverse l2) x (reverse l1)); [done| | |].
    + apply NoDup_reverse_cons in Hnd.
      rewrite reverse_app, reverse_cons, <- app_assoc in Hnd. done.
    + rewrite reverse_involutive. rewrite HP by done. rewrite decide_True by done. done.
    + rewrite reverse_involutive. intros q Hq Hqp.
      rewrite HP, decide_False; [done|done|]. apply Hne.
      apply elem_of_cons in Hq as [->|Hq]; [by left|]. right.
      rewrite elem_of_app, !elem_of_reverse in Hq. rewrite elem_of_app. tauto.
  - apply NoDup_cons in Hnd as [Hh Hnd].
    rewrite not_elem_of_app, not_elem_of_cons in Hh. destruct Hh as (Hh1 & Hhx & Hh2).
    apply NoDup_app in Hnd as (Hnd1 & Hdis & Hnd2). apply NoDup_cons in Hnd2 as [Hx2 Hnd2].
    apply NoDup_cons. split; [rewrite not_elem_of_app; done|].
    apply NoDup_app. split; [done|]. split; [|done].
    intros q Hq Hq'. apply (Hdis q Hq). by right.
Qed.

Lemma dlist_frame (h h' : heap) head l :
  dlist h head l ->
  (forall q, q ∈ head :: l ->
     load_pNext q h' = load_pNext q h /\ load_pPrev q h' = load_pPrev q h) ->
  dlist h' head l.
Proof.
  intros (Hn & Hp & Hnd) Hf. split; [|split; [|done]].
  - eapply seg_ext; [|exact Hn]. intros p Hp'. cbn beta. apply Hf. done.
  - eapply seg_ext; [|exact Hp]. intros p Hp'. cbn beta. apply Hf.
    apply elem_of_cons in Hp' as [->|Hp']; [by left|]. right. apply elem_of_reverse. done.
Qed.

Lemma dlist_head_not_in (h : heap) head l : dlist h head l -> head ∉ l.
Proof. intros (_ & _ & Hnd). apply NoDup_cons in Hnd as [? _]. done. Qed.

Lemma dlist_CAM_OS_LIST_DEL_INIT (h : heap) head l1 x l2 :
  dlist h head (l1 ++ x :: l2) ->
  exists h', CAM_OS_LIST_DEL_INIT x h = Some h' /\
    dlist h' head (l1 ++ l2) /\ dlist h' x [] /\
    (forall q, q ∉ head :: l1 ++ x :: l2 ->
       load_pNext q h' = load_pNext q h /\ load_pPrev q h' = load_pPrev q h).
Proof.
  intros Hd.
  destruct (dlist_neighbours _ _ _ _ _ Hd) as (Hpv & Hnx & Hpx & Hnx' & Hpin & Hnin).
  assert (forall q, q ∈ head :: l1 -> q ∈ head :: l1 ++ x :: l2) as Hin1.
  { intros q [->|Hq]%elem_of_cons; [by left|]. right. apply elem_of_app. by left. }
  assert (forall q, q ∈ head :: l2 -> q ∈ head :: l1 ++ x :: l2) as Hin2.
  { intros q [->|Hq]%elem_of_cons; [by left|]. right. apply elem_of_app. right. by right. }
  destruct (CAM_OS_LIST_DEL_INIT_writes x _ _ h Hpv Hnx) as (h' & E & HN & HP & _).
  { eapply dlist_alloc; [done|]. apply Hin1. done. }
  { eapply dlist_alloc; [done|]. apply Hin2. done. }
  exists h'. split; [done|]. split; [|split].
  - eapply dlist_removed; [done| |].
    + intros q Hq. rewrite HN, decide_False by done. done.
    + intros q Hq. rewrite HP, decide_False by done. done.
  - split; [|split].
    + cbn [seg]. rewrite HN, decide_True by done. done.
    + rewrite reverse_nil. cbn [seg]. rewrite HP, decide_True by done. done.
    + apply NoDup_singleton.
  - intros q Hq. rewrite HN, HP.
    assert (q <> x) as Hqx.
    { intros ->. apply Hq. right. apply elem_of_app. right. by left. }
    rewrite !(decide_False (P := q = x)) by done.
    rewrite !decide_False; [done| |].
    + intros ->. apply Hq, Hin2. done.
    + intros ->. apply Hq, Hin1. done.
Qed.

Lemma dlist_CAM_OS_LIST_DEL (h : heap) head l1 x l2 :
  dlist h head (l1 ++ x :: l2) ->
  exists h', CAM_OS_LIST_DEL x h = Some h' /\
    dlist h' head (l1 ++ l2) /\
    load_pNext x h' = Some CAM_OS_LIST_POISON1 /\
    load_pPrev x h' = Some CAM_OS_LIST_POISON2 /\
    (forall q, is_Some (h' !! q) <-> is_Some (h !! q)) /\
    (forall q, q ∉ head :: l1 ++ x :: l2 ->
       load_pNext q h' = load_pNext q h /\ load_pPrev q h' = load_pPrev q h).
Proof.
  intros Hd.
  destruct (dlist_neighbours _ _ _ _ _ Hd) as (Hpv & Hnx & Hpx & Hnx' & Hpin & Hnin).
  assert (forall q, q ∈ head :: l1 -> q ∈ head :: l1 ++ x :: l2) as Hin1.
  { intros q [->|Hq]%elem_of_cons; [by left|]. right. apply elem_of_app. by left. }
  assert (forall q, q ∈ head :: l2 -> q ∈ head :: l1 ++ x :: l2) as Hin2.
  { intros q [->|Hq]%elem_of_cons; [by left|]. right. apply elem_of_app. right. by right. }
  destruct (CAM_OS_LIST_DEL_writes x _ _ h Hpv Hnx) as (h' & E & HN & HP & Hdom).
  { eapply dlist_alloc; [done|]. apply Hin1. done. }
  { eapply dlist_alloc; [done|]. apply Hin2. done. }
  exists h'. split; [done|]. split; [|split; [|split; [|split; [done|]]]].
  - eapply dlist_removed; [done| |].
    + intros q Hq. rewrite HN, decide_False by done. done.
    + intros q Hq. rewrite HP, decide_False by done. done.
  - rewrite HN, decide_True by done. done.
  - rewrite HP, decide_True by done. done.
  - intros q Hq. rewrite HN, HP.
    assert (q <> x) as Hqx.
    { intros ->. apply Hq. right. apply elem_of_app. right. by left. }
    rewrite !(decide_False (P := q = x)) by done.
    rewrite !decide_False; [done| |].
    + intros ->. apply Hq, Hin2. done.
    + intros ->. apply Hq, Hin1. done.
Qed.

Lemma list_for_each_from_seg (h : heap) head rest :
  forall pos fuel,
  seg (fun p => load_pNext p h) pos rest head -> head ∉ pos :: rest ->
  (length rest + 1 < fuel)%nat ->
  list_for_each_from fuel head pos h = Some (pos :: rest).
Proof.
  induction rest as [|y rest IH]; intros pos fuel Hs Hh Hf; cbn [seg] in Hs.
  - destruct fuel as [|[|fuel]]; [cbn in Hf; lia..|].
    apply not_elem_of_cons in Hh as [Hh _].
    cbn [list_for_each_from]. rewrite bool_decide_eq_false_2 by congruence.
    rewrite Hs. cbn [mbind option_bind]. rewrite bool_decide_eq_true_2 by done. done.
  - destruct Hs as [Hp Hs]. destruct fuel as [|fuel]; [lia|].
    apply not_elem_of_cons in Hh as [Hh Hh'].
    cbn [list_for_each_from]. rewrite bool_decide_eq_false_2 by congruence.
    rewrite Hp. cbn [mbind option_bind].
    rewrite (IH y fuel Hs Hh') by (cbn [length] in Hf; lia). done.
Qed.

Lemma list_for_each_entry_from_seg (h : heap) offset head rest :
  forall pos fuel,
  seg (fun p => load_pNext p h) pos rest head -> head ∉ pos :: rest ->
  (length rest + 1 < fuel)%nat ->
  list_for_each_entry_from fuel offset head (pos - offset) h =
    Some ((fun p => p - offset) <$> pos :: rest).
Proof.
  induction rest as [|y rest IH]; intros pos fuel Hs Hh Hf; cbn [seg] in Hs.
  - destruct fuel as [|[|fuel]]; [cbn in Hf; lia..|].
    apply not_elem_of_cons in Hh as [Hh _].
    cbn [list_for_each_entry_from]. unfold CAM_OS_LIST_NEXT_ENTRY.
    replace (pos - offset + offset) with pos by lia.
    rewrite bool_decide_eq_false_2 by congruence.
    rewrite Hs. cbn [mbind option_bind].
    unfold CAM_OS_LIST_ENTRY, CAM_OS_CONTAINER_OF.
    replace (head - offset + offset) with head by lia.
    rewrite bool_decide_eq_true_2 by done. done.
  - destruct Hs as [Hp Hs]. destruct fuel as [|fuel]; [lia|].
    apply not_elem_of_cons in Hh as [Hh Hh'].
    cbn [list_for_each_entry_from]. unfold CAM_OS_LIST_NEXT_ENTRY.
    replace (pos - offset + offset) with pos by lia.
    rewrite bool_decide_eq_false_2 by congruence.
    rewrite Hp. cbn [mbind option_bind].
    unfold CAM_OS_LIST_ENTRY, CAM_OS_CONTAINER_OF.
    rewrite (IH y fuel Hs Hh') by (cbn [length] in Hf; lia). done.
Qed.

(** X16.  Traversal: on a well-formed list holding the nodes [l],
    [CAM_OS_LIST_FOR_EACH] ends within [length l + 1] tests of its loop
    condition and visits exactly the nodes of [l], in order, never the
    head; [CAM_OS_LIST_FOR_EACH_ENTRY] visits the structures that contain
    them, and [CAM_OS_LIST_FIRST_ENTRY] and [CAM_OS_LIST_LAST_ENTRY] are the
    containers of what [pNext] and [pPrev] of the head point at: the first
    and the last node, or the head itself on an empty list. *)
Theorem CAM_OS_LIST_FOR_EACH_visits (h : heap) head l offset fuel :
  dlist h head l -> (length l < fuel)%nat ->
  CAM_OS_LIST_FOR_EACH fuel head h = Some l /\
  CAM_OS_LIST_FOR_EACH_ENTRY fuel offset head h = Some ((fun p => p - offset) <$> l) /\
  CAM_OS_LIST_FIRST_ENTRY head offset h = Some (hd head l - offset) /\
  CAM_OS_LIST_LAST_ENTRY head offset h = Some (hd head (reverse l) - offset).
Proof.
  intros Hd Hf. destruct (dlist_first_last _ _ _ Hd) as [Hfirst Hlast].
  pose proof (dlist_head_not_in _ _ _ Hd) as Hh. destruct Hd as (Hn & _ & _).
  unfold CAM_OS_LIST_FOR_EACH, CAM_OS_LIST_FOR_EACH_ENTRY, CAM_OS_LIST_FIRST_ENTRY,
    CAM_OS_LIST_LAST_ENTRY.
  rewrite Hfirst, Hlast. cbn [mbind option_bind].
  unfold CAM_OS_LIST_ENTRY, CAM_OS_CONTAINER_OF.
  split; [|split; [|done]].
  - destruct l as [|x rest]; cbn [hd].
    + destruct fuel; [cbn in Hf; lia|]. cbn [list_for_each_from].
      rewrite bool_decide_eq_true_2 by done. done.
    + destruct Hn as [_ Hn]. apply list_for_each_from_seg; [done|done|].
      cbn [length] in Hf. lia.
  - destruct l as [|x rest]; cbn [hd].
    + destruct fuel; [cbn in Hf; lia|]. cbn [list_for_each_entry_from].
      rewrite bool_decide_eq_true_2 by lia. done.
    + destruct Hn as [_ Hn]. apply list_for_each_entry_from_seg; [done|done|].
      cbn [length] in Hf. lia.
Qed.

Lemma ring_of_three_dlist : dlist ring_of_three 0x1000 [0x2000; 0x3000].
Proof.
  split; [|split].
  - cbn. repeat split; vm_compute; reflexivity.
  - cbn. repeat split; vm_compute; reflexivity.
  - repeat (apply NoDup_cons; split; [rewrite ?elem_of_cons, ?elem_of_nil; lia|]).
    apply NoDup_nil. done.
Qed.

Lemma CAM_OS_LIST_FOR_EACH_visits_witness :
  CAM_OS_LIST_FOR_EACH 3 0x1000 ring_of_three = Some [0x2000; 0x3000] /\
  CAM_OS_LIST_FOR_EACH_ENTRY 3 8 0x1000 ring_of_three = Some [0x1ff8; 0x2ff8].
Proof.
  assert ((length [0x2000; 0x3000] < 3)%nat) as Hf by (cbn; lia).
  pose proof (CAM_OS_LIST_FOR_EACH_visits ring_of_three 0x1000 [0x2000; 0x3000] 8 3
                ring_of_three_dlist Hf) as (H1 & H2 & _).
  split; [exact H1 | exact H2].
Defined.

(** X17.  [CAM_OS_LIST_ADD] inserts the new node at the front of the list:
    a list holding [l] holds [new :: l] afterwards, whatever the fields of
    [new] were before, and every list that shares no node with it is as it
    was. *)
Theorem CAM_OS_LIST_ADD_pushes_front (h : heap) head l new :
  dlist h head l -> is_Some (h !! new) -> new ∉ head :: l ->
  exists h', CAM_OS_LIST_ADD new head h = Some h' /\
    dlist h' head (new :: l) /\
    CAM_OS_LIST_FOR_EACH (S (S (length l))) head h' = Some (new :: l) /\
    (forall head2 l2, dlist h head2 l2 ->
       (forall q, q ∈ head2 :: l2 -> q ∉ head :: new :: l) -> dlist h' head2 l2).
Proof.
  intros Hd Ha Hnew.
  destruct (dlist_CAM_OS_LIST_ADD h head l new Hd Ha Hnew) as (h' & E & Hd').
  exists h'. split; [done|]. split; [done|]. split.
  - pose proof (dlist_head_not_in _ _ _ Hd') as Hh. destruct Hd' as (Hn & _ & _).
    unfold CAM_OS_LIST_FOR_EACH. cbn [seg] in Hn. destruct Hn as [-> Hn].
    cbn [mbind option_bind]. apply list_for_each_from_seg; [done|done|lia].
  - intros head2 l2 Hd2 Hdis.
    destruct (dlist_first_last _ _ _ Hd) as [Hf _].
    destruct (CAM_OS_LIST_ADD_writes new head (hd head l) h) as (h'' & E' & HN & HP & _);
      [done|done|apply (dlist_alloc h head l); [exact Hd|apply hd_elem]|].
    assert (h'' = h') as -> by congruence.
    apply (dlist_frame h); [done|]. intros q Hq. specialize (Hdis q Hq).
    rewrite !not_elem_of_cons in Hdis. destruct Hdis as (Hqh & Hqn & Hql).
    rewrite HN, HP. rewrite !decide_False; [done| |done|done|done].
    intros ->. pose proof (hd_elem head l) as [?|?]%elem_of_cons; done.
Qed.

Lemma CAM_OS_LIST_ADD_pushes_front_witness :
  exists h', CAM_OS_LIST_ADD 0x4000 0x1000 ring_of_three = Some h' /\
    CAM_OS_LIST_FOR_EACH 4 0x1000 h' = Some [0x4000; 0x2000; 0x3000].
Proof.
  assert (is_Some (ring_of_three !! 0x4000)) as Ha by (eexists; reflexivity).
  assert (0x4000 ∉ [0x1000; 0x2000; 0x3000]) as Hn
    by (rewrite !not_elem_of_cons; repeat split; [lia..|apply not_elem_of_nil]).
  destruct (CAM_OS_LIST_ADD_pushes_front ring_of_three 0x1000 [0x2000; 0x3000] 0x4000
              ring_of_three_dlist Ha Hn) as (h' & E & _ & Hv & _).
  exists h'. split; [exact E | exact Hv].
Defined.

(** X18.  [CAM_OS_LIST_ADD_TAIL] inserts the new node at the end of the
    list: a list holding [l] holds [l ++ [new]] afterwards,
    [CAM_OS_LIST_IS_LAST] holds of the new node, and every list that shares
    no node with it is as it was. *)
Theorem CAM_OS_LIST_ADD_TAIL_appends (h : heap) head l new :
  dlist h head l -> is_Some (h !! new) -> new ∉ head :: l ->
  exists h', CAM_OS_LIST_ADD_TAIL new head h = Some h' /\
    dlist h' head (l ++ [new]) /\
    CAM_OS_LIST_FOR_EACH (S (S (length l))) head h' = Some (l ++ [new]) /\
    CAM_OS_LIST_IS_LAST new head h' = Some true /\
    (forall head2 l2, dlist h head2 l2 ->
       (forall q, q ∈ head2 :: l2 -> q ∉ head :: new :: l) -> dlist h' head2 l2).
Proof.
  intros Hd Ha Hnew.
  destruct (dlist_CAM_OS_LIST_ADD_TAIL h head l new Hd Ha Hnew) as (h' & E & Hd').
  exists h'. split; [done|]. split; [done|].
  destruct (dlist_first_last _ _ _ Hd) as [_ Hl].
  assert (hd head (reverse l) ∈ head :: l) as Hlast.
  { pose proof (hd_elem head (reverse l)) as Hin.
    apply elem_of_cons in Hin as [->|Hin]; [by left|]. right. apply elem_of_reverse. done. }
  destruct (CAM_OS_LIST_ADD_TAIL_writes new head (hd head (reverse l)) h)
    as (h'' & E' & HN & HP & _);
    [done|done|apply (dlist_alloc h head l); [exact Hd|exact Hlast]|].
  assert (h'' = h') as -> by congruence.
  apply not_elem_of_cons in Hnew as Hnew'. destruct Hnew' as [Hnh Hnl].
  split; [|split].
  - pose proof (dlist_head_not_in _ _ _ Hd') as Hh.
    destruct (dlist_first_last _ _ _ Hd') as [Hf' _]. destruct Hd' as (Hn & _ & _).
    unfold CAM_OS_LIST_FOR_EACH. rewrite Hf'. cbn [mbind option_bind].
    destruct l as [|x rest]; cbn [app hd] in *.
    + apply list_for_each_from_seg; [|done|cbn; lia]. destruct Hn as [_ Hn]. done.
    + destruct Hn as [_ Hn]. apply list_for_each_from_seg; [done|done|].
      rewrite length_app. cbn [length]. lia.
  - unfold CAM_OS_LIST_IS_LAST. rewrite HN.
    assert (new <> hd head (reverse l)) by (intros Heq; rewrite <- Heq in Hlast; done).
    rewrite decide_False, decide_True by done. cbn [mbind option_bind].
    rewrite bool_decide_eq_true_2 by done. done.
  - intros head2 l2 Hd2 Hdis.
    apply (dlist_frame h); [done|]. intros q Hq. specialize (Hdis q Hq).
    rewrite !not_elem_of_cons in Hdis. destruct Hdis as (Hqh & Hqn & Hql).
    rewrite HN, HP. rewrite !decide_False; [done|done|done|done|].
    intros ->. apply elem_of_cons in Hlast as [?|?]; done.
Qed.

Lemma CAM_OS_LIST_ADD_TAIL_appends_witness :
  exists h', CAM_OS_LIST_ADD_TAIL 0x4000 0x1000 ring_of_three = Some h' /\
    CAM_OS_LIST_FOR_EACH 4 0x1000 h' = Some [0x2000; 0x3000; 0x4000].
Proof.
  assert (is_Some (ring_of_three !! 0x4000)) as Ha by (eexists; reflexivity).
  assert (0x4000 ∉ [0x1000; 0x2000; 0x3000]) as Hn
    by (rewrite !not_elem_of_cons; repeat split; [lia..|apply not_elem_of_nil]).
  destruct (CAM_OS_LIST_ADD_TAIL_appends ring_of_three 0x1000 [0x2000; 0x3000] 0x4000
              ring_of_three_dlist Ha Hn) as (h' & E & _ & Hv & _).
  exists h'. split; [exact E | exact Hv].
Defined.

(** X19.  [CAM_OS_LIST_DEL] of a member [x] of a list holding
    [l1 ++ x :: l2] leaves the list holding [l1 ++ l2] and writes no node
    outside the list; [x] keeps the two poison values, and may be put on a
    list again with [CAM_OS_LIST_ADD] without being initialised first. *)
Theorem CAM_OS_LIST_DEL_removes (h : heap) head l1 x l2 :
  dlist h head (l1 ++ x :: l2) ->
  exists h', CAM_OS_LIST_DEL x h = Some h' /\
    dlist h' head (l1 ++ l2) /\
    load_pNext x h' = Some CAM_OS_LIST_POISON1 /\
    load_pPrev x h' = Some CAM_OS_LIST_POISON2 /\
    (forall q, q ∉ head :: l1 ++ x :: l2 ->
       load_pNext q h' = load_pNext q h /\ load_pPrev q h' = load_pPrev q h) /\
    exists h'', CAM_OS_LIST_ADD x head h' = Some h'' /\ dlist h'' head (x :: l1 ++ l2).
Proof.
  intros Hd. destruct (dlist_CAM_OS_LIST_DEL h head l1 x l2 Hd)
    as (h' & E & Hd' & Hn & Hp & Hdom & Hframe).
  exists h'. repeat (split; [done|]).
  apply dlist_CAM_OS_LIST_ADD; [done| |].
  - apply load_pNext_is_Some. rewrite Hn. eauto.
  - destruct Hd as (_ & _ & Hnd). apply NoDup_cons in Hnd as [Hh Hnd].
    rewrite not_elem_of_app, not_elem_of_cons in Hh. destruct Hh as (Hh1 & Hhx & Hh2).
    apply NoDup_app in Hnd as (_ & Hdis & Hnd2). apply NoDup_cons in Hnd2 as [Hx2 _].
    rewrite not_elem_of_cons, not_elem_of_app. split; [congruence|]. split; [|done].
    intros Hx. apply (Hdis x Hx). by left.
Qed.

Lemma CAM_OS_LIST_DEL_removes_witness :
  exists h', CAM_OS_LIST_DEL 0x2000 ring_of_three = Some h' /\
    dlist h' 0x1000 [0x3000] /\
    load_pNext 0x2000 h' = Some CAM_OS_LIST_POISON1.
Proof.
  destruct (CAM_OS_LIST_DEL_removes ring_of_three 0x1000 [] 0x2000 [0x3000]
              ring_of_three_dlist) as (h' & E & Hd & Hn & _).
  exists h'. split; [exact E|]. split; [exact Hd | exact Hn].
Defined.

(** X20.  [CAM_OS_LIST_DEL_INIT] of a member [x] of a list holding
    [l1 ++ x :: l2] leaves the list holding [l1 ++ l2] and [x] the head of
    an empty list of its own; no node outside the list is written. *)
Theorem CAM_OS_LIST_DEL_INIT_removes (h : heap) head l1 x l2 :
  dlist h head (l1 ++ x :: l2) ->
  exists h', CAM_OS_LIST_DEL_INIT x h = Some h' /\
    dlist h' head (l1 ++ l2) /\ dlist h' x [] /\
    CAM_OS_LIST_EMPTY x h' = Some true /\
    (forall q, q ∉ head :: l1 ++ x :: l2 ->
       load_pNext q h' = load_pNext q h /\ load_pPrev q h' = load_pPrev q h).
Proof.
  intros Hd. destruct (dlist_CAM_OS_LIST_DEL_INIT h head l1 x l2 Hd)
    as (h' & E & Hd' & Hx & Hframe).
  exists h'. repeat (split; [done|]). split; [|done].
  destruct Hx as (Hn & _ & _). cbn [seg] in Hn. unfold CAM_OS_LIST_EMPTY.
  rewrite Hn. cbn [mbind option_bind]. rewrite bool_decide_eq_true_2 by done. done.
Qed.

Lemma CAM_OS_LIST_DEL_INIT_removes_witness :
  exists h', CAM_OS_LIST_DEL_INIT 0x3000 ring_of_three = Some h' /\
    dlist h' 0x1000 [0x2000] /\ dlist h' 0x3000 [].
Proof.
  destruct (CAM_OS_LIST_DEL_INIT_removes ring_of_three 0x1000 [0x2000] 0x3000 []
              ring_of_three_dlist) as (h' & E & Hd & Hx & _).
  exists h'. split; [exact E|]. split; [exact Hd | exact Hx].
Defined.

(** X21.  On a well-formed list holding [l]: [CAM_OS_LIST_EMPTY] tells
    whether [l] is empty, [CAM_OS_LIST_EMPTY_CAREFUL] agrees with it, and
    [CAM_OS_LIST_IS_LAST] of a member tells whether it is the last node
    of [l]. *)
Theorem CAM_OS_LIST_EMPTY_IS_LAST_spec (h : heap) head l :
  dlist h head l ->
  CAM_OS_LIST_EMPTY head h = Some (bool_decide (l = [])) /\
  CAM_OS_LIST_EMPTY_CAREFUL head h = CAM_OS_LIST_EMPTY head h /\
  (forall x, x ∈ l ->
     CAM_OS_LIST_IS_LAST x head h = Some (bool_decide (last l = Some x))).
Proof.
  intros Hd. destruct (dlist_first_last _ _ _ Hd) as [Hf Hl].
  pose proof (dlist_head_not_in _ _ _ Hd) as Hh.
  assert (CAM_OS_LIST_EMPTY head h = Some (bool_decide (l = []))) as HE.
  { unfold CAM_OS_LIST_EMPTY. rewrite Hf. cbn [mbind option_bind]. f_equal.
    destruct l as [|x l]; cbn [hd].
    - rewrite !bool_decide_eq_true_2; done.
    - rewrite !bool_decide_eq_false_2; [done|done|].
      intros ->. apply Hh. by left. }
  split; [done|]. split.
  - rewrite HE. unfold CAM_OS_LIST_EMPTY_CAREFUL. rewrite Hf, Hl. cbn [mbind option_bind].
    destruct l as [|x l]; cbn [hd].
    + rewrite reverse_nil. cbn [hd]. rewrite !bool_decide_eq_true_2; done.
    + rewrite bool_decide_eq_false_2; [|intros ->; apply Hh; by left].
      rewrite bool_decide_eq_false_2; done.
  - intros x Hx. apply list_elem_of_split in Hx as (l1 & l2 & ->).
    destruct (dlist_neighbours _ _ _ _ _ Hd) as (_ & Hnx & _ & _ & _ & _).
    unfold CAM_OS_LIST_IS_LAST. rewrite Hnx. cbn [mbind option_bind]. f_equal.
    destruct l2 as [|y l2]; cbn [hd].
    + rewrite last_snoc. rewrite !bool_decide_eq_true_2; done.
    + rewrite bool_decide_eq_false_2.
      2:{ intros ->. apply Hh. apply elem_of_app. right. right. by left. }
      rewrite bool_decide_eq_false_2; [done|].
      replace (l1 ++ x :: y :: l2) with ((l1 ++ [x]) ++ y :: l2)
        by (rewrite <- app_assoc; done).
      destruct (rev_case (y :: l2)) as [?|(l3 & z & E3)]; [done|].
      rewrite E3, app_assoc, last_snoc. intros [= ->].
      destruct Hd as (_ & _ & Hnd). apply NoDup_cons in Hnd as [_ Hnd].
      apply NoDup_app in Hnd as (_ & _ & Hnd). apply NoDup_cons in Hnd as [Hxn _].
      apply Hxn. rewrite E3. apply elem_of_app. right. by left.
Qed.

Lemma CAM_OS_LIST_EMPTY_IS_LAST_spec_witness :
  CAM_OS_LIST_EMPTY 0x1000 ring_of_three = Some false /\
  CAM_OS_LIST_EMPTY_CAREFUL 0x1000 ring_of_three = CAM_OS_LIST_EMPTY 0x1000 ring_of_three.
Proof.
  destruct (CAM_OS_LIST_EMPTY_IS_LAST_spec ring_of_three 0x1000 [0x2000; 0x3000]
              ring_of_three_dlist) as (H1 & H2 & _).
  split; [exact H1 | exact H2].
Defined.

Lemma list_for_each_safe_from_drains head rest :
  forall x (h : heap) fuel,
  dlist h head (x :: rest) -> (length rest + 1 < fuel)%nat ->
  exists h',
    list_for_each_safe_from CAM_OS_LIST_DEL_INIT fuel head x (hd head rest) h = Some h' /\
    dlist h' head [] /\ (forall y, y ∈ x :: rest -> dlist h' y []) /\
    (forall q, q ∉ head :: x :: rest ->
       load_pNext q h' = load_pNext q h /\ load_pPrev q h' = load_pPrev q h).
Proof.
  induction rest as [|y rest IH]; intros x h fuel Hd Hf.
  - destruct fuel as [|[|fuel]]; [cbn in Hf; lia..|].
    destruct (dlist_CAM_OS_LIST_DEL_INIT h head [] x [] Hd) as (h1 & E & Hd1 & Hx & Hfr).
    pose proof (dlist_head_not_in _ _ _ Hd) as Hh. apply not_elem_of_cons in Hh as [Hh _].
    exists h1. cbn [list_for_each_safe_from hd].
    rewrite bool_decide_eq_false_2 by congruence. rewrite E. cbn [mbind option_bind].
    destruct Hd1 as (Hn1 & Hp1 & Hnd1). cbn [app seg] in Hn1. rewrite Hn1.
    cbn [mbind option_bind]. rewrite bool_decide_eq_true_2 by done.
    split; [done|]. split; [done|]. split; [|done].
    intros z Hz. apply list_elem_of_singleton in Hz as ->. done.
  - destruct fuel as [|fuel]; [lia|].
    destruct (dlist_CAM_OS_LIST_DEL_INIT h head [] x (y :: rest) Hd)
      as (h1 & E & Hd1 & Hx & Hfr).
    cbn [app] in Hd1, Hfr.
    pose proof (dlist_head_not_in _ _ _ Hd) as Hh. apply not_elem_of_cons in Hh as [Hh _].
    destruct (IH y h1 fuel Hd1) as (h' & E' & Hd' & Hall & Hfr'); [cbn [length] in Hf; lia|].
    exists h'. cbn [list_for_each_safe_from hd].
    rewrite bool_decide_eq_false_2 by congruence. rewrite E. cbn [mbind option_bind].
    destruct Hd1 as (Hn1 & _ & _). cbn [seg] in Hn1. destruct Hn1 as [_ Hn1].
    rewrite (seg_first _ _ _ _ Hn1). cbn [mbind option_bind].
    split; [done|]. split; [done|].
    assert (x ∉ head :: y :: rest) as Hxn.
    { destruct Hd as (_ & _ & Hnd). apply NoDup_cons in Hnd as [_ Hnd].
      apply NoDup_cons in Hnd as [Hxr _]. apply not_elem_of_cons. split; [congruence|done]. }
    split.
    + intros z [->|Hz]%elem_of_cons; [|apply Hall; done].
      apply (dlist_frame h1); [done|]. intros q Hq.
      apply list_elem_of_singleton in Hq as ->. apply Hfr'. done.
    + intros q Hq. destruct (Hfr q Hq) as [<- <-]. apply Hfr'.
      rewrite !not_elem_of_cons in Hq. rewrite !not_elem_of_cons. tauto.
Qed.

(** X22.  [CAM_OS_LIST_FOR_EACH_SAFE] tolerates a body that takes the
    current node off the list: with [CAM_OS_LIST_DEL_INIT(pos)] as its
    body, the loop over a list holding [l] ends within [length l + 1] tests
    of its condition, leaves the list empty and every former member the
    head of an empty list, and writes nothing else. *)
Theorem CAM_OS_LIST_FOR_EACH_SAFE_drains (h : heap) head l fuel :
  dlist h head l -> (length l < fuel)%nat ->
  exists h',
    CAM_OS_LIST_FOR_EACH_SAFE CAM_OS_LIST_DEL_INIT fuel head h = Some h' /\
    CAM_OS_LIST_EMPTY head h' = Some true /\
    dlist h' head [] /\ (forall y, y ∈ l -> dlist h' y []) /\
    (forall q, q ∉ head :: l ->
       load_pNext q h' = load_pNext q h /\ load_pPrev q h' = load_pPrev q h).
Proof.
  intros Hd Hf. destruct (dlist_first_last _ _ _ Hd) as [Hfirst _].
  unfold CAM_OS_LIST_FOR_EACH_SAFE. rewrite Hfirst. cbn [mbind option_bind].
  assert (forall h', dlist h' head [] -> CAM_OS_LIST_EMPTY head h' = Some true) as HE.
  { intros h' (Hn & _ & _). cbn [seg] in Hn. unfold CAM_OS_LIST_EMPTY. rewrite Hn.
    cbn [mbind option_bind]. rewrite bool_decide_eq_true_2 by done. done. }
  destruct l as [|x rest]; cbn [hd].
  - rewrite Hfirst. cbn [mbind option_bind]. destruct fuel; [cbn in Hf; lia|].
    cbn [list_for_each_safe_from]. rewrite bool_decide_eq_true_2 by done.
    exists h. split; [done|]. split; [apply HE; done|]. split; [done|].
    split; [|done]. intros y Hy. apply elem_of_nil in Hy. done.
  - pose proof Hd as (Hn & _ & _). cbn [seg] in Hn. destruct Hn as [_ Hn].
    rewrite (seg_first _ _ _ _ Hn). cbn [mbind option_bind].
    destruct (list_for_each_safe_from_drains head rest x h fuel Hd)
      as (h' & E & Hd' & Hall & Hfr); [cbn [length] in Hf; lia|].
    exists h'. split; [done|]. split; [apply HE; done|]. done.
Qed.

Lemma CAM_OS_LIST_FOR_EACH_SAFE_drains_witness :
  exists h', CAM_OS_LIST_FOR_EACH_SAFE CAM_OS_LIST_DEL_INIT 3 0x1000 ring_of_three = Some h' /\
    CAM_OS_LIST_EMPTY 0x1000 h' = Some true.
Proof.
  assert ((length [0x2000; 0x3000] < 3)%nat) as Hf by (cbn; lia).
  destruct (CAM_OS_LIST_FOR_EACH_SAFE_drains ring_of_three 0x1000 [0x2000; 0x3000] 3
              ring_of_three_dlist Hf) as (h' & E & HE & _).
  exists h'. split; [exact E | exact HE].
Defined.

Lemma dlist_CAM_OS_INIT_LIST_HEAD (h : heap) head :
  is_Some (h !! head) ->
  exists h', CAM_OS_INIT_LIST_HEAD head h = Some h' /\ dlist h' head [] /\
    (forall q, is_Some (h' !! q) <-> is_Some (h !! q)).
Proof.
  intros Ha. destruct (CAM_OS_INIT_LIST_HEAD_writes head h Ha) as (h' & E & HN & HP & Hdom).
  exists h'. split; [done|]. split; [|done]. split; [|split].
  - cbn [seg]. rewrite HN, decide_True by done. done.
  - rewrite reverse_nil. cbn [seg]. rewrite HP, decide_True by done. done.
  - apply NoDup_singleton.
Qed.

Lemma dlist_CAM_OS_LIST_FOR_EACH (h : heap) head l fuel :
  dlist h head l -> (length l < fuel)%nat -> CAM_OS_LIST_FOR_EACH fuel head h = Some l.
Proof.
  intros Hd Hf. destruct (dlist_first_last _ _ _ Hd) as [Hfirst _].
  pose proof (dlist_head_not_in _ _ _ Hd) as Hh. destruct Hd as (Hn & _ & _).
  unfold CAM_OS_LIST_FOR_EACH. rewrite Hfirst. cbn [mbind option_bind].
  destruct l as [|x rest]; cbn [hd].
  - destruct fuel; [cbn in Hf; lia|]. cbn [list_for_each_from].
    rewrite bool_decide_eq_true_2 by done. done.
  - destruct Hn as [_ Hn]. apply list_for_each_from_seg; [done|done|].
    cbn [length] in Hf. lia.
Qed.

Lemma CAM_OS_LIST_ADD_alloc (h h' : heap) head l new :
  dlist h head l -> is_Some (h !! new) -> CAM_OS_LIST_ADD new head h = Some h' ->
  forall q, is_Some (h' !! q) <-> is_Some (h !! q).
Proof.
  intros Hd Ha E. destruct (dlist_first_last _ _ _ Hd) as [Hf _].
  destruct (CAM_OS_LIST_ADD_writes new head (hd head l) h) as (h'' & E' & _ & _ & Hdom);
    [done|done|apply (dlist_alloc h head l); [exact Hd|apply hd_elem]|].
  assert (h'' = h') as -> by congruence. done.
Qed.

Lemma CAM_OS_LIST_ADD_TAIL_alloc (h h' : heap) head l new :
  dlist h head l -> is_Some (h !! new) -> CAM_OS_LIST_ADD_TAIL new head h = Some h' ->
  forall q, is_Some (h' !! q) <-> is_Some (h !! q).
Proof.
  intros Hd Ha E. destruct (dlist_first_last _ _ _ Hd) as [_ Hl].
  assert (hd head (reverse l) ∈ head :: l) as Hlast.
  { pose proof (hd_elem head (reverse l)) as Hin.
    apply elem_of_cons in Hin as [->|Hin]; [by left|]. right. apply elem_of_reverse. done. }
  destruct (CAM_OS_LIST_ADD_TAIL_writes new head (hd head (reverse l)) h)
    as (h'' & E' & _ & _ & Hdom);
    [done|done|apply (dlist_alloc h head l); [exact Hd|exact Hlast]|].
  assert (h'' = h') as -> by congruence. done.
Qed.

Lemma run_ops_add_tail head l :
  forall acc (h : heap),
  dlist h head acc -> (forall x, x ∈ l -> is_Some (h !! x)) ->
  NoDup (head :: acc ++ l) ->
  exists h', run_ops ((fun x => OpAddTail x head) <$> l) h = Some h' /\
             dlist h' head (acc ++ l).
Proof.
  induction l as [|x l IH]; intros acc h Hd Ha Hnd.
  - exists h. rewrite app_nil_r. done.
  - assert (x ∉ head :: acc) as Hx.
    { apply NoDup_cons in Hnd as [Hh Hnd]. rewrite not_elem_of_app, not_elem_of_cons in Hh.
      apply NoDup_app in Hnd as (_ & Hdis & _). apply not_elem_of_cons. split; [intros ->; tauto|].
      intros Hxa. apply (Hdis x Hxa). by left. }
    assert (is_Some (h !! x)) as Hax by (apply Ha; by left).
    destruct (dlist_CAM_OS_LIST_ADD_TAIL h head acc x Hd Hax Hx) as (h1 & E & Hd1).
    destruct (IH (acc ++ [x]) h1 Hd1) as (h' & E' & Hd').
    + intros y Hy. apply (CAM_OS_LIST_ADD_TAIL_alloc h h1 head acc x); [done..|].
      apply Ha. by right.
    + rewrite <- app_assoc. done.
    + exists h'. rewrite fmap_cons. cbn [run_ops run_op]. rewrite E. cbn [mbind option_bind].
      rewrite <- app_assoc in Hd'. done.
Qed.

Lemma run_ops_add head l :
  forall acc (h : heap),
  dlist h head acc -> (forall x, x ∈ l -> is_Some (h !! x)) ->
  NoDup (head :: acc ++ l) ->
  exists h', run_ops ((fun x => OpAdd x head) <$> l) h = Some h' /\
             dlist h' head (reverse l ++ acc).
Proof.
  induction l as [|x l IH]; intros acc h Hd Ha Hnd.
  - exists h. rewrite reverse_nil. done.
  - assert (x ∉ head :: acc) as Hx.
    { apply NoDup_cons in Hnd as [Hh Hnd]. rewrite not_elem_of_app, not_elem_of_cons in Hh.
      apply NoDup_app in Hnd as (_ & Hdis & _). apply not_elem_of_cons. split; [intros ->; tauto|].
      intros Hxa. apply (Hdis x Hxa). by left. }
    assert (is_Some (h !! x)) as Hax by (apply Ha; by left).
    destruct (dlist_CAM_OS_LIST_ADD h head acc x Hd Hax Hx) as (h1 & E & Hd1).
    destruct (IH (x :: acc) h1 Hd1) as (h' & E' & Hd').
    + intros y Hy. apply (CAM_OS_LIST_ADD_alloc h h1 head acc x); [done..|].
      apply Ha. by right.
    + apply NoDup_cons in Hnd as [Hh Hnd]. cbn [app]. apply NoDup_cons. split.
      * rewrite not_elem_of_app, !not_elem_of_cons in Hh.
        rewrite not_elem_of_cons, not_elem_of_app. tauto.
      * rewrite Permutation_middle. done.
    + exists h'. rewrite fmap_cons. cbn [run_ops run_op]. rewrite E. cbn [mbind option_bind].
      rewrite reverse_cons, <- app_assoc. done.
Qed.

(** X23.  A list built from scratch: after [CAM_OS_INIT_LIST_HEAD] of the
    head, adding distinct nodes one by one with [CAM_OS_LIST_ADD_TAIL]
    gives a list that [CAM_OS_LIST_FOR_EACH] walks in the order of
    insertion (a queue), and adding them with [CAM_OS_LIST_ADD] one that it
    walks in the opposite order (a stack); what the head and the nodes held
    before does not matter. *)
Theorem list_build_order (h : heap) head l :
  NoDup (head :: l) -> (forall x, x ∈ head :: l -> is_Some (h !! x)) ->
  (exists h', run_ops (OpInit head :: ((fun x => OpAddTail x head) <$> l)) h = Some h' /\
              dlist h' head l /\
              CAM_OS_LIST_FOR_EACH (S (length l)) head h' = Some l) /\
  (exists h', run_ops (OpInit head :: ((fun x => OpAdd x head) <$> l)) h = Some h' /\
              dlist h' head (reverse l) /\
              CAM_OS_LIST_FOR_EACH (S (length l)) head h' = Some (reverse l)).
Proof.
  intros Hnd Ha.
  destruct (dlist_CAM_OS_INIT_LIST_HEAD h head) as (h0 & E0 & Hd0 & Hdom0);
    [apply Ha; by left|].
  assert (forall x, x ∈ l -> is_Some (h0 !! x)) as Ha0.
  { intros x Hx. apply Hdom0, Ha. by right. }
  split.
  - destruct (run_ops_add_tail head l [] h0 Hd0 Ha0 Hnd) as (h' & E & Hd).
    exists h'. cbn [run_ops run_op]. rewrite E0. cbn [mbind option_bind app] in *.
    split; [done|]. split; [done|]. apply dlist_CAM_OS_LIST_FOR_EACH; [done|lia].
  - destruct (run_ops_add head l [] h0 Hd0 Ha0 Hnd) as (h' & E & Hd).
    rewrite app_nil_r in Hd.
    exists h'. cbn [run_ops run_op]. rewrite E0. cbn [mbind option_bind].
    split; [done|]. split; [done|]. apply dlist_CAM_OS_LIST_FOR_EACH; [done|].
    rewrite length_reverse. lia.
Qed.

Lemma list_build_order_witness :
  exists h', run_ops [OpInit 0x3000; OpAddTail 0x1000 0x3000; OpAddTail 0x2000 0x3000]
               three_structs = Some h' /\
             CAM_OS_LIST_FOR_EACH 3 0x3000 h' = Some [0x1000; 0x2000].
Proof.
  assert (NoDup [0x3000; 0x1000; 0x2000]) as Hnd.
  { repeat (apply NoDup_cons; split; [rewrite ?elem_of_cons, ?elem_of_nil; lia|]).
    apply NoDup_nil. done. }
  assert (forall x, x ∈ [0x3000; 0x1000; 0x2000] -> is_Some (three_structs !! x)) as Ha.
  { intros x Hx. rewrite !elem_of_cons, elem_of_nil in Hx.
    destruct Hx as [->|[->|[->|[]]]]; eexists; reflexivity. }
  destruct (list_build_order three_structs 0x3000 [0x1000; 0x2000] Hnd Ha)
    as [(h' & E & _ & Hv) _].
  exists h'. split; [exact E | exact Hv].
Defined.

(** *** Hash lists as sequences *)

Lemma hseg_app ns b f l1 l2 b' f' :
  hseg ns b f (l1 ++ l2) b' f' <->
  exists bm fm, hseg ns b f l1 bm fm /\ hseg ns bm fm l2 b' f'.
Proof.
  revert b f. induction l1 as [|x l1 IH]; intros b f; cbn [app hseg].
  - split.
    + intros H. exists b, f. done.
    + intros (bm & fm & [-> ->] & H). done.
  - split.
    + intros (-> & Hx & s & Hs & Hb & H). apply IH in H as (bm & fm & H1 & H2).
      exists bm, fm. split; [|done]. split; [done|]. split; [done|]. exists s. done.
    + intros (bm & fm & (-> & Hx & s & Hs & Hb & H1) & H2).
      split; [done|]. split; [done|]. exists s. split; [done|]. split; [done|].
      apply IH. exists bm, fm. done.
Qed.

Lemma hseg_ext ns ns' b f l b' f' :
  (forall q, q ∈ l -> ns' !! q = ns !! q) ->
  hseg ns b f l b' f' -> hseg ns' b f l b' f'.
Proof.
  revert b f. induction l as [|x l IH]; intros b f Hq; cbn [hseg]; [done|].
  intros (-> & Hx & s & Hs & Hb & H). split; [done|]. split; [done|].
  exists s. rewrite Hq by (by left). split; [done|]. split; [done|].
  apply IH; [|done]. intros q Hin. apply Hq. by right.
Qed.

Lemma hseg_first ns b f l b' f' : hseg ns b f l b' f' -> f = hd f' l.
Proof. destruct l; cbn; [tauto|]. intros (-> & _). done. Qed.

Lemma hseg_members ns b f l b' f' :
  hseg ns b f l b' f' ->
  forall x, x ∈ l -> x <> HList.NULL /\ exists s bx, ns !! x = Some s /\ HList.ppPrev s = Some bx.
Proof.
  revert b f. induction l as [|y l IH]; intros b f H x Hx; [by apply elem_of_nil in Hx|].
  destruct H as (-> & Hy & s & Hs & Hb & H).
  apply elem_of_cons in Hx as [->|Hx]; [|eapply IH; done].
  split; [done|]. eauto.
Qed.

(** Re-entering the part of a chain after a removed or inserted node:
    its first node, if any, is made to point back at [b]. *)
Lemma hseg_relink ns ns' b0 b f l b' :
  hseg ns b0 f l b' HList.NULL -> NoDup l ->
  (forall s, f <> HList.NULL -> ns !! f = Some s ->
     ns' !! f = Some (HList.Node (HList.pNext s) (Some b))) ->
  (forall q, q ∈ l -> q <> f -> ns' !! q = ns !! q) ->
  exists b'', hseg ns' b f l b'' HList.NULL.
Proof.
  destruct l as [|y l]; cbn [hseg].
  - intros [_ ->] _ _ _. exists b. done.
  - intros (-> & Hy & s & Hs & Hb & H) [Hyl Hnd]%NoDup_cons Hf Hfr.
    exists b'. split; [done|]. split; [done|].
    exists (HList.Node (HList.pNext s) (Some b)). split; [apply Hf; done|].
    split; [done|]. cbn. eapply hseg_ext; [|done].
    intros q Hq. apply Hfr; [by right|]. intros ->. done.
Qed.

Ltac hsimpl :=
  cbn [mbind option_bind HList.heads HList.nodes HList.pNext HList.ppPrev
       HList.pFirst negb] in *.

Lemma store_pNext_eq n v hs ns s :
  ns !! n = Some s ->
  HList.store_pNext n v (HList.Mem hs ns) =
    Some (HList.Mem hs (<[n := HList.Node v (HList.ppPrev s)]> ns)).
Proof. intros H. unfold HList.store_pNext. hsimpl. rewrite H. done. Qed.

Lemma store_ppPrev_eq n v hs ns s :
  ns !! n = Some s ->
  HList.store_ppPrev n v (HList.Mem hs ns) =
    Some (HList.Mem hs (<[n := HList.Node (HList.pNext s) v]> ns)).
Proof. intros H. unfold HList.store_ppPrev. hsimpl. rewrite H. done. Qed.

Lemma store_pFirst_eq h v hs ns s :
  hs !! h = Some s ->
  HList.store_pFirst h v (HList.Mem hs ns) =
    Some (HList.Mem (<[h := HList.Head v]> hs) ns).
Proof. intros H. unfold HList.store_pFirst. hsimpl. rewrite H. done. Qed.

Lemma CAM_OS_HLIST_ADD_HEAD_result n h hs ns first sn :
  hs !! h = Some (HList.Head first) -> ns !! n = Some sn -> n <> first ->
  (first = HList.NULL \/ is_Some (ns !! first)) ->
  exists ns', HList.CAM_OS_HLIST_ADD_HEAD n h (HList.Mem hs ns) =
                Some (HList.Mem (<[h := HList.Head n]> hs) ns') /\
    ns' !! n = Some (HList.Node first (Some (HList.FirstOf h))) /\
    (forall s, first <> HList.NULL -> ns !! first = Some s ->
       ns' !! first = Some (HList.Node (HList.pNext s) (Some (HList.NextOf n)))) /\
    (forall q, q <> n -> (q <> first \/ first = HList.NULL) -> ns' !! q = ns !! q).
Proof.
  intros Hh Hn Hnf Hfirst.
  unfold HList.CAM_OS_HLIST_ADD_HEAD. hsimpl. rewrite Hh. hsimpl.
  rewrite (store_pNext_eq _ _ _ _ _ Hn). hsimpl.
  destruct (Z.eqb_spec first HList.NULL) as [E|E]; hsimpl.
  - rewrite (store_pFirst_eq _ _ _ _ _ Hh). hsimpl.
    erewrite store_ppPrev_eq by apply lookup_insert_eq. hsimpl.
    eexists. split; [reflexivity|]. split; [apply lookup_insert_eq|]. split; [done|].
    intros q Hq _. rewrite !lookup_insert_ne by done. done.
  - destruct Hfirst as [?|[sf Hsf]]; [done|].
    erewrite store_ppPrev_eq by (rewrite lookup_insert_ne by done; exact Hsf). hsimpl.
    rewrite (store_pFirst_eq _ _ _ _ _ Hh). hsimpl.
    erewrite store_ppPrev_eq
      by (rewrite lookup_insert_ne by done; apply lookup_insert_eq). hsimpl.
    eexists. split; [reflexivity|]. split; [apply lookup_insert_eq|]. split.
    + intros s _ Hs. rewrite lookup_insert_ne by done. rewrite lookup_insert_eq.
      congruence.
    + intros q Hq [Hqf|?]; [|done]. rewrite !lookup_insert_ne by done. done.
Qed.

Lemma hlist_CAM_OS_HLIST_ADD_HEAD (m : HList.mem) h l n :
  hlist m h l -> is_Some (HList.nodes m !! n) -> n <> HList.NULL -> n ∉ l ->
  exists m', HList.CAM_OS_HLIST_ADD_HEAD n h m = Some m' /\
    hlist m' h (n :: l) /\
    (forall q, q <> h -> HList.heads m' !! q = HList.heads m !! q) /\
    (forall q, q ∉ n :: l -> HList.nodes m' !! q = HList.nodes m !! q).
Proof.
  intros (f & b' & Hh & Hs & Hnd) [sn Hn] Hn0 Hnl. destruct m as [hs ns].
  cbn [HList.heads HList.nodes] in *.
  pose proof (hseg_first _ _ _ _ _ _ Hs) as Hf.
  assert (n <> f) as Hnf.
  { destruct l as [|y l]; cbn [hd] in Hf; [congruence|].
    intros ->. apply Hnl. rewrite Hf. by left. }
  assert (f = HList.NULL \/ is_Some (ns !! f)) as Hfa.
  { destruct l as [|y l]; cbn [hd] in Hf; [by left|]. right.
    destruct (hseg_members _ _ _ _ _ _ Hs y) as (_ & s & bx & Hy & _); [by left|].
    rewrite Hf. eauto. }
  destruct (CAM_OS_HLIST_ADD_HEAD_result n h hs ns f sn Hh Hn Hnf Hfa)
    as (ns' & E & Hn' & Hf' & Hfr).
  eexists. split; [exact E|]. cbn [HList.heads HList.nodes]. split; [|split].
  - destruct (hseg_relink ns ns' (HList.FirstOf h) (HList.NextOf n) f l b' Hs Hnd)
      as (b'' & Hs'); [done| |].
    { intros q Hq Hqf. apply Hfr; [|by left]. intros ->. done. }
    exists n, b''. split; [apply lookup_insert_eq|]. split; [|apply NoDup_cons; done].
    cbn [hseg]. split; [done|]. split; [done|]. eexists. split; [exact Hn'|]. done.
  - intros q Hq. rewrite lookup_insert_ne by done. done.
  - intros q Hq. apply not_elem_of_cons in Hq as [Hqn Hql]. apply Hfr; [done|].
    destruct l as [|y l]; cbn [hd] in Hf; [by right|]. left.
    intros ->. apply Hql. rewrite Hf. by left.
Qed.

Lemma CAM_OS_INIT_HLIST_NODE_eq x hs ns s :
  ns !! x = Some s ->
  HList.CAM_OS_INIT_HLIST_NODE x (HList.Mem hs ns) =
    Some (HList.Mem hs (<[x := HList.Node HList.NULL None]> ns)).
Proof.
  intros H. unfold HList.CAM_OS_INIT_HLIST_NODE.
  rewrite (store_pNext_eq _ _ _ _ _ H). hsimpl.
  erewrite store_ppPrev_eq by apply lookup_insert_eq. hsimpl.
  rewrite insert_insert_eq. done.
Qed.

Lemma CAM_OS_HLIST_DEL_INIT_result_first x h0 hs ns next sh :
  ns !! x = Some (HList.Node next (Some (HList.FirstOf h0))) ->
  hs !! h0 = Some sh ->
  (next = HList.NULL \/ (is_Some (ns !! next) /\ next <> x)) ->
  exists ns', HList.CAM_OS_HLIST_DEL_INIT x (HList.Mem hs ns) =
                Some (HList.Mem (<[h0 := HList.Head next]> hs) ns') /\
    ns' !! x = Some (HList.Node HList.NULL None) /\
    (forall s, next <> HList.NULL -> ns !! next = Some s ->
       ns' !! next = Some (HList.Node (HList.pNext s) (Some (HList.FirstOf h0)))) /\
    (forall q, q <> x -> (q <> next \/ next = HList.NULL) -> ns' !! q = ns !! q).
Proof.
  intros Hx Hh Hnext.
  unfold HList.CAM_OS_HLIST_DEL_INIT, HList.CAM_OS_HLIST_UNHASHED. hsimpl.
  rewrite Hx. hsimpl. unfold HList._CAM_OS_HLIST_DEL. hsimpl. rewrite Hx. hsimpl.
  unfold HList.write_once. rewrite (store_pFirst_eq _ _ _ _ _ Hh). hsimpl.
  destruct (Z.eqb_spec next HList.NULL) as [E|E]; hsimpl.
  - rewrite (CAM_OS_INIT_HLIST_NODE_eq _ _ _ _ Hx).
    eexists. split; [reflexivity|]. split; [apply lookup_insert_eq|]. split; [done|].
    intros q Hq _. rewrite lookup_insert_ne by done. done.
  - destruct Hnext as [?|[[sn Hsn] Hnx]]; [done|].
    rewrite (store_ppPrev_eq _ _ _ _ _ Hsn). hsimpl.
    erewrite CAM_OS_INIT_HLIST_NODE_eq by (rewrite lookup_insert_ne by done; exact Hx).
    eexists. split; [reflexivity|]. split; [apply lookup_insert_eq|]. split.
    + intros s _ Hs. rewrite lookup_insert_ne by done. rewrite lookup_insert_eq. congruence.
    + intros q Hq [Hqn|?]; [|done]. rewrite !lookup_insert_ne by done. done.
Qed.

Lemma CAM_OS_HLIST_DEL_INIT_result_next x p hs ns next sp :
  ns !! x = Some (HList.Node next (Some (HList.NextOf p))) ->
  ns !! p = Some sp -> p <> x ->
  (next = HList.NULL \/ (is_Some (ns !! next) /\ next <> x /\ next <> p)) ->
  exists ns', HList.CAM_OS_HLIST_DEL_INIT x (HList.Mem hs ns) = Some (HList.Mem hs ns') /\
    ns' !! x = Some (HList.Node HList.NULL None) /\
    ns' !! p = Some (HList.Node next (HList.ppPrev sp)) /\
    (forall s, next <> HList.NULL -> ns !! next = Some s ->
       ns' !! next = Some (HList.Node (HList.pNext s) (Some (HList.NextOf p)))) /\
    (forall q, q <> x -> q <> p -> (q <> next \/ next = HList.NULL) -> ns' !! q = ns !! q).
Proof.
  intros Hx Hp Hpx Hnext.
  unfold HList.CAM_OS_HLIST_DEL_INIT, HList.CAM_OS_HLIST_UNHASHED. hsimpl.
  rewrite Hx. hsimpl. unfold HList._CAM_OS_HLIST_DEL. hsimpl. rewrite Hx. hsimpl.
  unfold HList.write_once. rewrite (store_pNext_eq _ _ _ _ _ Hp). hsimpl.
  destruct (Z.eqb_spec next HList.NULL) as [E|E]; hsimpl.
  - erewrite CAM_OS_INIT_HLIST_NODE_eq by (rewrite lookup_insert_ne by done; exact Hx).
    eexists. split; [reflexivity|]. split; [apply lookup_insert_eq|]. split.
    + rewrite lookup_insert_ne by done. apply lookup_insert_eq.
    + split; [done|]. intros q Hq Hqp _. rewrite !lookup_insert_ne by done. done.
  - destruct Hnext as [?|([sn Hsn] & Hnx & Hnp)]; [done|].
    erewrite store_ppPrev_eq by (rewrite lookup_insert_ne by done; exact Hsn). hsimpl.
    erewrite CAM_OS_INIT_HLIST_NODE_eq by (rewrite !lookup_insert_ne by done; exact Hx).
    eexists. split; [reflexivity|]. split; [apply lookup_insert_eq|]. split; [|split].
    + rewrite !lookup_insert_ne by done. apply lookup_insert_eq.
    + intros s _ Hs. rewrite lookup_insert_ne by done. rewrite lookup_insert_eq. congruence.
    + intros q Hq Hqp [Hqn|?]; [|done]. rewrite !lookup_insert_ne by done. done.
Qed.

Lemma hseg_snoc ns b f l p b' f' :
  hseg ns b f (l ++ [p]) b' f' <->
  exists bp s, hseg ns b f l bp p /\ p <> HList.NULL /\ ns !! p = Some s /\
               HList.ppPrev s = Some bp /\ b' = HList.NextOf p /\ f' = HList.pNext s.
Proof.
  rewrite hseg_app. cbn [hseg]. split.
  - intros (bm & fm & H1 & -> & Hp & s & Hs & Hb & <- & <-). exists bm, s. done.
  - intros (bp & s & H1 & Hp & Hs & Hb & -> & ->). exists bp, p. split; [done|].
    split; [done|]. split; [done|]. exists s. done.
Qed.

Lemma hlist_CAM_OS_HLIST_DEL_INIT (m : HList.mem) h l1 x l2 :
  hlist m h (l1 ++ x :: l2) ->
  exists m', HList.CAM_OS_HLIST_DEL_INIT x m = Some m' /\
    hlist m' h (l1 ++ l2) /\
    HList.nodes m' !! x = Some (HList.Node HList.NULL None) /\
    (forall q, q <> h -> HList.heads m' !! q = HList.heads m !! q) /\
    (forall q, q ∉ l1 ++ x :: l2 -> HList.nodes m' !! q = HList.nodes m !! q).
Proof.
  intros (f & b' & Hh & Hs & Hnd). destruct m as [hs ns]. hsimpl.
  apply hseg_app in Hs as (bm & fm & H1 & H2).
  destruct H2 as (-> & Hx0 & sx & Hx & Hbx & H2).
  destruct sx as [next bx]. hsimpl. subst bx.
  apply NoDup_app in Hnd as (Hnd1 & Hdis & Hnd2).
  apply NoDup_cons in Hnd2 as [Hx2 Hnd2].
  pose proof (hseg_first _ _ _ _ _ _ H2) as Hnext. hsimpl.
  assert (next = HList.NULL \/
          (is_Some (ns !! next) /\ next ∈ l2)) as Hn.
  { destruct l2 as [|y l2]; cbn [hd] in Hnext; [by left|]. right.
    destruct (hseg_members _ _ _ _ _ _ H2 y) as (_ & s & bx & Hy & _); [by left|].
    rewrite Hnext. split; [eauto|by left]. }
  destruct (rev_case l1) as [->|(l1' & p & ->)].
  - destruct H1 as [<- ->]. cbn [app] in *.
    destruct (CAM_OS_HLIST_DEL_INIT_result_first x h hs ns next _ Hx Hh)
      as (ns' & E & Hx' & Hn' & Hfr).
    { destruct Hn as [?|[? Hin]]; [by left|right]. split; [done|]. intros ->. done. }
    eexists. split; [exact E|]. hsimpl. split; [|split; [done|split]].
    + destruct (hseg_relink ns ns' (HList.NextOf x) (HList.FirstOf h) next l2 b' H2 Hnd2)
        as (b'' & Hs'); [done| |].
      { intros q Hq Hqn. apply Hfr; [|by left]. intros ->. done. }
      exists next, b''. split; [apply lookup_insert_eq|]. done.
    + intros q Hq. rewrite lookup_insert_ne by done. done.
    + intros q Hq. apply not_elem_of_cons in Hq as [Hqx Hq2]. apply Hfr; [done|].
      destruct Hn as [?|[_ Hin]]; [by right|left]. intros ->. done.
  - apply hseg_snoc in H1 as (bp & sp & H1 & Hp0 & Hp & Hbp & -> & Hxp).
    assert (p <> x) as Hpx.
    { intros ->. apply (Hdis x); [apply elem_of_app; right; by left|by left]. }
    assert (forall q, q ∈ l2 -> q <> p) as Hl2p.
    { intros q Hq ->. apply (Hdis p); [apply elem_of_app; right; by left|by right]. }
    destruct (CAM_OS_HLIST_DEL_INIT_result_next x p hs ns next sp Hx Hp Hpx)
      as (ns' & E & Hx' & Hp' & Hn' & Hfr).
    { destruct Hn as [?|[? Hin]]; [by left|right]. split; [done|].
      split; [intros ->; done|]. apply Hl2p. done. }
    eexists. split; [exact E|]. hsimpl. split; [|split; [done|split; [done|]]].
    + destruct (hseg_relink ns ns' (HList.NextOf x) (HList.NextOf p) next l2 b' H2 Hnd2)
        as (b'' & Hs'); [done| |].
      { intros q Hq Hqn. apply Hfr; [|apply Hl2p; done|by left]. intros ->. done. }
      exists f, b''. split; [done|]. split.
      * rewrite <- app_assoc. cbn [app]. apply hseg_app.
        exists bp, p. split.
        -- eapply hseg_ext; [|exact H1]. intros q Hq.
           apply NoDup_app in Hnd1 as (_ & Hd1 & _).
           assert (q ∈ l1' ++ [p]) as Hq1 by (apply elem_of_app; by left).
           apply Hfr.
           ++ intros ->. apply (Hdis x Hq1). by left.
           ++ intros ->. apply (Hd1 p Hq). by left.
           ++ destruct Hn as [?|[_ Hin]]; [by right|left].
              intros ->. apply (Hdis next Hq1). by right.
        -- cbn [hseg]. split; [done|]. split; [done|]. eexists. split; [exact Hp'|].
           hsimpl. done.
      * apply NoDup_app. split; [done|]. split; [|done].
        intros q Hq Hq2. apply (Hdis q Hq). by right.
    + intros q Hq. rewrite not_elem_of_app, not_elem_of_cons in Hq.
      destruct Hq as (Hq1 & Hqx & Hq2). apply Hfr; [done| |].
      * intros ->. apply Hq1. apply elem_of_app. right. by left.
      * destruct Hn as [?|[_ Hin]]; [by right|left]. intros ->. done.
Qed.

Lemma hlist_for_each_entry_from_hseg (m : HList.mem) offset l :
  forall b f b' fuel,
  hseg (HList.nodes m) b f l b' HList.NULL ->
  (forall x, x ∈ l -> x - offset <> HList.NULL) ->
  (length l < fuel)%nat ->
  hlist_for_each_entry_from fuel offset (CAM_OS_HLIST_ENTRY_SAFE f offset) m =
    Some ((fun x => x - offset) <$> l).
Proof.
  induction l as [|x l IH]; intros b f b' fuel Hs Hoff Hf;
    (destruct fuel as [|fuel]; [cbn in Hf; lia|]); cbn [hseg] in Hs.
  - destruct Hs as [_ ->]. cbn. done.
  - destruct Hs as (-> & Hx & s & Hsx & Hb & Hs).
    unfold CAM_OS_HLIST_ENTRY_SAFE at 1.
    destruct (Z.eqb_spec x HList.NULL) as [?|_]; [done|].
    unfold CAM_OS_HLIST_ENTRY, CAM_OS_CONTAINER_OF. cbn [hlist_for_each_entry_from].
    destruct (Z.eqb_spec (x - offset) HList.NULL) as [E|_].
    { exfalso. apply (Hoff x); [by left|done]. }
    replace (x - offset + offset) with x by lia. rewrite Hsx. cbn [mbind option_bind].
    rewrite (IH _ _ _ fuel Hs); [done| |cbn [length] in Hf; lia].
    intros y Hy. apply Hoff. by right.
Qed.

Lemma hlist_CAM_OS_HLIST_FOR_EACH_ENTRY (m : HList.mem) h l offset fuel :
  hlist m h l -> (forall x, x ∈ l -> x - offset <> HList.NULL) -> (length l < fuel)%nat ->
  CAM_OS_HLIST_FOR_EACH_ENTRY fuel offset h m = Some ((fun x => x - offset) <$> l).
Proof.
  intros (f & b' & Hh & Hs & _) Hoff Hf. unfold CAM_OS_HLIST_FOR_EACH_ENTRY.
  rewrite Hh. cbn [mbind option_bind HList.pFirst].
  eapply hlist_for_each_entry_from_hseg; done.
Qed.

Lemma hlist_member_unhashed (m : HList.mem) h l x :
  hlist m h l -> x ∈ l -> HList.CAM_OS_HLIST_UNHASHED x m = Some false.
Proof.
  intros (f & b' & Hh & Hs & _) Hx.
  destruct (hseg_members _ _ _ _ _ _ Hs x Hx) as (_ & s & bx & Hsx & Hbx).
  unfold HList.CAM_OS_HLIST_UNHASHED. rewrite Hsx. cbn [mbind option_bind]. rewrite Hbx. done.
Qed.

Lemma hlist_CAM_OS_HLIST_EMPTY (m : HList.mem) h l :
  hlist m h l -> HList.CAM_OS_HLIST_EMPTY h m = Some (bool_decide (l = [])).
Proof.
  intros (f & b' & Hh & Hs & _). unfold HList.CAM_OS_HLIST_EMPTY. rewrite Hh.
  cbn [mbind option_bind HList.pFirst]. f_equal. destruct l as [|x l]; cbn [hseg] in Hs.
  - destruct Hs as [_ ->]. done.
  - destruct Hs as (-> & Hx & _). rewrite bool_decide_eq_false_2 by done.
    apply Z.eqb_neq. done.
Qed.

(** Heads and nodes that an operation does not mention keep their lists. *)
Lemma hlist_frame (m m' : HList.mem) h l :
  hlist m h l ->
  HList.heads m' !! h = HList.heads m !! h ->
  (forall q, q ∈ l -> HList.nodes m' !! q = HList.nodes m !! q) ->
  hlist m' h l.
Proof.
  intros (f & b' & Hh & Hs & Hnd) Hh' Hn'. exists f, b'. rewrite Hh'.
  split; [done|]. split; [|done]. eapply hseg_ext; done.
Qed.

(** X24.  [CAM_OS_HLIST_ADD_HEAD] puts the node at the front of the hlist:
    a list holding [l] holds [n :: l] afterwards, whatever the fields of
    [n] were before; the node is hashed, the list is not empty, and the
    hlists of other heads that share no node with it are as they were. *)
Theorem CAM_OS_HLIST_ADD_HEAD_pushes_front (m : HList.mem) h l n :
  hlist m h l -> is_Some (HList.nodes m !! n) -> n <> HList.NULL -> n ∉ l ->
  exists m', HList.CAM_OS_HLIST_ADD_HEAD n h m = Some m' /\
    hlist m' h (n :: l) /\
    HList.CAM_OS_HLIST_UNHASHED n m' = Some false /\
    HList.CAM_OS_HLIST_EMPTY h m' = Some false /\
    (forall h2 l2, h2 <> h -> hlist m h2 l2 -> (forall q, q ∈ l2 -> q ∉ n :: l) ->
       hlist m' h2 l2).
Proof.
  intros Hl Ha Hn0 Hnl.
  destruct (hlist_CAM_OS_HLIST_ADD_HEAD m h l n Hl Ha Hn0 Hnl) as (m' & E & Hl' & Hhf & Hnf).
  exists m'. split; [done|]. split; [done|].
  split; [eapply hlist_member_unhashed; [done|by left]|].
  split; [rewrite (hlist_CAM_OS_HLIST_EMPTY _ _ _ Hl'); done|].
  intros h2 l2 Hh2 Hl2 Hdis. apply (hlist_frame m); [done|apply Hhf; done|].
  intros q Hq. apply Hnf, Hdis. done.
Qed.

Lemma bucket_of_three_hlist : hlist bucket_of_three 100 [3; 2; 1].
Proof.
  exists 3, (HList.NextOf 1). split; [reflexivity|]. split.
  - cbn [hseg]. repeat (split; [done|]).
    eexists. split; [reflexivity|]. split; [reflexivity|].
    repeat (split; [done|]).
    eexists. split; [reflexivity|]. split; [reflexivity|].
    repeat (split; [done|]).
    eexists. split; [reflexivity|]. split; [reflexivity|]. done.
  - repeat (apply NoDup_cons; split; [rewrite ?elem_of_cons, ?elem_of_nil; lia|]).
    apply NoDup_nil. done.
Qed.

Lemma CAM_OS_HLIST_ADD_HEAD_pushes_front_witness :
  exists m', HList.CAM_OS_HLIST_ADD_HEAD 4 100 bucket_of_three = Some m' /\
             hlist m' 100 [4; 3; 2; 1].
Proof.
  assert (is_Some (HList.nodes bucket_of_three !! 4)) as Ha by (eexists; reflexivity).
  assert (4 <> HList.NULL) as Hn by done.
  assert (4 ∉ [3; 2; 1]) as Hnl
    by (rewrite !not_elem_of_cons; repeat split; [lia..|apply not_elem_of_nil]).
  destruct (CAM_OS_HLIST_ADD_HEAD_pushes_front bucket_of_three 100 [3; 2; 1] 4
              bucket_of_three_hlist Ha Hn Hnl) as (m' & E & Hl & _).
  exists m'. split; [exact E | exact Hl].
Defined.

(** X25.  [CAM_OS_HLIST_DEL_INIT] of a member [x] of an hlist holding
    [l1 ++ x :: l2] finds the list through the back pointer of the node
    alone and leaves it holding [l1 ++ l2]; [x] is unhashed afterwards with
    both fields [NULL], and the hlists of other heads that share no node
    with it are as they were. *)
Theorem CAM_OS_HLIST_DEL_INIT_removes (m : HList.mem) h l1 x l2 :
  hlist m h (l1 ++ x :: l2) ->
  exists m', HList.CAM_OS_HLIST_DEL_INIT x m = Some m' /\
    hlist m' h (l1 ++ l2) /\
    HList.nodes m' !! x = Some (HList.Node HList.NULL None) /\
    HList.CAM_OS_HLIST_UNHASHED x m' = Some true /\
    (forall h2 l', h2 <> h -> hlist m h2 l' -> (forall q, q ∈ l' -> q ∉ l1 ++ x :: l2) ->
       hlist m' h2 l').
Proof.
  intros Hl.
  destruct (hlist_CAM_OS_HLIST_DEL_INIT m h l1 x l2 Hl) as (m' & E & Hl' & Hx & Hhf & Hnf).
  exists m'. split; [done|]. split; [done|]. split; [done|]. split.
  - unfold HList.CAM_OS_HLIST_UNHASHED. rewrite Hx. done.
  - intros h2 l' Hh2 Hl2 Hdis. apply (hlist_frame m); [done|apply Hhf; done|].
    intros q Hq. apply Hnf, Hdis. done.
Qed.

Lemma CAM_OS_HLIST_DEL_INIT_removes_witness :
  exists m', HList.CAM_OS_HLIST_DEL_INIT 2 bucket_of_three = Some m' /\
             hlist m' 100 [3; 1] /\
             HList.CAM_OS_HLIST_UNHASHED 2 m' = Some true.
Proof.
  destruct (CAM_OS_HLIST_DEL_INIT_removes bucket_of_three 100 [3] 2 [1]
              bucket_of_three_hlist) as (m' & E & Hl & _ & Hu & _).
  exists m'. split; [exact E|]. split; [exact Hl | exact Hu].
Defined.

(** X26.  On an hlist holding [l], [CAM_OS_HLIST_FOR_EACH_ENTRY] ends
    within [length l + 1] tests of its condition and visits the structures
    that contain the nodes of [l], in order, provided none of these
    structures is at address [NULL]; [CAM_OS_HLIST_EMPTY] tells whether [l]
    is empty, and [CAM_OS_HLIST_UNHASHED] is false of every member. *)
Theorem CAM_OS_HLIST_FOR_EACH_ENTRY_visits (m : HList.mem) h l offset fuel :
  hlist m h l -> (forall x, x ∈ l -> x - offset <> HList.NULL) -> (length l < fuel)%nat ->
  CAM_OS_HLIST_FOR_EACH_ENTRY fuel offset h m = Some ((fun x => x - offset) <$> l) /\
  HList.CAM_OS_HLIST_EMPTY h m = Some (bool_decide (l = [])) /\
  (forall x, x ∈ l -> HList.CAM_OS_HLIST_UNHASHED x m = Some false).
Proof.
  intros Hl Hoff Hf. split; [apply hlist_CAM_OS_HLIST_FOR_EACH_ENTRY; done|].
  split; [apply hlist_CAM_OS_HLIST_EMPTY; done|].
  intros x Hx. eapply hlist_member_unhashed; done.
Qed.

Lemma CAM_OS_HLIST_FOR_EACH_ENTRY_visits_witness :
  CAM_OS_HLIST_FOR_EACH_ENTRY 4 0 100 bucket_of_three = Some [3; 2; 1] /\
  HList.CAM_OS_HLIST_EMPTY 100 bucket_of_three = Some false.
Proof.
  assert (forall x, x ∈ [3; 2; 1] -> x - 0 <> HList.NULL) as Hoff.
  { intros x Hx. rewrite !elem_of_cons, elem_of_nil in Hx. unfold HList.NULL. lia. }
  assert ((length [3; 2; 1] < 4)%nat) as Hf by (cbn; lia).
  destruct (CAM_OS_HLIST_FOR_EACH_ENTRY_visits bucket_of_three 100 [3; 2; 1] 0 4
              bucket_of_three_hlist Hoff Hf) as (H1 & H2 & _).
  split; [exact H1 | exact H2].
Defined.

(** *** Hash tables *)

Lemma bucket_inj cfg ht i j : bucket cfg ht i = bucket cfg ht j -> i = j.
Proof. unfold bucket, sizeof_CamOsHListHead_t. destruct cfg; vm_compute sizeof_size_t; lia. Qed.

Lemma hash_init_loop_spec cfg ht n :
  forall i hs ns,
  (forall j, i <= j < i + Z.of_nat n -> is_Some (hs !! bucket cfg ht j)) ->
  exists hs', hash_init_loop n cfg ht i (HList.Mem hs ns) = Some (HList.Mem hs' ns) /\
    (forall j, i <= j < i + Z.of_nat n ->
       hs' !! bucket cfg ht j = Some (HList.Head HList.NULL)) /\
    (forall q, (forall j, i <= j < i + Z.of_nat n -> q <> bucket cfg ht j) ->
       hs' !! q = hs !! q).
Proof.
  induction n as [|n IH]; intros i hs ns Ha.
  - exists hs. split; [done|]. split; [lia|done].
  - destruct (Ha i) as [s Hs]; [lia|].
    cbn [hash_init_loop]. unfold HList.CAM_OS_INIT_HLIST_HEAD.
    rewrite (store_pFirst_eq _ _ _ _ _ Hs). cbn [mbind option_bind].
    destruct (IH (i + 1) (<[bucket cfg ht i := HList.Head HList.NULL]> hs) ns)
      as (hs' & E & Hin & Hout).
    { intros j Hj. destruct (decide (bucket cfg ht j = bucket cfg ht i)) as [->|Hne].
      - rewrite lookup_insert_eq. eauto.
      - rewrite lookup_insert_ne by done. apply Ha. lia. }
    exists hs'. split; [done|]. split.
    + intros j Hj. destruct (decide (j = i)) as [->|Hji].
      * rewrite Hout; [apply lookup_insert_eq|].
        intros j Hj' Heq. apply bucket_inj in Heq. lia.
      * apply Hin. lia.
    + intros q Hq. rewrite Hout by (intros j Hj; apply Hq; lia).
      rewrite lookup_insert_ne; [done|]. intros Heq. apply (Hq i); [lia|done].
Qed.

Lemma hlist_nil (m : HList.mem) h :
  HList.heads m !! h = Some (HList.Head HList.NULL) -> hlist m h [].
Proof. intros Hh. exists HList.NULL, (HList.FirstOf h). split; [done|]. split; [done|]. apply NoDup_nil. done. Qed.

Lemma concat_replicate_nil (n : nat) : concat (replicate n (@nil Z)) = [].
Proof. induction n; cbn; done. Qed.

(** X27.  [_CAM_OS_HASH_INIT] (and [CAM_OS_HASH_INIT]) over an array of
    [sz] heads empties every bucket, whatever the heads held before: the
    result is a well-formed table with no node in it; no node and no head
    outside the array is written. *)
Theorem CAM_OS_HASH_INIT_empties cfg ht sz (m : HList.mem) :
  0 <= sz < 2 ^ 32 ->
  (forall j, 0 <= j < sz -> is_Some (HList.heads m !! bucket cfg ht j)) ->
  exists m', _CAM_OS_HASH_INIT cfg ht sz m = Some m' /\
    CAM_OS_HASH_INIT cfg ht sz m = Some m' /\
    htable cfg m' ht sz (replicate (Z.to_nat sz) []) /\
    (forall j, 0 <= j < sz -> HList.CAM_OS_HLIST_EMPTY (bucket cfg ht j) m' = Some true) /\
    HList.nodes m' = HList.nodes m /\
    (forall q, (forall j, 0 <= j < sz -> q <> bucket cfg ht j) ->
       HList.heads m' !! q = HList.heads m !! q).
Proof.
  intros Hsz Ha. destruct m as [hs ns]. cbn [HList.heads HList.nodes] in *.
  unfold CAM_OS_HASH_INIT, CAM_OS_HASH_SIZE, _CAM_OS_HASH_INIT.
  rewrite to_u32_small by lia.
  destruct (hash_init_loop_spec cfg ht (Z.to_nat sz) 0 hs ns) as (hs' & E & Hin & Hout).
  { intros j Hj. apply Ha. lia. }
  exists (HList.Mem hs' ns). split; [done|]. split; [done|].
  cbn [HList.heads HList.nodes]. split; [|split; [|split; [done|]]].
  - split; [rewrite length_replicate; lia|]. split.
    + intros i l Hl. apply lookup_replicate in Hl as [-> Hi].
      apply hlist_nil. cbn [HList.heads]. apply Hin. lia.
    + rewrite concat_replicate_nil. apply NoDup_nil. done.
  - intros j Hj. unfold HList.CAM_OS_HLIST_EMPTY. cbn [HList.heads].
    rewrite Hin by lia. done.
  - intros q Hq. apply Hout. intros j Hj. apply Hq. lia.
Qed.

Lemma elem_of_concat_lookup (bs : list (list Z)) i l q :
  bs !! i = Some l -> q ∈ l -> q ∈ concat bs.
Proof.
  revert i. induction bs as [|b bs IH]; intros [|i] Hi Hq; try done; cbn in *.
  - injection Hi as ->. apply elem_of_app. by left.
  - apply elem_of_app. right. eapply IH; done.
Qed.

Lemma concat_insert (bs : list (list Z)) i l :
  bs !! i = Some l ->
  exists pre post, concat bs = pre ++ l ++ post /\
    forall l', concat (<[i := l']> bs) = pre ++ l' ++ post.
Proof.
  revert i. induction bs as [|b bs IH]; intros [|i] Hi; try done; cbn in *.
  - injection Hi as ->. exists [], (concat bs). done.
  - destruct (IH i Hi) as (pre & post & E & E'). exists (b ++ pre), post.
    rewrite E, <- app_assoc. split; [done|]. intros l'. rewrite E', <- app_assoc. done.
Qed.

Lemma buckets_disjoint (bs : list (list Z)) i j l l' q :
  NoDup (concat bs) -> bs !! i = Some l -> bs !! j = Some l' -> i <> j ->
  q ∈ l -> q ∈ l' -> False.
Proof.
  revert i j. induction bs as [|b bs IH]; intros [|i] [|j] Hnd Hi Hj Hij Hq Hq';
    try done; cbn in *; apply NoDup_app in Hnd as (_ & Hdis & Hnd).
  - injection Hi as ->. apply (Hdis q Hq). eapply elem_of_concat_lookup; done.
  - injection Hj as ->. apply (Hdis q Hq'). eapply elem_of_concat_lookup; done.
  - apply (IH i j); try done. congruence.
Qed.

Lemma CAM_OS_HASH_MIN_in_table cfg constant_p size key len :
  2 <= len < 2 ^ 32 ->
  exists idx,
    CAM_OS_HASH_MIN cfg size key (CAM_OS_HASH_BITS cfg constant_p len) = Some idx /\
    0 <= idx < 2 ^ Z.log2 len /\ 2 ^ Z.log2 len <= len.
Proof.
  intros Hlen. unfold CAM_OS_HASH_BITS.
  assert (2 ^ 32 <= 2 ^ (8 * sizeof_size_t cfg)) by (destruct cfg; done).
  rewrite CAM_OS_ILOG2_log2 by (destruct cfg; try done; lia).
  assert (1 <= Z.log2 len).
  { apply Z.log2_le_pow2; [lia|]. change (2 ^ 1) with 2. lia. }
  assert (Z.log2 len < 32) by (apply Z.log2_lt_pow2; lia).
  destruct (CAM_OS_HASH_MIN_bound cfg size key (Z.log2 len)) as (idx & -> & Hidx); [lia|].
  exists idx. split; [done|]. split; [done|].
  pose proof (Z.log2_spec len ltac:(lia)). lia.
Qed.

Lemma htable_update cfg (m m' : HList.mem) ht len bs i l l' :
  htable cfg m ht len bs -> bs !! i = Some l ->
  hlist m' (bucket cfg ht (Z.of_nat i)) l' ->
  (forall q, q <> bucket cfg ht (Z.of_nat i) -> HList.heads m' !! q = HList.heads m !! q) ->
  (forall q, q ∈ concat bs -> q ∉ l -> HList.nodes m' !! q = HList.nodes m !! q) ->
  NoDup (concat (<[i := l']> bs)) ->
  htable cfg m' ht len (<[i := l']> bs).
Proof.
  intros (Hlen & Hb & Hnd) Hi Hl' Hhf Hnf Hnd'. split; [rewrite length_insert; done|].
  split; [|done]. intros j lj Hj. apply list_lookup_insert_Some in Hj as [(<- & <- & _)|[Hij Hj]].
  - done.
  - apply (hlist_frame m); [apply Hb; done| |].
    + apply Hhf. intros Heq. apply bucket_inj in Heq. lia.
    + intros q Hq. apply Hnf; [eapply elem_of_concat_lookup; done|].
      intros Hql. eapply (buckets_disjoint bs i j); done.
Qed.

(** X28.  [CAM_OS_HASH_ADD] on a well-formed table of [len] heads (with
    [2 <= len < 2^32]) puts the node at the front of the bucket its key
    hashes to, an index below [2 ^ log2 len], and leaves a well-formed
    table; [CAM_OS_HASH_FOR_EACH_POSSIBLE] with the same key then visits the
    new entry first and the former entries of that bucket after it. *)
Theorem CAM_OS_HASH_ADD_then_lookup cfg constant_p (m : HList.mem) ht len bs node size key :
  htable cfg m ht len bs -> 2 <= len < 2 ^ 32 ->
  is_Some (HList.nodes m !! node) -> node <> HList.NULL -> node ∉ concat bs ->
  exists idx l m',
    CAM_OS_HASH_MIN cfg size key (CAM_OS_HASH_BITS cfg constant_p len) = Some idx /\
    0 <= idx < 2 ^ Z.log2 len /\
    bs !! Z.to_nat idx = Some l /\
    CAM_OS_HASH_ADD cfg constant_p ht len node size key m = Some m' /\
    htable cfg m' ht len (<[Z.to_nat idx := node :: l]> bs) /\
    (forall offset fuel,
       (forall x, x ∈ node :: l -> x - offset <> HList.NULL) -> (length l + 1 < fuel)%nat ->
       CAM_OS_HASH_FOR_EACH_POSSIBLE fuel cfg constant_p ht len offset size key m' =
         Some ((fun x => x - offset) <$> node :: l)).
Proof.
  intros Ht Hlen Ha Hn0 Hnew. pose proof Ht as (Hl & Hb & Hnd).
  destruct (CAM_OS_HASH_MIN_in_table cfg constant_p size key len Hlen)
    as (idx & Hidx & Hr & Hr').
  destruct (lookup_lt_is_Some_2 bs (Z.to_nat idx)) as [l Hi]; [lia|].
  pose proof (Hb _ _ Hi) as Hli. rewrite Z2Nat.id in Hli by lia.
  assert (node ∉ l) as Hnl.
  { intros Hin. apply Hnew. eapply elem_of_concat_lookup; done. }
  destruct (hlist_CAM_OS_HLIST_ADD_HEAD m (bucket cfg ht idx) l node Hli Ha Hn0 Hnl)
    as (m' & E & Hl' & Hhf & Hnf).
  exists idx, l, m'. split; [done|]. split; [done|]. split; [done|].
  unfold CAM_OS_HASH_ADD, CAM_OS_HASH_FOR_EACH_POSSIBLE. rewrite Hidx.
  cbn [mbind option_bind]. split; [done|]. split.
  - apply (htable_update cfg m m' ht len bs (Z.to_nat idx) l); try done.
    + rewrite Z2Nat.id by lia. done.
    + rewrite Z2Nat.id by lia. done.
    + intros q Hq Hql. apply Hnf. apply not_elem_of_cons. split; [|done].
      intros ->. done.
    + destruct (concat_insert bs _ _ Hi) as (pre & post & E1 & E2). rewrite E2.
      rewrite E1 in Hnd, Hnew.
      assert (pre ++ (node :: l) ++ post ≡ₚ node :: pre ++ l ++ post) as ->.
      { cbn [app]. rewrite <- Permutation_middle. done. }
      apply NoDup_cons. done.
  - intros offset fuel Hoff Hf.
    apply hlist_CAM_OS_HLIST_FOR_EACH_ENTRY; [done|done|]. cbn [length]. lia.
Qed.

(** X29.  [CAM_OS_HASH_DEL] of a node of bucket [i] takes it out of that
    bucket, without being told the table or the key, and leaves a
    well-formed table that no longer holds it; the node is unhashed
    afterwards, so a second [CAM_OS_HASH_DEL] does nothing. *)
Theorem CAM_OS_HASH_DEL_removes cfg (m : HList.mem) ht len bs i l1 x l2 :
  htable cfg m ht len bs -> bs !! i = Some (l1 ++ x :: l2) ->
  exists m', HList.CAM_OS_HASH_DEL x m = Some m' /\
    htable cfg m' ht len (<[i := l1 ++ l2]> bs) /\
    (x ∉ concat (<[i := l1 ++ l2]> bs)) /\
    HList.CAM_OS_HLIST_UNHASHED x m' = Some true /\
    HList.CAM_OS_HASH_DEL x m' = Some m'.
Proof.
  intros Ht Hi. pose proof Ht as (Hl & Hb & Hnd). pose proof (Hb _ _ Hi) as Hli.
  destruct (hlist_CAM_OS_HLIST_DEL_INIT m _ l1 x l2 Hli) as (m' & E & Hl' & Hx & Hhf & Hnf).
  exists m'. unfold HList.CAM_OS_HASH_DEL. split; [done|].
  destruct (concat_insert bs _ _ Hi) as (pre & post & E1 & E2).
  assert (concat bs ≡ₚ x :: concat (<[i := l1 ++ l2]> bs)) as Hperm.
  { rewrite E1, E2. rewrite <- !app_assoc. cbn [app].
    rewrite (app_assoc pre l1). rewrite <- Permutation_middle.
    rewrite <- app_assoc. done. }
  rewrite Hperm in Hnd. apply NoDup_cons in Hnd as [Hxn Hnd'].
  assert (HList.CAM_OS_HLIST_UNHASHED x m' = Some true) as Hu.
  { unfold HList.CAM_OS_HLIST_UNHASHED. rewrite Hx. done. }
  split; [|split; [done|split; [done|]]].
  - apply (htable_update cfg m m' ht len bs i (l1 ++ x :: l2)); try done.
    intros q _ Hq. apply Hnf. done.
  - apply CAM_OS_HLIST_DEL_INIT_unhashed. done.
Qed.

Lemma table_of_two_htable : htable Long32 table_of_two 100 2 [[]; [1]].
Proof.
  split; [done|]. split.
  - intros [|[|i]] l Hl; cbn in Hl; [| |done]; injection Hl as <-.
    + apply hlist_nil. reflexivity.
    + exists 1, (HList.NextOf 1). split; [reflexivity|]. split.
      * cbn [hseg]. repeat (split; [done|]). eexists. split; [reflexivity|]. done.
      * apply NoDup_singleton.
  - cbn. apply NoDup_singleton.
Qed.

Lemma CAM_OS_HASH_INIT_empties_witness :
  exists m', _CAM_OS_HASH_INIT Long32 100 2 table_of_two = Some m' /\
             htable Long32 m' 100 2 [[]; []].
Proof.
  assert (0 <= 2 < 2 ^ 32) as Hsz by lia.
  assert (forall j, 0 <= j < 2 ->
            is_Some (HList.heads table_of_two !! bucket Long32 100 j)) as Ha.
  { intros j Hj. assert (j = 0 \/ j = 1) as [-> | ->] by lia; eexists; reflexivity. }
  destruct (CAM_OS_HASH_INIT_empties Long32 100 2 table_of_two Hsz Ha)
    as (m' & E & _ & Ht & _).
  exists m'. split; [exact E | exact Ht].
Defined.

Lemma CAM_OS_HASH_ADD_then_lookup_witness :
  exists idx l m',
    CAM_OS_HASH_MIN Long32 4 12345 (CAM_OS_HASH_BITS Long32 true 2) = Some idx /\
    CAM_OS_HASH_ADD Long32 true 100 2 2 4 12345 table_of_two = Some m' /\
    htable Long32 m' 100 2 (<[Z.to_nat idx := 2 :: l]> [[]; [1]]).
Proof.
  assert (2 <= 2 < 2 ^ 32) as Hlen by lia.
  assert (is_Some (HList.nodes table_of_two !! 2)) as Ha by (eexists; reflexivity).
  assert (2 <> HList.NULL) as Hn by done.
  assert (2 ∉ concat [[]; [1]]) as Hnew
    by (cbn; rewrite not_elem_of_cons; split; [lia|apply not_elem_of_nil]).
  destruct (CAM_OS_HASH_ADD_then_lookup Long32 true table_of_two 100 2 [[]; [1]] 2 4 12345
              table_of_two_htable Hlen Ha Hn Hnew)
    as (idx & l & m' & Hidx & _ & _ & E & Ht & _).
  exists idx, l, m'. split; [exact Hidx|]. split; [exact E | exact Ht].
Defined.

Lemma CAM_OS_HASH_DEL_removes_witness :
  exists m', HList.CAM_OS_HASH_DEL 1 table_of_two = Some m' /\
             htable Long32 m' 100 2 [[]; []].
Proof.
  assert ([[]; [1]] !! 1%nat = Some ([] ++ 1 :: [])) as Hi by reflexivity.
  destruct (CAM_OS_HASH_DEL_removes Long32 table_of_two 100 2 [[]; [1]] 1 [] 1 []
              table_of_two_htable Hi) as (m' & E & Ht & _).
  exists m'. split; [exact E | exact Ht].
Defined.

(** *** Error values in pointers *)

(** X30.  An error code travels through a pointer unchanged:
    [CAM_OS_PTR_ERR(CAM_OS_ERR_PTR(e)) = e] for every [long e], and
    [CAM_OS_IS_ERR] holds of [CAM_OS_ERR_PTR(e)] exactly when
    [-4096 <= e <= -1], as [CAM_OS_IS_ERR_VALUE] does of [e] itself;
    [NULL] and every address below the last 4096 ones are not errors. *)
Theorem CAM_OS_ERR_PTR_roundtrip cfg e :
  - 2 ^ (CAM_OS_BITS_PER_LONG cfg - 1) <= e < 2 ^ (CAM_OS_BITS_PER_LONG cfg - 1) ->
  CAM_OS_PTR_ERR cfg (CAM_OS_ERR_PTR cfg e) = e /\
  (CAM_OS_IS_ERR cfg (CAM_OS_ERR_PTR cfg e) = true <-> - CAM_OS_MAX_ERRNO <= e <= -1) /\
  CAM_OS_IS_ERR_VALUE cfg e = CAM_OS_IS_ERR cfg (CAM_OS_ERR_PTR cfg e) /\
  (forall p, 0 <= p < 2 ^ CAM_OS_BITS_PER_LONG cfg - CAM_OS_MAX_ERRNO ->
     CAM_OS_IS_ERR cfg p = false).
Proof.
  intros He.
  unfold CAM_OS_PTR_ERR, CAM_OS_ERR_PTR, CAM_OS_IS_ERR, CAM_OS_IS_ERR_VALUE, to_ulong,
    to_unsigned, to_signed, CAM_OS_MAX_ERRNO.
  set (w := CAM_OS_BITS_PER_LONG cfg) in *.
  assert (2 ^ w = 2 * 2 ^ (w - 1) /\ 4096 < 2 ^ (w - 1)) as [Hw Hbig]
    by (subst w; destruct cfg; cbn; lia).
  rewrite !Z.mod_mod by lia.
  assert (Z.opp 4096 mod 2 ^ w = 2 ^ w - 4096) as Hm.
  { symmetry. apply (Z.mod_unique_pos _ _ (-1)); lia. }
  rewrite Hm.
  split; [|split; [|split; [done|]]].
  - rewrite Zplus_mod_idemp_l. rewrite Z.mod_small by lia. lia.
  - rewrite Z.leb_le. destruct (Z.lt_ge_cases e 0).
    + rewrite <- (Z.mod_unique_pos e (2 ^ w) (-1) (e + 2 ^ w)) by lia. lia.
    + rewrite Z.mod_small by lia. lia.
  - intros p Hp. rewrite Z.mod_mod by lia. rewrite Z.mod_small by lia. apply Z.leb_gt. lia.
Qed.

Lemma CAM_OS_ERR_PTR_roundtrip_witness :
  CAM_OS_PTR_ERR Long32 (CAM_OS_ERR_PTR Long32 (-12)) = -12 /\
  CAM_OS_IS_ERR Long32 (CAM_OS_ERR_PTR Long32 (-12)) = true.
Proof.
  assert (- 2 ^ (CAM_OS_BITS_PER_LONG Long32 - 1) <= -12
          < 2 ^ (CAM_OS_BITS_PER_LONG Long32 - 1)) as He by (cbn; lia).
  destruct (CAM_OS_ERR_PTR_roundtrip Long32 (-12) He) as (H1 & H2 & _).
  split; [exact H1|]. apply H2. unfold CAM_OS_MAX_ERRNO. lia.
Defined.
